(** * Earnings volatility calculator: acquisition-and-analytics core

    Shallow embedding of [Experimental/Finviz-Parser/calculator.py]
    (classes [ProxyManager], [SessionManager], [OptionsAnalyzer],
    [EarningsCalendarFetcher], [DataCache], [FinvizTicker], the scoring,
    batching and ordering of [EnhancedEarningsScanner] and the table filters
    of [EarningsTkApp]) together with the properties checked against it.

    Conventions.
    - Python [float] / numpy [float64] values are IEEE binary64 numbers,
      embedded as [spec_float] with precision 53 and maximal exponent 1024.
    - Python [str] values are byte strings holding their UTF-8 encoding;
      comparing UTF-8 encodings bytewise orders them as Python orders the
      strings by code point.
    - Python dictionaries are finite maps, the cache directory is a finite
      map from file names to file contents, and every procedure that touches
      the directory takes the directory and returns the new one.
    - [random.choice] reads its random number from an explicit argument. *)

From Stdlib Require Import ZArith Bool Lia Permutation Sorted.
From Stdlib Require Import Floats.SpecFloat.
From stdpp Require Import gmap strings list sorting.

Local Open Scope Z_scope.

(** ** Binary64 arithmetic *)

Module Float64.

Definition float : Type := spec_float.

Definition prec : Z := 53.
Definition emax : Z := 1024.

Definition nan : float := S754_nan.

Definition fsub (x y : float) : float := SFsub prec emax x y.
Definition fdiv (x y : float) : float := SFdiv prec emax x y.

(** Conversion of a Python [int] to the nearest binary64 number. *)
Definition of_int (z : Z) : float := binary_normalize prec emax z 0 false.

Definition isnan (x : float) : bool :=
  match x with S754_nan => true | _ => false end.

Definition is_zero (x : float) : bool :=
  match x with S754_zero _ => true | _ => false end.

Definition is_inf (x : float) : bool :=
  match x with S754_infinity _ => true | _ => false end.

(** The literals of the source, as the binary64 numbers Python reads
    them as: [1.25 = 0x1.4p+0], [-0.00406 = -0x1.0a137f38c5437p-8]. *)
Definition lit_1_25 : float := S754_finite false 5629499534213120 (-52).
Definition lit_m0_00406 : float := S754_finite true 4680861308703799 (-60).

End Float64.

Import Float64.

(** ** Numbers held in result dictionaries

    [compute_recommendation] stores either a Python [int] ([9999], [0]) or a
    float in ['iv30_rv30'] and ['term_slope']; a missing value is [None]. *)

Inductive pynum : Type :=
  | PyInt (z : Z)
  | PyFloat (f : float).

Definition to_float (x : pynum) : float :=
  match x with
  | PyInt z => of_int z
  | PyFloat f => f
  end.

(** [np.isnan]: an integer is never NaN. *)
Definition np_isnan (x : pynum) : bool :=
  match x with
  | PyInt _ => false
  | PyFloat f => isnan f
  end.

(** [x >= c] and [x <= c] against a float literal [c]. *)
Definition py_ge (x : pynum) (c : float) : bool := SFleb c (to_float x).
Definition py_le (x : pynum) (c : float) : bool := SFleb (to_float x) c.

(** ** The scoring rule ([EnhancedEarningsScanner.analyze_stock]) *)

Module Score.

(** [ivcheck = (r >= 1.25) if (r is not None and not np.isnan(r)) else False] *)
Definition ivcheck (r : option pynum) : bool :=
  match r with
  | Some x => if negb (np_isnan x) then py_ge x lit_1_25 else false
  | None => false
  end.

(** [slopecheck = (s <= -0.00406) if (s is not None and not np.isnan(s)) else False] *)
Definition slopecheck (s : option pynum) : bool :=
  match s with
  | Some x => if negb (np_isnan x) then py_le x lit_m0_00406 else false
  | None => false
  end.

Definition score (avb : bool) (r s : option pynum) : string :=
  let ivc := ivcheck r in
  let slc := slopecheck s in
  if avb && ivc && slc then "Recommended"
  else if slc && ((avb && negb ivc) || (ivc && negb avb)) then "Consider"
  else "Avoid".

(** The thresholds as order statements on the stored number. *)
Definition iv_passes (r : option pynum) : Prop :=
  exists x, r = Some x /\ SFleb lit_1_25 (to_float x) = true.

Definition slope_passes (s : option pynum) : Prop :=
  exists x, s = Some x /\ SFleb (to_float x) lit_m0_00406 = true.

(** A value that is [None] or NaN. *)
Definition undefined (v : option pynum) : Prop :=
  v = None \/ v = Some (PyFloat nan).

End Score.

(** ** Implied-volatility term structure ([OptionsAnalyzer.build_term_structure]) *)

Module TermStructure.

(** A callable returning a float; [None] stands for a raised exception. *)
Definition spline : Type := Z -> option float.

(** [da.argsort()]: the indices of [da] ordered by their entry.  Equal
    entries keep their input order, which is what numpy does on the short
    arrays met here (insertion sort below 17 elements). *)
Definition key (da : list Z) (i : nat) : Z := nth i da 0.

Fixpoint insert_index (da : list Z) (i : nat) (idx : list nat) : list nat :=
  match idx with
  | [] => [i]
  | j :: idx' =>
      if key da i <=? key da j then i :: idx
      else j :: insert_index da i idx'
  end.

Definition argsort (da : list Z) : list nat :=
  foldr (insert_index da) [] (seq 0 (length da)).

(** [a[idx]] for an index array; an index out of bounds raises. *)
Definition take_idx {A : Type} (a : list A) (idx : list nat) : option (list A) :=
  mapM (fun i => a !! i) idx.

(** The closure [tspline] over the sorted arrays and the interpolant [f]:
    [da[0]] and [da[-1]] raise on an empty array. *)
Definition tspline (da : list Z) (va : list float) (f : Z -> float) : spline :=
  fun dte =>
    d_lo ← head da;
    if dte <? d_lo then head va
    else
      d_hi ← last da;
      if d_hi <? dte then last va
      else Some (f dte).

(** The arrays [da[idx]] and [va[idx]] when every index is in bounds, and
    the order that [argsort] establishes on the indices. *)
Definition sorted_days (days : list Z) : list Z :=
  key days <$> argsort days.

Definition sorted_ivs (days : list Z) (ivs : list float) : list float :=
  (fun i => nth i ivs nan) <$> argsort days.

Definition day_le (da : list Z) (i j : nat) : Prop := key da i <= key da j.

Section WithInterpolator.

(** [interp1d(da, va, kind='linear', fill_value="extrapolate")] of scipy,
    which is not part of the repository: [None] when the constructor
    raises, else the interpolating function. *)
Variable interp1d : list Z -> list float -> option (Z -> float).

(** The body of the [try] block. *)
Definition try_build (days : list Z) (ivs : list float) : option spline :=
  let idx := argsort days in
  da ← take_idx days idx;
  va ← take_idx ivs idx;
  f ← interp1d da va;
  Some (tspline da va f).

Definition build_term_structure (days : list Z) (ivs : list float) : spline :=
  match try_build days ivs with
  | Some ts => ts
  | None => fun _ => Some nan
  end.

End WithInterpolator.

(** A piecewise-linear interpolant in the formula of the library,
    [slope * (x - x_lo) + y_lo] on the segment that holds [x] (the first
    or last segment outside the data); it raises on empty arrays and on
    arrays of different lengths.  It serves to run the model on data. *)
Definition fadd (x y : float) : float := SFadd prec emax x y.
Definition fmul (x y : float) : float := SFmul prec emax x y.

Definition on_segment (x_lo x_hi : Z) (y_lo y_hi : float) (x : Z) : float :=
  let slope := fdiv (fsub y_hi y_lo) (of_int (x_hi - x_lo)) in
  fadd (fmul slope (of_int (x - x_lo))) y_lo.

Fixpoint segments (x_lo : Z) (y_lo : float) (da : list Z) (va : list float)
    (x : Z) : float :=
  match da, va with
  | x_hi :: da', y_hi :: va' =>
      match da' with
      | [] => on_segment x_lo x_hi y_lo y_hi x
      | _ :: _ =>
          if x <=? x_hi then on_segment x_lo x_hi y_lo y_hi x
          else segments x_hi y_hi da' va' x
      end
  | _, _ => y_lo
  end.

Definition linear_interp1d (da : list Z) (va : list float) : option (Z -> float) :=
  if negb (length da =? length va)%nat then None
  else
    match da, va with
    | x0 :: da', y0 :: va' => Some (segments x0 y0 da' va')
    | _, _ => None
    end.

End TermStructure.

(** ** Slope and IV/RV ratio ([OptionsAnalyzer.compute_recommendation]) *)

Module Analytics.

Import TermStructure.

(** [min(ds)]; raises on an empty list. *)
Definition py_min (ds : list Z) : option Z :=
  match ds with
  | [] => None
  | d :: ds' => Some (foldl Z.min d ds')
  end.

(** [x / d] for a float [x] and an int [d]: [ZeroDivisionError] on [0]. *)
Definition py_truediv (x : float) (d : Z) : option float :=
  if d =? 0 then None else Some (fdiv x (of_int d)).

(** The divisor [dden = (45 - d0) if (45 - d0) != 0 else 1]. *)
Definition slope_divisor (d0 : Z) : Z :=
  if negb (45 - d0 =? 0) then 45 - d0 else 1.

Definition term_slope (ts : spline) (ds : list Z) : option pynum :=
  d0 ← py_min ds;
  if d0 =? 45 then Some (PyInt 0)
  else
    let dden := slope_divisor d0 in
    a ← ts 45;
    b ← ts d0;
    q ← py_truediv (fsub a b) dden;
    Some (PyFloat q).

(** [hv] is [np.nan] on the Finviz path and the Yang-Zhang estimate,
    computed from the provider's price history, otherwise. *)
Definition historical_volatility (use_finviz : bool) (yang_zhang : float) : float :=
  if negb use_finviz then yang_zhang else nan.

Definition iv30_rv30 (iv30 hv : float) : pynum :=
  if SFeqb hv (of_int 0) then PyInt 9999
  else if isnan hv then PyFloat nan
  else PyFloat (fdiv iv30 hv).

End Analytics.

(** ** Proxy pool and sessions ([ProxyManager], [SessionManager]) *)

Module Proxy.

(** A proxy is the dictionary [{'http': url, 'https': url}]. *)
Record proxy : Type := Build_proxy { http : string; https : string }.

#[global] Instance proxy_eq_dec : EqDecision proxy.
Proof. solve_decision. Defined.

Record ProxyManager : Type := Build_ProxyManager {
  proxies : list proxy;
  current_proxy : option proxy;
  proxy_enabled : bool
}.

Definition set_current (pm : ProxyManager) (c : proxy) : ProxyManager :=
  {| proxies := proxies pm;
     current_proxy := Some c;
     proxy_enabled := proxy_enabled pm |}.

(** [random.choice(seq)] on a sequence with first element [p0]: the element
    at the position drawn below [len(seq)], here [rnd mod len(seq)]. *)
Definition random_choice {A : Type} (rnd : nat) (p0 : A) (rest : list A) : A :=
  nth (rnd mod length (p0 :: rest)) (p0 :: rest) p0.

Definition get_proxy (rnd : nat) (pm : ProxyManager) : option proxy * ProxyManager :=
  if negb (proxy_enabled pm) then (None, pm)
  else
    match proxies pm with
    | [] => (None, pm)
    | p0 :: rest =>
        let c := random_choice rnd p0 rest in
        (Some c, set_current pm c)
    end.

(** [available = [p for p in self.proxies if p != self.current_proxy]] *)
Definition available (pm : ProxyManager) : list proxy :=
  filter (fun p => Some p ≠ current_proxy pm) (proxies pm).

Definition rotate_proxy (rnd : nat) (pm : ProxyManager) : option proxy * ProxyManager :=
  if negb (proxy_enabled pm) || (length (proxies pm) <=? 1)%nat then (None, pm)
  else
    match available pm with
    | p0 :: rest =>
        let c := random_choice rnd p0 rest in
        (Some c, set_current pm c)
    | [] => (None, pm)
    end.

(** [{p['http']: p for p in candidates}]: a later proxy with a known
    address replaces the stored one and keeps its place. *)
Fixpoint dict_put (d : list (string * proxy)) (p : proxy) : list (string * proxy) :=
  match d with
  | [] => [(http p, p)]
  | (k, q) :: d' =>
      if String.eqb k (http p) then (k, p) :: d' else (k, q) :: dict_put d' p
  end.

(** [list({p['http']: p for p in candidates}.values())] *)
Definition dedup_candidates (candidates : list proxy) : list proxy :=
  (foldl dict_put [] candidates).*2.

(** The loop over [as_completed]: the candidates in the order in which
    their validations finish, each with its outcome; the loop stops once
    [max_proxies] proxies are valid. *)
Fixpoint collect_valid (max_proxies : nat) (validate_proxy : proxy -> bool)
    (completed : list proxy) (valid : list proxy) : list proxy :=
  match completed with
  | [] => valid
  | p :: rest =>
      if validate_proxy p then
        let valid' := valid ++ [p] in
        if (max_proxies <=? length valid')%nat then valid'
        else collect_valid max_proxies validate_proxy rest valid'
      else collect_valid max_proxies validate_proxy rest valid
  end.

(** [build_valid_proxy_pool], given the fetched candidates, the outcome of
    each validation and the order [completed] in which the validations of
    the deduplicated candidates finish. *)
Definition build_valid_proxy_pool (max_proxies : nat)
    (validate_proxy : proxy -> bool) (completed : list proxy)
    (pm : ProxyManager) : ProxyManager :=
  {| proxies := collect_valid max_proxies validate_proxy completed [];
     current_proxy := current_proxy pm;
     proxy_enabled := proxy_enabled pm |}.

(** A [requests.Session] as far as the pool is concerned: its proxy binding. *)
Record Session : Type := Build_Session { bound_proxy : option proxy }.

Record SessionManager : Type := Build_SessionManager {
  proxy_manager : ProxyManager;
  session : Session
}.

Definition _create_session (rnd : nat) (pm : ProxyManager) : Session * ProxyManager :=
  if proxy_enabled pm then
    let '(p, pm') := get_proxy rnd pm in
    ({| bound_proxy := p |}, pm')
  else ({| bound_proxy := None |}, pm).

(** [rotate_session] draws twice: once in [rotate_proxy], once in the
    [get_proxy] of the session it then creates. *)
Definition rotate_session (rnd1 rnd2 : nat) (sm : SessionManager) : SessionManager :=
  if proxy_enabled (proxy_manager sm) then
    match rotate_proxy rnd1 (proxy_manager sm) with
    | (Some _, pm') =>
        let '(s, pm'') := _create_session rnd2 pm' in
        {| proxy_manager := pm''; session := s |}
    | (None, pm') => {| proxy_manager := pm'; session := session sm |}
    end
  else sm.

End Proxy.

(** ** Option-chain acquisition with retries ([OptionsAnalyzer.compute_recommendation]) *)

Module Fetch.

(** What the analyzer does to the outside world, most recent event first. *)
Inductive event : Type :=
  | EvOptions (s : string)
  | EvChain (e : string)
  | EvRotate.

Definition trace : Type := list event.

Inductive outcome (A : Type) : Type :=
  | Ok (a : A)
  | Raised (msg : string).
Arguments Ok {A} a.
Arguments Raised {A} msg.

(** Computations that act on the world and may raise. *)
Definition M (A : Type) : Type := trace -> outcome A * trace.

Definition ret {A : Type} (a : A) : M A := fun tr => (Ok a, tr).

Definition bind {A B : Type} (m : M A) (k : A -> M B) : M B :=
  fun tr =>
    match m tr with
    | (Ok a, tr') => k a tr'
    | (Raised msg, tr') => (Raised msg, tr')
    end.

(** [try: m except Exception as ex: h ex] *)
Definition try_except {A : Type} (m : M A) (h : string -> M A) : M A :=
  fun tr =>
    match m tr with
    | (Ok a, tr') => (Ok a, tr')
    | (Raised msg, tr') => h msg tr'
    end.

#[global] Instance fetch_ret : MRet M := @ret.
#[global] Instance fetch_bind : MBind M := fun A B k m => bind m k.

(** The value [compute_recommendation] returns: [{"error": msg}] or the
    dictionary of indicators. *)
Inductive reply (R : Type) : Type :=
  | Error (msg : string)
  | Data (r : R).
Arguments Error {R} msg.
Arguments Data {R} r.

(** [oc[e] = c] on an insertion-ordered dictionary. *)
Fixpoint dict_set {V : Type} (oc : list (string * V)) (e : string) (c : V)
    : list (string * V) :=
  match oc with
  | [] => [(e, c)]
  | (e', c') :: oc' =>
      if String.eqb e' e then (e', c) :: oc' else (e', c') :: dict_set oc' e c
  end.

Section WithProvider.

(** The market-data provider and the rest of the analysis are outside the
    repository.  Each provider answer may depend on everything done so far
    (which session is in use, how often it was asked); [None] is a raised
    exception. *)
Variable chain : Type.
Variable R : Type.
Variable provider_options : trace -> string -> option (list string).
Variable provider_chain : trace -> string -> option chain.

(** [symbol.strip().upper()] and [filter_dates] (which reads the clock). *)
Variable strip_upper : string -> string.
Variable filter_dates : list string -> list string.

(** Lines 576-656: price, at-the-money volatilities, term structure, slope,
    ratio and expected move, from the fetched chains. *)
Variable analyse : string -> list (string * chain) -> M (reply R).

Definition ticker_options (s : string) : M (list string) :=
  fun tr =>
    match provider_options tr s with
    | Some l => (Ok l, EvOptions s :: tr)
    | None => (Raised "options", EvOptions s :: tr)
    end.

Definition option_chain (e : string) : M chain :=
  fun tr =>
    match provider_chain tr e with
    | Some c => (Ok c, EvChain e :: tr)
    | None => (Raised "option_chain", EvChain e :: tr)
    end.

Definition rotate_session : M unit := fun tr => (Ok tt, EvRotate :: tr).

(** One turn of the loop over the expiries: the handler rotates the session
    and calls the provider again, outside any [try]. *)
Definition fetch_expiry (e : string) : M chain :=
  try_except (option_chain e)
    (fun _ => rotate_session ;; option_chain e).

Fixpoint fetch_chains (exps : list string) (oc : list (string * chain))
    : M (list (string * chain)) :=
  match exps with
  | [] => ret oc
  | e :: exps' =>
      c ← fetch_expiry e;
      fetch_chains exps' (dict_set oc e c)
  end.

(** The body of the outer [try]. *)
Definition attempt_body (symbol : string) : M (reply R) :=
  let s := strip_upper symbol in
  if String.eqb s "" then ret (Error "No symbol provided.")
  else
    opts ← ticker_options s;
    match opts with
    | [] => ret (Error ("No options for " +:+ s +:+ "."))
    | _ :: _ =>
        let exps := filter_dates opts in
        oc ← fetch_chains exps [];
        analyse s oc
    end.

(** [for attempt in range(3)]: the loop over the attempt numbers still to
    run; [None] is falling off the end of the loop. *)
Fixpoint attempts (todo : list nat) (symbol : string) : M (option (reply R)) :=
  match todo with
  | [] => ret None
  | attempt :: todo' =>
      try_except (r ← attempt_body symbol; ret (Some r))
        (fun msg =>
           if (attempt <? 2)%nat then rotate_session ;; attempts todo' symbol
           else ret (Some (Error ("Err: " +:+ msg))))
  end.

Definition compute_recommendation (symbol : string) : M (option (reply R)) :=
  attempts (seq 0 3) symbol.

End WithProvider.

End Fetch.

(** ** MD5 digests ([hashlib.md5], after RFC 1321) *)

Module MD5.

Definition mask32 (x : Z) : Z := Z.land x 4294967295.
Definition add32 (x y : Z) : Z := mask32 (x + y).
Definition not32 (x : Z) : Z := Z.lxor x 4294967295.
Definition rotl32 (x c : Z) : Z :=
  mask32 (Z.lor (Z.shiftl x c) (Z.shiftr x (32 - c))).

Definition shifts : list Z :=
  [7; 12; 17; 22; 7; 12; 17; 22; 7; 12; 17; 22; 7; 12; 17; 22;
   5; 9; 14; 20; 5; 9; 14; 20; 5; 9; 14; 20; 5; 9; 14; 20;
   4; 11; 16; 23; 4; 11; 16; 23; 4; 11; 16; 23; 4; 11; 16; 23;
   6; 10; 15; 21; 6; 10; 15; 21; 6; 10; 15; 21; 6; 10; 15; 21].

(** [floor (2^32 * abs (sin (i + 1)))] for [i] from 0 to 63. *)
Definition sines : list Z :=
  [3614090360; 3905402710; 606105819; 3250441966; 4118548399; 1200080426;
   2821735955; 4249261313; 1770035416; 2336552879; 4294925233; 2304563134;
   1804603682; 4254626195; 2792965006; 1236535329; 4129170786; 3225465664;
   643717713; 3921069994; 3593408605; 38016083; 3634488961; 3889429448;
   568446438; 3275163606; 4107603335; 1163531501; 2850285829; 4243563512;
   1735328473; 2368359562; 4294588738; 2272392833; 1839030562; 4259657740;
   2763975236; 1272893353; 4139469664; 3200236656; 681279174; 3936430074;
   3572445317; 76029189; 3654602809; 3873151461; 530742520; 3299628645;
   4096336452; 1126891415; 2878612391; 4237533241; 1700485571; 2399980690;
   4293915773; 2240044497; 1873313359; 4264355552; 2734768916; 1309151649;
   4149444226; 3174756917; 718787259; 3951481745].

Definition words4 : Type := Z * Z * Z * Z.

Definition initial : words4 := (1732584193, 4023233417, 2562383102, 271733878).

(** The mixing function of round [i] and the index of the message word. *)
Definition mix (i : Z) (B C D : Z) : Z * Z :=
  if i <? 16 then (Z.lor (Z.land B C) (Z.land (not32 B) D), i)
  else if i <? 32 then (Z.lor (Z.land D B) (Z.land (not32 D) C), (5 * i + 1) mod 16)
  else if i <? 48 then (Z.lxor (Z.lxor B C) D, (3 * i + 5) mod 16)
  else (Z.lxor C (Z.lor B (not32 D)), (7 * i) mod 16).

Definition step (M : list Z) (st : words4) (i : nat) : words4 :=
  let '(A, B, C, D) := st in
  let '(F, g) := mix (Z.of_nat i) B C D in
  let F' := mask32 (F + A + nth i sines 0 + nth (Z.to_nat g) M 0) in
  (D, add32 B (rotl32 F' (nth i shifts 0)), B, C).

Definition process_block (h : words4) (M : list Z) : words4 :=
  let '(a0, b0, c0, d0) := h in
  let '(A, B, C, D) := foldl (step M) h (seq 0 64) in
  (add32 a0 A, add32 b0 B, add32 c0 C, add32 d0 D).

(** The [k] low bytes of [n], least significant first. *)
Fixpoint le_bytes (k : nat) (n : Z) : list Z :=
  match k with
  | O => []
  | S k' => n mod 256 :: le_bytes k' (n / 256)
  end.

Definition pad (bytes : list Z) : list Z :=
  let len := Z.of_nat (length bytes) in
  bytes ++ [128] ++ replicate (Z.to_nat ((55 - len) mod 64)) 0
        ++ le_bytes 8 (8 * len).

Fixpoint words (bs : list Z) : list Z :=
  match bs with
  | b0 :: b1 :: b2 :: b3 :: rest =>
      (b0 + 256 * b1 + 65536 * b2 + 16777216 * b3) :: words rest
  | _ => []
  end.

Fixpoint blocks (fuel : nat) (ws : list Z) : list (list Z) :=
  match fuel, ws with
  | S fuel', _ :: _ => take 16 ws :: blocks fuel' (drop 16 ws)
  | _, _ => []
  end.

Definition digest (bytes : list Z) : list Z :=
  let ws := words (pad bytes) in
  let '(a, b, c, d) := foldl process_block initial (blocks (length ws) ws) in
  le_bytes 4 a ++ le_bytes 4 b ++ le_bytes 4 c ++ le_bytes 4 d.

Definition hex_digit (n : Z) : Ascii.ascii :=
  match String.get (Z.to_nat n) "0123456789abcdef" with
  | Some c => c
  | None => Ascii.zero
  end.

Fixpoint hex (bytes : list Z) : string :=
  match bytes with
  | [] => EmptyString
  | b :: rest => String (hex_digit (b / 16)) (String (hex_digit (b mod 16)) (hex rest))
  end.

Definition bytes_of (s : string) : list Z :=
  (fun a => Z.of_N (Ascii.N_of_ascii a)) <$> String.list_ascii_of_string s.

(** [hashlib.md5(s.encode()).hexdigest()] *)
Definition md5_hexdigest (s : string) : string := hex (digest (bytes_of s)).

End MD5.

(** ** The result cache ([DataCache]) *)

Module Cache.

(** Values stored in a result dictionary. *)
Inductive pyval : Type :=
  | VNone
  | VBool (b : bool)
  | VInt (z : Z)
  | VFloat (f : float)
  | VStr (s : string).

(** Exact comparison of an integer with a float, as Python performs it. *)
Definition int_eq_float (z : Z) (f : float) : bool :=
  match f with
  | S754_zero _ => z =? 0
  | S754_finite s m e =>
      let sm := if s then Z.neg m else Z.pos m in
      if 0 <=? e then z =? sm * 2 ^ e else z * 2 ^ (- e) =? sm
  | _ => false
  end.

(** [bool] is a subclass of [int]: [False == 0] and [True == 1]. *)
Definition as_int (v : pyval) : option Z :=
  match v with
  | VBool b => Some (if b then 1 else 0)
  | VInt z => Some z
  | _ => None
  end.

(** [a == b] *)
Definition py_eq (a b : pyval) : bool :=
  match a, b with
  | VNone, VNone => true
  | VStr s, VStr t => String.eqb s t
  | VFloat f, VFloat g => SFeqb f g
  | VFloat f, _ =>
      match as_int b with Some z => int_eq_float z f | None => false end
  | _, VFloat g =>
      match as_int a with Some z => int_eq_float z g | None => false end
  | _, _ =>
      match as_int a, as_int b with
      | Some x, Some y => x =? y
      | _, _ => false
      end
  end.

(** [a in l] for a list literal [l] *)
Definition py_in (a : pyval) (l : list pyval) : bool := existsb (py_eq a) l.

(** The list literal [[None, 'N/A', 0]] of [update_missing_data]. *)
Definition blank_values : list pyval := [VNone; VStr "N/A"; VInt 0].

Abbreviation dict := (gmap string pyval).

(** One entry of ['missing_data']. *)
Record missing : Type := Build_missing {
  m_ticker : pyval;
  missing_fields : list string;
  m_earnings_time : pyval
}.

(** The pickled dictionary of [save_data]; the timestamp is a naive
    [datetime], counted here in microseconds. *)
Record cache_entry : Type := Build_cache_entry {
  timestamp : Z;
  date : string;
  tickers : list string;
  data : list dict;
  missing_data : list missing
}.

(** A file of the cache directory: either it unpickles to an entry written
    by [save_data], or reading it raises. *)
Inductive file : Type :=
  | Unreadable
  | Pickled (c : cache_entry).

(** The cache directory, from file name to content. *)
Abbreviation directory := (gmap string file).

Definition cache_expiry_days : Z := 7.

Definition microseconds_per_day : Z := 86400000000.

(** [(now - ts).days]: a [timedelta] normalises to whole days rounded down. *)
Definition age_days (now ts : Z) : Z := (now - ts) / microseconds_per_day.

(** [sorted(tks)] on strings. *)
Fixpoint insert_sorted (s : string) (l : list string) : list string :=
  match l with
  | [] => [s]
  | t :: l' => if String.leb s t then s :: l else t :: insert_sorted s l'
  end.

Definition sorted (l : list string) : list string := foldr insert_sorted [] l.

(** [fn.endswith(suffix)] *)
Fixpoint endswith (suffix s : string) : bool :=
  String.eqb s suffix ||
  match s with
  | EmptyString => false
  | String _ s' => endswith suffix s'
  end.

(** [_identify_missing_data] on one result; [None] is the [KeyError] of
    [d['ticker']]. *)
Definition get_or (d : dict) (k : string) (default : pyval) : pyval :=
  match d !! k with Some v => v | None => default end.

Definition missing_fields_of (d : dict) : list string :=
  (if py_eq (get_or d "expected_move" VNone) (VStr "N/A") then ["expected_move"] else [])
  ++ (match get_or d "current_iv" VNone with VNone => ["current_iv"] | _ => [] end)
  ++ (if py_in (get_or d "term_structure" VNone) [VInt 0; VStr "N/A"]
      then ["term_structure"] else []).

Fixpoint _identify_missing_data (l : list dict) : option (list missing) :=
  match l with
  | [] => Some []
  | d :: l' =>
      match missing_fields_of d with
      | [] => _identify_missing_data l'
      | mf =>
          t ← d !! "ticker";
          rest ← _identify_missing_data l';
          Some ({| m_ticker := t;
                   missing_fields := mf;
                   m_earnings_time := get_or d "earnings_time" (VStr "Unknown") |}
                :: rest)
      end
  end.

(** What the merge leaves in a field holding [old] when the update holds
    [upd] under the same key. *)
Definition merged_value (old upd : option pyval) : option pyval :=
  match old with
  | Some o =>
      if py_in o blank_values
      then match upd with Some v => Some v | None => Some o end
      else Some o
  | None => None
  end.

(** A merge that, where it changes a field, replaces a blank value by one
    that is not blank. *)
Definition fills_with_nonblank (before after : dict) : Prop :=
  forall k old v,
    before !! k = Some old -> after !! k = Some v -> v <> old ->
    py_in old blank_values = true /\ py_in v blank_values = false.

(** The inner loop of [update_missing_data] on one item of [new_data]. *)
Definition merge_field (entry : dict) (kv : string * pyval) : dict :=
  match entry !! kv.1 with
  | Some old => if py_in old blank_values then <[kv.1 := kv.2]> entry else entry
  | None => entry
  end.

(** [for k, v in new_data.items(): ...]; the items have distinct keys, so
    the order in which they are visited does not matter. *)
Definition merge_entry (entry new_data : dict) : dict :=
  foldl merge_field entry (map_to_list new_data).

(** [for entry in c['data']: ...]; [None] is a [KeyError] on ['ticker']. *)
Fixpoint merge_data (l : list dict) (new_data : dict) : option (list dict) :=
  match l with
  | [] => Some []
  | entry :: l' =>
      t ← entry !! "ticker";
      t' ← new_data !! "ticker";
      let entry' := if py_eq t t' then merge_entry entry new_data else entry in
      rest ← merge_data l' new_data;
      Some (entry' :: rest)
  end.

Definition with_data (c : cache_entry) (d : list dict) (md : list missing) : cache_entry :=
  {| timestamp := timestamp c; date := date c; tickers := tickers c;
     data := d; missing_data := md |}.

Definition _get_cache_key (date : string) (tks : list string) : string :=
  let s := String.concat "_" (sorted tks) in
  let data_str := date +:+ "_" +:+ s in
  MD5.md5_hexdigest data_str.

(** The file of a key, as a name inside the cache directory. *)
Definition _get_cache_path (key : string) : string := key +:+ ".pkl".

(** [save_data]: an exception of [_identify_missing_data] leaves before the
    file is opened. *)
Definition save_data (now : Z) (dir : directory) (date : string)
    (tickers : list string) (data : list dict) : option directory :=
  let cp := _get_cache_path (_get_cache_key date tickers) in
  md ← _identify_missing_data data;
  Some (<[cp := Pickled {| timestamp := now; date := date; tickers := tickers;
                           data := data; missing_data := md |}]> dir).

Definition get_data (now : Z) (dir : directory) (date : string)
    (tickers : list string) : (option (list dict) * list missing) * directory :=
  let cp := _get_cache_path (_get_cache_key date tickers) in
  match dir !! cp with
  | None => ((None, []), dir)
  | Some (Pickled c) =>
      if cache_expiry_days <=? age_days now (timestamp c)
      then ((None, []), delete cp dir)
      else ((Some (data c), missing_data c), dir)
  | Some Unreadable => ((None, []), dir)
  end.

(** [update_missing_data]: every exception is caught and logged, and the
    file is rewritten only when none occurred before [pickle.dump]. *)
Definition update_missing_data (dir : directory) (date : string)
    (tickers : list string) (new_data : dict) : directory :=
  let cp := _get_cache_path (_get_cache_key date tickers) in
  match dir !! cp with
  | Some (Pickled c) =>
      match merge_data (data c) new_data with
      | Some d' =>
          match _identify_missing_data d' with
          | Some md => <[cp := Pickled (with_data c d' md)]> dir
          | None => dir
          end
      | None => dir
      end
  | _ => dir
  end.

(** The files that [clear_expired] removes. *)
Definition removable (now : Z) (entry : string * file) : bool :=
  endswith ".pkl" entry.1 &&
  match entry.2 with
  | Pickled c => cache_expiry_days <=? age_days now (timestamp c)
  | Unreadable => true
  end.

(** One turn of the loop of [clear_expired] over [os.listdir]. *)
Definition sweep_file (now : Z) (dir : directory) (entry : string * file) : directory :=
  if endswith ".pkl" entry.1 then
    match entry.2 with
    | Pickled c =>
        if cache_expiry_days <=? age_days now (timestamp c)
        then delete entry.1 dir else dir
    | Unreadable => delete entry.1 dir
    end
  else dir.

Definition clear_expired (now : Z) (dir : directory) : directory :=
  foldl (sweep_file now) dir (map_to_list dir).

End Cache.

(** ** Pool invariant *)

Module PoolInvariant.

Import Proxy.

(** The current proxy, when one is set, is one of the pool. *)
Definition current_in_pool (pm : ProxyManager) : Prop :=
  forall c, current_proxy pm = Some c -> c ∈ proxies pm.

End PoolInvariant.

(** ** Sample data *)

Module Samples.

(** The binary64 numbers [0.25], [0.5] and [0.75]. *)
Definition f_0_25 : float := S754_finite false 4503599627370496 (-54).
Definition f_0_5 : float := S754_finite false 4503599627370496 (-53).
Definition f_0_75 : float := S754_finite false 6755399441055744 (-53).

(** Three expiries, listed out of order, with their volatilities. *)
Definition days3 : list Z := [30; 7; 45].
Definition ivs3 : list float := [f_0_5; f_0_75; f_0_25].

(** Pools of two proxies, of one proxy, and a list that repeats a proxy. *)
Definition proxy_a : Proxy.proxy :=
  {| Proxy.http := "http://10.0.0.1:8080"; Proxy.https := "http://10.0.0.1:8080" |}.
Definition proxy_b : Proxy.proxy :=
  {| Proxy.http := "http://10.0.0.2:3128"; Proxy.https := "http://10.0.0.2:3128" |}.

Definition pool2 : Proxy.ProxyManager :=
  {| Proxy.proxies := [proxy_a; proxy_b];
     Proxy.current_proxy := Some proxy_a;
     Proxy.proxy_enabled := true |}.

Definition pool1 : Proxy.ProxyManager :=
  {| Proxy.proxies := [proxy_a];
     Proxy.current_proxy := Some proxy_a;
     Proxy.proxy_enabled := true |}.

Definition pool_repeated : Proxy.ProxyManager :=
  {| Proxy.proxies := [proxy_a; proxy_a];
     Proxy.current_proxy := Some proxy_a;
     Proxy.proxy_enabled := true |}.

(** A provider that lists two expiries and whose chain request for the
    first of them always fails; chains are numbered, the analysis counts
    the chains it was given. *)
Definition exp1 : string := "2025-01-17".
Definition exp2 : string := "2025-02-21".

Definition two_expiries : Fetch.trace -> string -> option (list string) :=
  fun _ _ => Some [exp1; exp2].

Definition first_expiry_down : Fetch.trace -> string -> option nat :=
  fun _ e => if String.eqb e exp1 then None else Some 1%nat.

Definition count_chains (s : string) (oc : list (string * nat)) : Fetch.M (Fetch.reply nat) :=
  Fetch.ret (Fetch.Data (length oc)).

Definition recommend_first_down : string -> Fetch.M (option (Fetch.reply nat)) :=
  Fetch.compute_recommendation nat nat two_expiries first_expiry_down
    (fun s => s) (fun l => l) count_chains.

(** A scan date, its tickers in two orders, and a cache directory whose
    file for them cannot be read. *)
Definition scan_date : string := "2025-01-17".
Definition tickers_ma : list string := ["MSFT"; "AAPL"].
Definition tickers_am : list string := ["AAPL"; "MSFT"].

Definition scan_path : string :=
  Cache._get_cache_path (Cache._get_cache_key scan_date tickers_ma).

Definition corrupt_dir : gmap string Cache.file :=
  {[ scan_path := Cache.Unreadable ]}.

(** A directory whose entry for the scan was written at time 0, and a
    clock reading eight days later. *)
Definition old_entry : Cache.cache_entry :=
  {| Cache.timestamp := 0; Cache.date := scan_date;
     Cache.tickers := tickers_ma; Cache.data := [];
     Cache.missing_data := [] |}.

Definition stale_dir : gmap string Cache.file :=
  {[ scan_path := Cache.Pickled old_entry ]}.

Definition eight_days : Z := 8 * Cache.microseconds_per_day.

(** A stored result with blank fields and a later result for the same
    ticker. *)
Definition stored_result : gmap string Cache.pyval :=
  {[ "ticker" := Cache.VStr "AAPL";
     "market_cap" := Cache.VInt 0;
     "avg_volume" := Cache.VBool false;
     "expected_move" := Cache.VStr "N/A";
     "term_structure" := Cache.VFloat f_0_5;
     "current_iv" := Cache.VNone ]}.

Definition later_result : gmap string Cache.pyval :=
  {[ "ticker" := Cache.VStr "AAPL";
     "market_cap" := Cache.VNone;
     "avg_volume" := Cache.VBool true;
     "expected_move" := Cache.VStr "4.2%";
     "term_structure" := Cache.VFloat f_0_25;
     "current_iv" := Cache.VNone ]}.

Definition partial_entry : Cache.cache_entry :=
  {| Cache.timestamp := 0; Cache.date := scan_date;
     Cache.tickers := tickers_ma; Cache.data := [stored_result];
     Cache.missing_data := [] |}.

Definition partial_dir : gmap string Cache.file :=
  {[ scan_path := Cache.Pickled partial_entry ]}.

End Samples.

(** ** Reading the fetched chains and counting provider calls *)

Module FetchLog.

Import Fetch.

(** [oc[e]] *)
Fixpoint dict_get {V : Type} (oc : list (string * V)) (e : string) : option V :=
  match oc with
  | [] => None
  | (e', c) :: oc' => if String.eqb e' e then Some c else dict_get oc' e
  end.

Definition is_chain (ev : event) : bool :=
  match ev with EvChain _ => true | _ => false end.

Definition is_rotate (ev : event) : bool :=
  match ev with EvRotate => true | _ => false end.

Definition is_options (ev : event) : bool :=
  match ev with EvOptions _ => true | _ => false end.

Fixpoint count_events (P : event -> bool) (tr : trace) : nat :=
  match tr with
  | [] => O
  | ev :: tr' => (if P ev then 1 else 0) + count_events P tr'
  end.

End FetchLog.

(** ** Last close price ([OptionsAnalyzer.get_current_price]) *)

Module Price.

Import Fetch.

Inductive call : Type :=
  | History
  | Rotate.

(** A price [DataFrame] as far as it is read here: the number of rows and
    the columns by name. *)
Record frame : Type := Build_frame {
  n_rows : nat;
  columns : gmap string (list float)
}.

(** [td.empty]: no rows or no columns. *)
Definition frame_empty (td : frame) : bool :=
  (n_rows td =? 0)%nat || (size (columns td) =? 0)%nat.

(** [td[name].iloc[-1]]; an empty column raises. *)
Definition last_of (td : frame) (name : string) : outcome float :=
  match columns td !! name ≫= last with
  | Some x => Ok x
  | None => Raised "IndexError"
  end.

(** The body of the [try] once [ticker.history(period='1d')] has answered. *)
Definition read_close (td : frame) : outcome float :=
  if frame_empty td then Raised "No price data for 1d."
  else if bool_decide (is_Some (columns td !! "Close")) then last_of td "Close"
  else if bool_decide (is_Some (columns td !! "Adj Close")) then last_of td "Adj Close"
  else Raised "No Close or Adj Close data found.".

Section WithHistory.

(** [ticker.history(period='1d')], which may depend on the calls made so
    far; [None] is a raised exception. *)
Variable history : list call -> option frame.

Definition one_read (log : list call) : outcome float :=
  match history log with
  | Some td => read_close td
  | None => Raised "history"
  end.

(** [for attempt in range(3)]; [Ok None] is falling off the loop. *)
Fixpoint price_loop (todo : list nat) (log : list call)
    : outcome (option float) * list call :=
  match todo with
  | [] => (Ok None, log)
  | attempt :: todo' =>
      match one_read log with
      | Ok x => (Ok (Some x), History :: log)
      | Raised msg =>
          if (attempt <? 2)%nat then price_loop todo' (Rotate :: History :: log)
          else (Raised ("Cannot get price: " +:+ msg), History :: log)
      end
  end.

Definition get_current_price (log : list call)
    : outcome (option float) * list call :=
  price_loop (seq 0 3) log.

End WithHistory.

End Price.

(** ** Earnings calendar ([EarningsCalendarFetcher]) *)

Module Calendar.

Inductive call : Type :=
  | Post (date : string)
  | Rotate.

(** A table row of the reply: whether it carries a company name, its ticker
    ([None] when reading it raises), and the tooltip of its timing mark. *)
Record row : Type := Build_row {
  has_company : bool;
  row_ticker : option string;
  tooltip : option string
}.

Definition timing_of (tip : option string) : string :=
  match tip with
  | Some t =>
      if String.eqb t "Before market open" then "Pre Market"
      else if String.eqb t "After market close" then "Post Market"
      else "During Market"
  | None => "During Market"
  end.

(** The loop over the rows, on the timing dictionary and the result list. *)
Fixpoint read_rows (rows : list row) (times : gmap string string)
    (ret : list string) : gmap string string * list string :=
  match rows with
  | [] => (times, ret)
  | r :: rows' =>
      if negb (has_company r) then read_rows rows' times ret
      else
        match row_ticker r with
        | Some t =>
            read_rows rows' (<[t := timing_of (tooltip r)]> times) (ret ++ [t])
        | None => read_rows rows' times ret
        end
  end.

Section WithCalendar.

(** The request and the parsing of its reply into rows; [None] is a raised
    exception. *)
Variable calendar : list call -> string -> option (list row).

(** [while attempt < max_retries]; the fuel counts the turns still
    allowed, which the counter bounds by three. *)
Fixpoint fetch_loop (fuel : nat) (attempt : nat) (date : string)
    (times : gmap string string) (ret : list string) (log : list call)
    : list string * gmap string string * list call :=
  match fuel with
  | O => (ret, times, log)
  | S fuel' =>
      if negb (attempt <? 3)%nat then (ret, times, log)
      else
        match calendar log date with
        | Some rows =>
            let '(times', ret') := read_rows rows ∅ ret in
            (ret', times', Post date :: log)
        | None =>
            let attempt' := S attempt in
            if (attempt' <? 3)%nat
            then fetch_loop fuel' attempt' date times ret (Rotate :: Post date :: log)
            else ([], times, Post date :: log)
        end
  end.

Definition fetch_earnings_data (date : string) (times : gmap string string)
    (log : list call) : list string * gmap string string * list call :=
  fetch_loop 3 0 date times [] log.

End WithCalendar.

(** [self.earnings_times.get(ticker, 'Unknown')] *)
Definition get_earnings_time (times : gmap string string) (ticker : string) : string :=
  match times !! ticker with Some t => t | None => "Unknown" end.

End Calendar.

(** ** Vocabulary for the retry loops *)

Module Retries.

(** The log after [k] failed requests, each followed by a rotation. *)
Fixpoint price_log_after (k : nat) (log : list Price.call) : list Price.call :=
  match k with
  | O => log
  | S k' => Price.Rotate :: Price.History :: price_log_after k' log
  end.

Fixpoint calendar_log_after (k : nat) (date : string) (log : list Calendar.call)
    : list Calendar.call :=
  match k with
  | O => log
  | S k' => Calendar.Rotate :: Calendar.Post date :: calendar_log_after k' date log
  end.

(** The tickers of the rows that carry a company name and a readable
    ticker, in the order of the rows. *)
Definition listed (rows : list Calendar.row) : list string :=
  omap (fun r => if Calendar.has_company r then Calendar.row_ticker r else None) rows.

Definition timing_labels : list string :=
  ["Pre Market"; "Post Market"; "During Market"].

End Retries.

(** ** Vocabulary for the cache *)

Module CacheInvariant.

Import Cache.

(** The entry of ['missing_data'] for a result with key ['ticker']. *)
Definition descriptor (d : dict) : missing :=
  {| m_ticker := get_or d "ticker" VNone;
     missing_fields := missing_fields_of d;
     m_earnings_time := get_or d "earnings_time" (VStr "Unknown") |}.

(** The results that [_identify_missing_data] reports. *)
Definition incomplete (l : list dict) : list dict :=
  filter (fun d => missing_fields_of d <> []) l.

(** A file whose list of missing fields is the one its results give. *)
Definition consistent (f : file) : Prop :=
  match f with
  | Pickled c => _identify_missing_data (data c) = Some (missing_data c)
  | Unreadable => True
  end.

Definition dir_consistent (dir : directory) : Prop :=
  forall p f, dir !! p = Some f -> consistent f.

End CacheInvariant.

(** ** Sorting by a comparison ([sorted], [list.sort])

    Python sorts stably; on a total order every stable sort gives the list
    that insertion from the right gives. *)

Module ListSort.

Section Insertion.

Context {A : Type}.
Variable le : A -> A -> bool.

Fixpoint insert (x : A) (l : list A) : list A :=
  match l with
  | [] => [x]
  | y :: l' => if le x y then x :: l else y :: insert x l'
  end.

Definition isort (l : list A) : list A := foldr insert [] l.

End Insertion.

(** Tuples compare by their first differing component. *)
Definition lex {A B : Type} (leA : A -> A -> bool) (leB : B -> B -> bool)
    (p q : A * B) : bool :=
  if leA p.1 q.1 then (if leA q.1 p.1 then leB p.2 q.2 else true) else false.

(** [False < True] *)
Definition bool_le (a b : bool) : bool := implb a b.

(** A comparison that is a total preorder. *)
Definition total_preorder {A : Type} (le : A -> A -> bool) : Prop :=
  (forall x y, le x y = true \/ le y x = true) /\
  (forall x y z, le x y = true -> le y z = true -> le x z = true).

End ListSort.

(** ** Expiry dates kept for the term structure ([OptionsAnalyzer.filter_dates])

    A date is its day number ([date.toordinal]); parsing and formatting
    ['%Y-%m-%d'] are inverse to each other on the dates the provider lists. *)

Module Dates.

(** [sdates[:i+1]] for the first [i] with [sdates[i] >= cutoff]; [None]
    when the loop ends without [break]. *)
Fixpoint through_cutoff (cutoff : Z) (sdates : list Z) : option (list Z) :=
  match sdates with
  | [] => None
  | d :: rest =>
      if cutoff <=? d then Some [d]
      else cons d <$> through_cutoff cutoff rest
  end.

Definition filter_dates (today : Z) (dates : list Z) : list Z :=
  let cutoff := today + 45 in
  let sdates := ListSort.isort Z.leb dates in
  match through_cutoff cutoff sdates with
  | Some (d0 :: d1 :: arr) =>
      if d0 =? today then d1 :: arr else d0 :: d1 :: arr
  | Some [d0] => [d0]
  | Some [] | None => sdates
  end.

End Dates.

(** ** Assembling, batching and ordering the results
    ([EnhancedEarningsScanner]) *)

Module Scanner.

Import Cache.

(** A dictionary display [{k1: v1, ...}] with distinct keys. *)
Definition py_dict (items : list (string * pyval)) : dict := list_to_map items.

Definition of_pynum (x : pynum) : pyval :=
  match x with
  | PyInt z => VInt z
  | PyFloat f => VFloat f
  end.

(** The dictionary [compute_recommendation] returns at lines 646-656;
    [fi_iv] is set to [None] at line 587 and never assigned again. *)
Definition recommendation_dict (avgv iv30_rv30 slope : pynum) (iv30 : float)
    (stpct : string) (up hv : float) : dict :=
  py_dict
    [ ("avg_volume", VBool (py_ge avgv (of_int 1500000)));
      ("avg_volume_value", of_pynum avgv);
      ("iv30_rv30", of_pynum iv30_rv30);
      ("term_slope", of_pynum slope);
      ("term_structure", VFloat iv30);
      ("expected_move", VStr stpct);
      ("underlying_price", VFloat up);
      ("historical_volatility", VFloat hv);
      ("current_iv", VNone) ].

(** [{"error": msg}] *)
Definition error_dict (msg : string) : dict := py_dict [("error", VStr msg)].

(** Truth value of a stored value. *)
Definition truthy (v : pyval) : bool :=
  match v with
  | VNone => false
  | VBool b => b
  | VInt z => negb (z =? 0)
  | VFloat f => negb (is_zero f)
  | VStr s => negb (String.eqb s "")
  end.

(** An integer that numpy can hold in a 64-bit integer, signed or not. *)
Definition fits_64_bits (z : Z) : bool := (- 2 ^ 63 <=? z) && (z <? 2 ^ 64).

(** What [v is not None and not np.isnan(v)] and the comparison read:
    [Some None] for [None], a number otherwise; [None] is the [TypeError]
    of [np.isnan] on a string or on an integer beyond 64 bits. *)
Definition number_of (v : pyval) : option (option pynum) :=
  match v with
  | VNone => Some None
  | VBool b => Some (Some (PyInt (if b then 1 else 0)))
  | VInt z => if fits_64_bits z then Some (Some (PyInt z)) else None
  | VFloat f => Some (Some (PyFloat f))
  | VStr _ => None
  end.

(** The second half of [analyze_stock], from the answer [od] of
    [compute_recommendation] on: [cp], [tv] and [hv] are the price, volume
    and volatility read from the history.  [market_cap] is what
    [getattr(st2, 'info', {}).get('marketCap', 0)] evaluates to, [None]
    when it raises: a [FinvizTicker] has no [info] and gives [0], the
    [info] of a yfinance ticker is fetched when it is read.  The result
    [None] is an exception, which the enclosing [try] turns into the
    return value [None]. *)
Definition analyze_result (ticker : string) (cp tv hv : pyval)
    (market_cap : option pyval) (earnings_time : string) (od : dict)
    : option dict :=
  match od !! "error" with
  | None =>
      avb ← od !! "avg_volume";
      r ← od !! "iv30_rv30";
      rn ← number_of r;
      s ← od !! "term_slope";
      sn ← number_of s;
      let rec := Score.score (truthy avb) rn sn in
      mc ← market_cap;
      Some (py_dict
        [ ("ticker", VStr ticker);
          ("current_price", cp);
          ("market_cap", mc);
          ("volume", tv);
          ("avg_volume", avb);
          ("avg_volume_value", get_or od "avg_volume_value" (VInt 0));
          ("earnings_time", VStr earnings_time);
          ("recommendation", VStr rec);
          ("expected_move", get_or od "expected_move" (VStr "N/A"));
          ("atr14", get_or od "atr14" (VInt 0));
          ("atr14_pct", get_or od "atr14_pct" (VInt 0));
          ("iv30_rv30", get_or od "iv30_rv30" (VInt 0));
          ("term_slope", get_or od "term_slope" (VInt 0));
          ("term_structure", get_or od "term_structure" (VInt 0));
          ("historical_volatility", hv);
          ("current_iv", get_or od "current_iv" VNone) ])
  | Some _ =>
      Some (py_dict
        [ ("ticker", VStr ticker);
          ("current_price", cp);
          ("market_cap", VInt 0);
          ("volume", tv);
          ("avg_volume", VBool false);
          ("avg_volume_value", VInt 0);
          ("earnings_time", VStr earnings_time);
          ("recommendation", VStr "Avoid");
          ("expected_move", VStr "N/A");
          ("atr14", VInt 0);
          ("atr14_pct", VInt 0);
          ("iv30_rv30", VInt 0);
          ("term_slope", VInt 0);
          ("term_structure", VInt 0);
          ("historical_volatility", hv);
          ("current_iv", VNone) ])
  end.

(** A number that is the integer literal [z] of the code or a float. *)
Definition int_or_float (z : Z) (x : pynum) : Prop :=
  x = PyInt z \/ exists f, x = PyFloat f.

(** An answer of [compute_recommendation]: an error, or the indicators,
    where the average volume is [0] or a float (lines 639-642), the ratio
    is [9999] or a float (lines 633-638) and the slope is [0] or a float
    (lines 622-626). *)
Definition answer (od : dict) : Prop :=
  (exists msg, od = error_dict msg) \/
  (exists avgv r s iv30 stpct up hv,
     int_or_float 0 avgv /\ int_or_float 9999 r /\ int_or_float 0 s /\
     od = recommendation_dict avgv r s iv30 stpct up hv).

(** A result that [analyze_stock] builds from an answer. *)
Definition analyzed (d : dict) : Prop :=
  exists ticker cp tv hv market_cap earnings_time od,
    answer od /\
    analyze_result ticker cp tv hv market_cap earnings_time od = Some d.

(** A result with a ticker and without current volatility. *)
Definition lacks_iv (d : dict) : Prop :=
  is_Some (d !! "ticker") /\ d !! "current_iv" = Some VNone.

(** The ticker a missing-data entry names. *)
Definition ticker_of (d : dict) : pyval := get_or d "ticker" VNone.

(** What [scan_earnings_stocks] does with the answer of the cache. *)
Inductive plan : Type :=
  | Rescan
  | Serve (results : list dict)
  | Refill (results : list dict) (missing_tickers : list pyval).

Definition plan_of (cached_data : option (list dict)) (missing_data : list missing)
    : plan :=
  match cached_data with
  | Some (d :: l) =>
      match missing_data with
      | [] => Serve (d :: l)
      | _ :: _ => Refill (d :: l) (m_ticker <$> missing_data)
      end
  | Some [] | None => Rescan
  end.

(** [range(0, total, step)] for a positive [step]. *)
Definition range_step (total step : nat) : list nat :=
  (fun k => k * step)%nat <$> seq 0 ((total + step - 1) / step).

(** [l[i:j]] for [i <= j] *)
Definition slice {A : Type} (l : list A) (i j : nat) : list A :=
  take (j - i) (drop i l).

(** [[l[i:i+size] for i in range(0, len(l), size)]] *)
Definition batches {A : Type} (size : nat) (l : list A) : list (list A) :=
  (fun i => slice l i (i + size)) <$> range_step (length l) size.

Definition batch_size : nat := 10.

(** [max_workers=min(5, len(b))] *)
Definition max_workers {A : Type} (b : list A) : nat := (5 `min` length b)%nat.

(** The key of the final sort. *)
Definition sort_key : Type := bool * bool * string * string.

Definition key_le : sort_key -> sort_key -> bool :=
  ListSort.lex (ListSort.lex (ListSort.lex ListSort.bool_le ListSort.bool_le)
                  String.leb) String.leb.

Definition str_item (x : dict) (k : string) : option string :=
  match x !! k with
  | Some (VStr s) => Some s
  | _ => None
  end.

(** The [lambda] of the sort, on results whose three fields are strings
    (as [analyze_stock] writes them); [None] otherwise. *)
Definition key_of (x : dict) : option sort_key :=
  rec ← str_item x "recommendation";
  time ← str_item x "earnings_time";
  ticker ← str_item x "ticker";
  Some (negb (String.eqb rec "Recommended"), String.eqb time "Unknown",
        time, ticker).

(** [x] may stand before [y] in the sorted list. *)
Definition ranks_before (x y : dict) : Prop :=
  exists kx ky, key_of x = Some kx /\ key_of y = Some ky /\ key_le kx ky = true.

(** [recommended.sort(key=...)]: the keys are computed first, then the
    results are ordered by them. *)
Definition sort_results (l : list dict) : option (list dict) :=
  keys ← mapM key_of l;
  Some (snd <$> ListSort.isort (fun p q => key_le p.1 q.1) (zip keys l)).

End Scanner.

(** ** Option data from Finviz ([FinvizTicker]) *)

Module Finviz.

Import Cache.

(** The fields of a [FinvizTicker] that [options] reads and writes. *)
Record FinvizTicker : Type := Build_FinvizTicker {
  symbol : string;
  _expirations : option (list string)
}.

(** A reply to the request for the expiries. *)
Inductive expiries_reply : Type :=
  | Failed
  | Null
  | Expiries (l : list string).

(** The rows of the two data frames of an option chain. *)
Record OptionChain : Type := Build_OptionChain {
  calls : list dict;
  puts : list dict
}.

Section WithSession.

(** What the session answers to the request with a given number for the
    expiries of a symbol: [get], [raise_for_status] or [json] raises, or
    the body decodes to [null], or to a list of strings. *)
Variable expiries_json : nat -> string -> expiries_reply.

(** [_fetch_expirations], with the number of requests made so far;
    [None] is the Python value [None]. *)
Definition _fetch_expirations (requests : nat) (ticker : string)
    : option (list string) * nat :=
  (match expiries_json requests ticker with
   | Expiries l => Some l
   | Null => None
   | Failed => Some []
   end, S requests).

(** The property [options]. *)
Definition options (t : FinvizTicker) (requests : nat)
    : option (list string) * (FinvizTicker * nat) :=
  match _expirations t with
  | None =>
      let '(r, n) := _fetch_expirations requests (symbol t) in
      (r, ({| symbol := symbol t; _expirations := r |}, n))
  | Some l => (Some l, (t, requests))
  end.

End WithSession.

Definition to_row (opt : dict) : dict :=
  {[ "strike" := get_or opt "strike" VNone;
     "lastPrice" := get_or opt "lastClose" (VFloat (S754_zero false));
     "bid" := get_or opt "bidPrice" (VFloat (S754_zero false));
     "ask" := get_or opt "askPrice" (VFloat (S754_zero false));
     "change" := get_or opt "lastChange" (VFloat (S754_zero false));
     "percentChange" := VNone;
     "volume" := get_or opt "lastVolume" (VInt 0);
     "openInterest" := get_or opt "openInterest" (VInt 0);
     "impliedVolatility" := get_or opt "iv" (VFloat (S754_zero false)) ]}.

(** [opt.get("type") == "call"] *)
Definition is_call (opt : dict) : bool :=
  py_eq (get_or opt "type" VNone) (VStr "call").

(** One turn of the loop of [_transform_to_dataframes]. *)
Definition add_row (acc : OptionChain) (opt : dict) : OptionChain :=
  if is_call opt
  then {| calls := calls acc ++ [to_row opt]; puts := puts acc |}
  else {| calls := calls acc; puts := puts acc ++ [to_row opt] |}.

Definition _transform_to_dataframes (options_json : list dict) : OptionChain :=
  foldl add_row {| calls := []; puts := [] |} options_json.

(** The decoded reply to the request for a chain: [None] when the request
    raises (the fetch then returns [{}]), otherwise the value under
    ['options'] if the reply has that key. *)
Definition chain_reply : Type := option (option (list dict)).

Definition option_chain (raw_data : chain_reply) : OptionChain :=
  match raw_data with
  | Some (Some options_json) => _transform_to_dataframes options_json
  | Some None | None => {| calls := []; puts := [] |}
  end.

(** [calls.empty or puts.empty], for which [compute_recommendation] skips
    the expiry. *)
Definition skipped (chain : OptionChain) : bool :=
  match calls chain, puts chain with
  | _ :: _, _ :: _ => false
  | _, _ => true
  end.

End Finviz.

(** ** The filters of the result table ([EarningsTkApp.apply_filters]) *)

Module Table.

Import Cache.

(** [time_val != "All" and et != time_val] *)
Definition rejected (choice : string) (v : pyval) : bool :=
  negb (String.eqb choice "All") && negb (py_eq v (VStr choice)).

Fixpoint apply_filters (time_val rec_val : string) (data : list dict) : list dict :=
  match data with
  | [] => []
  | row :: rest =>
      let et := get_or row "earnings_time" (VStr "Unknown") in
      if rejected time_val et then apply_filters time_val rec_val rest
      else
        let rv := get_or row "recommendation" (VStr "Avoid") in
        if rejected rec_val rv then apply_filters time_val rec_val rest
        else row :: apply_filters time_val rec_val rest
  end.

(** A row that both filters let through. *)
Definition shown (time_val rec_val : string) (row : dict) : Prop :=
  (time_val = "All" \/
   py_eq (get_or row "earnings_time" (VStr "Unknown")) (VStr time_val) = true) /\
  (rec_val = "All" \/
   py_eq (get_or row "recommendation" (VStr "Avoid")) (VStr rec_val) = true).

End Table.

(** ** More sample data *)

Module Fixtures.

(** A calendar reply with a row for AAPL before the open, a row without
    company name, and a row for MSFT without timing mark. *)
Definition calendar_rows : list Calendar.row :=
  [ {| Calendar.has_company := true; Calendar.row_ticker := Some "AAPL";
       Calendar.tooltip := Some "Before market open" |};
    {| Calendar.has_company := false; Calendar.row_ticker := Some "IGNORED";
       Calendar.tooltip := None |};
    {| Calendar.has_company := true; Calendar.row_ticker := Some "MSFT";
       Calendar.tooltip := None |} ].

Definition calendar_ok : list Calendar.call -> string -> option (list Calendar.row) :=
  fun _ _ => Some calendar_rows.

(** Two results as [analyze_stock] orders them before saving. *)
Definition avoided_result : gmap string Cache.pyval :=
  {[ "ticker" := Cache.VStr "MSFT";
     "earnings_time" := Cache.VStr "Unknown";
     "recommendation" := Cache.VStr "Avoid" ]}.

Definition recommended_result : gmap string Cache.pyval :=
  {[ "ticker" := Cache.VStr "AAPL";
     "earnings_time" := Cache.VStr "Pre Market";
     "recommendation" := Cache.VStr "Recommended" ]}.

End Fixtures.

(** * Properties *)

(** ** Scoring rule *)

Section ScoreFacts.

Import Score.

Lemma SFleb_nan_r (c : float) : SFleb c nan = false.
Proof. destruct c; reflexivity. Qed.

Lemma SFleb_nan_l (c : float) : SFleb nan c = false.
Proof. reflexivity. Qed.

Lemma ivcheck_iff (r : option pynum) : ivcheck r = true <-> iv_passes r.
Proof.
  unfold iv_passes. split.
  - destruct r as [x|]; simpl; [|discriminate].
    destruct (np_isnan x); simpl; [discriminate|].
    intros H. exists x. split; [reflexivity | exact H].
  - intros (x & -> & Hx). simpl.
    destruct x as [z|f]; simpl in *; [exact Hx|].
    destruct f; simpl; exact Hx.
Qed.

Lemma slopecheck_iff (s : option pynum) : slopecheck s = true <-> slope_passes s.
Proof.
  unfold slope_passes. split.
  - destruct s as [x|]; simpl; [|discriminate].
    destruct (np_isnan x); simpl; [discriminate|].
    intros H. exists x. split; [reflexivity | exact H].
  - intros (x & -> & Hx). simpl.
    destruct x as [z|f]; simpl in *; [exact Hx|].
    destruct f; simpl; exact Hx.
Qed.

Lemma ivcheck_false_iff (r : option pynum) : ivcheck r = false <-> ~ iv_passes r.
Proof.
  rewrite <- ivcheck_iff. destruct (ivcheck r); split; congruence.
Qed.

Lemma slopecheck_false_iff (s : option pynum) :
  slopecheck s = false <-> ~ slope_passes s.
Proof.
  rewrite <- slopecheck_iff. destruct (slopecheck s); split; congruence.
Qed.

Lemma undefined_ivcheck (r : option pynum) : undefined r -> ivcheck r = false.
Proof. intros [-> | ->]; reflexivity. Qed.

Lemma undefined_slopecheck (s : option pynum) : undefined s -> slopecheck s = false.
Proof. intros [-> | ->]; reflexivity. Qed.

(** C1. [score] is ["Recommended"] exactly when the average volume is
    sufficient, the ratio is at least 1.25 and the slope is at most
    -0.00406; it is ["Consider"] exactly when the slope passes and exactly
    one of the two other tests does; it is ["Avoid"] in every other case;
    and a ratio or slope that is [None] or NaN fails its test. *)
Theorem score_thresholds (avb : bool) (r s : option pynum) :
  (score avb r s = "Recommended" <->
     avb = true /\ iv_passes r /\ slope_passes s) /\
  (score avb r s = "Consider" <->
     slope_passes s /\
     ((avb = true /\ ~ iv_passes r) \/ (avb = false /\ iv_passes r))) /\
  (score avb r s = "Avoid" <->
     ~ (avb = true /\ iv_passes r /\ slope_passes s) /\
     ~ (slope_passes s /\
        ((avb = true /\ ~ iv_passes r) \/ (avb = false /\ iv_passes r)))) /\
  (undefined r -> ivcheck r = false /\ ~ iv_passes r /\
                  score avb r s <> "Recommended") /\
  (undefined s -> slopecheck s = false /\ ~ slope_passes s /\
                  score avb r s = "Avoid").
Proof.
  pose proof (ivcheck_iff r) as Hi. pose proof (slopecheck_iff s) as Hs.
  assert (Hur : undefined r -> ivcheck r = false) by apply undefined_ivcheck.
  assert (Hus : undefined s -> slopecheck s = false) by apply undefined_slopecheck.
  unfold score.
  destruct avb, (ivcheck r), (slopecheck s); simpl;
    repeat split; intros; try discriminate; try tauto; try intuition congruence.
Qed.

(** Both thresholds are inclusive; the sentinel ratio 9999 passes; a NaN
    ratio with sufficient volume and a passing slope gives ["Consider"]. *)
Example score_at_thresholds :
  score true (Some (PyFloat lit_1_25)) (Some (PyFloat lit_m0_00406)) = "Recommended".
Proof. reflexivity. Qed.

Example score_sentinel_ratio :
  score true (Some (PyInt 9999)) (Some (PyFloat lit_m0_00406)) = "Recommended".
Proof. vm_compute. reflexivity. Qed.

Example score_nan_ratio :
  score true (Some (PyFloat nan)) (Some (PyFloat lit_m0_00406)) = "Consider".
Proof. reflexivity. Qed.

Example score_flat_slope :
  score true (Some (PyInt 9999)) (Some (PyInt 0)) = "Avoid".
Proof. vm_compute. reflexivity. Qed.

End ScoreFacts.

(** ** Term structure *)

Section TermStructureFacts.

Import TermStructure.

Lemma insert_index_perm (da : list Z) (i : nat) (idx : list nat) :
  insert_index da i idx ≡ₚ i :: idx.
Proof.
  induction idx as [|j idx IH]; simpl; [reflexivity|].
  destruct (key da i <=? key da j); [reflexivity|].
  rewrite IH. apply Permutation_swap.
Qed.

Lemma argsort_perm (da : list Z) : argsort da ≡ₚ seq 0 (length da).
Proof.
  unfold argsort. induction (seq 0 (length da)) as [|i l IH]; simpl.
  - reflexivity.
  - rewrite insert_index_perm, IH. reflexivity.
Qed.

Lemma insert_index_sorted (da : list Z) (i : nat) (idx : list nat) :
  StronglySorted (day_le da) idx ->
  StronglySorted (day_le da) (insert_index da i idx).
Proof.
  induction 1 as [|j idx Hs IH Hj]; simpl.
  - repeat constructor.
  - destruct (Z.leb_spec (key da i) (key da j)) as [Hle|Hlt].
    + constructor; [constructor; assumption|].
      constructor; [exact Hle|].
      eapply Forall_impl; [exact Hj|]. unfold day_le. intros k Hk. lia.
    + constructor; [exact IH|].
      rewrite insert_index_perm. constructor; [unfold day_le; lia|exact Hj].
Qed.

Lemma argsort_sorted (da : list Z) : StronglySorted (day_le da) (argsort da).
Proof.
  unfold argsort. induction (seq 0 (length da)) as [|i l IH]; simpl.
  - constructor.
  - apply insert_index_sorted, IH.
Qed.

Lemma argsort_in_range (da : list Z) :
  Forall (fun i => (i < length da)%nat) (argsort da).
Proof.
  rewrite argsort_perm. apply Forall_forall. intros i Hi.
  apply elem_of_seq in Hi. lia.
Qed.

Lemma take_idx_in_range {A : Type} (a : list A) (d : A) (idx : list nat) :
  Forall (fun i => (i < length a)%nat) idx ->
  take_idx a idx = Some ((fun i => nth i a d) <$> idx).
Proof.
  unfold take_idx. induction 1 as [|i idx Hi _ IH]; [reflexivity|].
  cbn. apply lookup_lt_is_Some in Hi as [x Hx].
  rewrite Hx. cbn. rewrite IH. cbn.
  rewrite (nth_lookup_Some _ _ _ _ Hx). reflexivity.
Qed.

Lemma try_build_eq interp1d (days : list Z) (ivs : list float) :
  length ivs = length days ->
  try_build interp1d days ivs =
    f ← interp1d (sorted_days days) (sorted_ivs days ivs);
    Some (tspline (sorted_days days) (sorted_ivs days ivs) f).
Proof.
  intros Hlen. unfold try_build.
  rewrite (take_idx_in_range days 0) by apply argsort_in_range.
  rewrite (take_idx_in_range ivs nan)
    by (rewrite Hlen; apply argsort_in_range).
  reflexivity.
Qed.

Lemma argsort_nonempty (days : list Z) : days <> [] -> argsort days <> [].
Proof.
  intros Hne Hnil. pose proof (argsort_perm days) as Hp.
  rewrite Hnil in Hp. apply Permutation_length in Hp.
  rewrite length_seq in Hp. destruct days; [congruence | discriminate].
Qed.

Lemma sorted_last_max (da : list Z) (l : list nat) (il : nat) :
  StronglySorted (day_le da) l -> last l = Some il ->
  Forall (fun j => day_le da j il) l.
Proof.
  induction 1 as [|j l Hs IH Hj]; intros Hl; [constructor|].
  destruct l as [|k l'].
  - injection Hl as <-. repeat constructor. unfold day_le. lia.
  - rewrite last_cons_cons in Hl. constructor; [|exact (IH Hl)].
    apply last_Some_elem_of in Hl.
    rewrite Forall_forall in Hj. exact (Hj il Hl).
Qed.

(** Every input day is the key of an index that [argsort] returns. *)
Lemma day_has_index (days : list Z) (d : Z) :
  d ∈ days -> exists j, j ∈ argsort days /\ key days j = d.
Proof.
  intros Hd. apply list_elem_of_lookup in Hd as [j Hj].
  exists j. split.
  - rewrite argsort_perm. apply elem_of_seq.
    apply lookup_lt_Some in Hj. lia.
  - unfold key. apply nth_lookup_Some. exact Hj.
Qed.

Lemma index_lookups (days : list Z) (ivs : list float) (i : nat) :
  length ivs = length days -> i ∈ argsort days ->
  days !! i = Some (key days i) /\ ivs !! i = Some (nth i ivs nan).
Proof.
  intros Hlen Hi. rewrite argsort_perm in Hi. apply elem_of_seq in Hi.
  split.
  - destruct (nth_lookup_or_length days i 0) as [H|H]; [exact H | lia].
  - destruct (nth_lookup_or_length ivs i nan) as [H|H]; [exact H | lia].
Qed.

(** C2. On non-empty day and volatility lists of equal length for which the
    interpolant could be built, the term structure evaluated strictly below
    every input day returns the volatility listed with a smallest day, and
    evaluated strictly above every input day returns the volatility listed
    with a largest day. *)
Theorem term_structure_clamps
    (interp1d : list Z -> list float -> option (Z -> float))
    (days : list Z) (ivs : list float) (dte : Z) :
  days <> [] ->
  length ivs = length days ->
  is_Some (try_build interp1d days ivs) ->
  (Forall (fun d => dte < d) days ->
   exists i d v,
     days !! i = Some d /\ ivs !! i = Some v /\
     Forall (fun d' => d <= d') days /\
     build_term_structure interp1d days ivs dte = Some v) /\
  (Forall (fun d => d < dte) days ->
   exists i d v,
     days !! i = Some d /\ ivs !! i = Some v /\
     Forall (fun d' => d' <= d) days /\
     build_term_structure interp1d days ivs dte = Some v).
Proof.
  intros Hne Hlen [ts Hts].
  unfold build_term_structure. rewrite Hts.
  rewrite (try_build_eq interp1d days ivs Hlen) in Hts.
  destruct (interp1d (sorted_days days) (sorted_ivs days ivs)) as [f|];
    [|discriminate].
  cbn in Hts. injection Hts as <-.
  pose proof (argsort_sorted days) as Hsorted.
  pose proof (argsort_nonempty days Hne) as Hidx.
  unfold tspline, sorted_days, sorted_ivs.
  destruct (argsort days) as [|i0 rest] eqn:Eidx; [congruence|].
  assert (Hi0 : i0 ∈ argsort days) by (rewrite Eidx; left).
  split.
  - intros Hbelow.
    destruct (index_lookups days ivs i0 Hlen Hi0) as [Hd Hv].
    exists i0, (key days i0), (nth i0 ivs nan).
    split; [exact Hd|]. split; [exact Hv|]. split.
    + apply Forall_forall. intros d' Hd'.
      destruct (day_has_index days d' Hd') as (j & Hj & <-).
      rewrite Eidx in Hj. inversion Hsorted as [|? ? _ Hall]; subst.
      apply elem_of_cons in Hj as [->|Hj]; [lia|].
      rewrite Forall_forall in Hall. exact (Hall j Hj).
    + cbn. rewrite Forall_forall in Hbelow.
      assert (dte < key days i0) as Hlt
        by (apply Hbelow; eapply list_elem_of_lookup_2; exact Hd).
      apply Z.ltb_lt in Hlt. rewrite Hlt. reflexivity.
  - intros Habove.
    destruct (last (i0 :: rest)) as [il|] eqn:El;
      [|apply last_None in El; discriminate].
    assert (Hil : il ∈ argsort days)
      by (rewrite Eidx; eapply last_Some_elem_of; exact El).
    destruct (index_lookups days ivs il Hlen Hil) as [Hd Hv].
    exists il, (key days il), (nth il ivs nan).
    split; [exact Hd|]. split; [exact Hv|]. split.
    + apply Forall_forall. intros d' Hd'.
      destruct (day_has_index days d' Hd') as (j & Hj & <-).
      rewrite Eidx in Hj.
      pose proof (sorted_last_max days _ il Hsorted El) as Hall.
      rewrite Forall_forall in Hall. exact (Hall j Hj).
    + rewrite Forall_forall in Habove.
      assert (Hin0 : key days i0 ∈ days).
      { destruct (index_lookups days ivs i0 Hlen Hi0) as [H0 _].
        eapply list_elem_of_lookup_2; exact H0. }
      assert (Hinl : key days il ∈ days)
        by (eapply list_elem_of_lookup_2; exact Hd).
      pose proof (Habove _ Hin0) as H0. pose proof (Habove _ Hinl) as Hl.
      cbn [fmap list_fmap head mbind option_bind].
      assert (Hge : (dte <? key days i0) = false) by (apply Z.ltb_ge; lia).
      rewrite Hge.
      change (key days i0 :: (key days <$> rest))
        with (key days <$> (i0 :: rest)).
      change (nth i0 ivs nan :: ((fun i => nth i ivs nan) <$> rest))
        with ((fun i => nth i ivs nan) <$> (i0 :: rest)).
      rewrite !fmap_last, El. cbn.
      apply Z.ltb_lt in Hl. rewrite Hl. reflexivity.
Qed.

Lemma term_structure_clamps_witness :
  (exists i d v,
     Samples.days3 !! i = Some d /\ Samples.ivs3 !! i = Some v /\
     Forall (fun d' => d <= d') Samples.days3 /\
     build_term_structure linear_interp1d Samples.days3 Samples.ivs3 3 = Some v) /\
  (exists i d v,
     Samples.days3 !! i = Some d /\ Samples.ivs3 !! i = Some v /\
     Forall (fun d' => d' <= d) Samples.days3 /\
     build_term_structure linear_interp1d Samples.days3 Samples.ivs3 60 = Some v).
Proof.
  split.
  - refine (proj1 (term_structure_clamps linear_interp1d
                     Samples.days3 Samples.ivs3 3 _ _ _) _).
    + discriminate.
    + reflexivity.
    + eexists. reflexivity.
    + repeat constructor.
  - refine (proj2 (term_structure_clamps linear_interp1d
                     Samples.days3 Samples.ivs3 60 _ _ _) _).
    + discriminate.
    + reflexivity.
    + eexists. reflexivity.
    + repeat constructor.
Defined.

Example term_structure_below :
  build_term_structure linear_interp1d Samples.days3 Samples.ivs3 3
  = Some Samples.f_0_75.
Proof. vm_compute. reflexivity. Qed.

Example term_structure_above :
  build_term_structure linear_interp1d Samples.days3 Samples.ivs3 60
  = Some Samples.f_0_25.
Proof. vm_compute. reflexivity. Qed.

(** When the constructor raises, every evaluation is NaN. *)
Example term_structure_failed (days : list Z) (ivs : list float) (dte : Z) :
  build_term_structure (fun _ _ => None) days ivs dte = Some nan.
Proof.
  unfold build_term_structure, try_build.
  destruct (take_idx days (argsort days)); cbn; [|reflexivity].
  destruct (take_idx ivs (argsort days)); reflexivity.
Qed.

End TermStructureFacts.

(** ** Binary64 division never invents a NaN *)

Section RoundingFacts.

Lemma shr_1_nonneg (mrs : shr_record) : 0 <= shr_m mrs -> 0 <= shr_m (shr_1 mrs).
Proof.
  destruct mrs as [m r s]. simpl.
  destruct m as [|[p|p|]|p]; simpl; lia.
Qed.

Lemma iter_shr_1_nonneg (p : positive) (mrs : shr_record) :
  0 <= shr_m mrs -> 0 <= shr_m (SpecFloat.iter_pos shr_1 p mrs).
Proof.
  revert mrs. induction p as [p IH|p IH|]; intros mrs H; simpl.
  - apply IH, IH, shr_1_nonneg, H.
  - apply IH, IH, H.
  - apply shr_1_nonneg, H.
Qed.

Lemma shr_fexp_nonneg (m e : Z) (l : location) :
  0 <= m -> 0 <= shr_m (fst (shr_fexp prec emax m e l)).
Proof.
  intros H. unfold shr_fexp, shr.
  assert (H0 : 0 <= shr_m (shr_record_of_loc m l))
    by (destruct l as [|[]]; exact H).
  destruct (fexp prec emax (Zdigits2 m + e) - e) as [|p|p]; simpl;
    [exact H0 | apply iter_shr_1_nonneg, H0 | exact H0].
Qed.

Lemma round_nearest_even_nonneg (m : Z) (l : location) :
  0 <= m -> 0 <= round_nearest_even m l.
Proof.
  intros H. destruct l as [|[]]; simpl; try lia.
  destruct (Z.even m); lia.
Qed.

Lemma binary_round_aux_not_nan (sx : bool) (m e : Z) (l : location) :
  0 <= m -> binary_round_aux prec emax sx m e l <> S754_nan.
Proof.
  intros H. unfold binary_round_aux.
  pose proof (shr_fexp_nonneg m e l H) as H1.
  destruct (shr_fexp prec emax m e l) as [mrs' e']. simpl in H1.
  pose proof (shr_fexp_nonneg _ e' loc_Exact
                (round_nearest_even_nonneg _ (loc_of_shr_record mrs') H1)) as H2.
  destruct (shr_fexp prec emax _ e' loc_Exact) as [mrs'' e'']. simpl in H2.
  destruct (shr_m mrs'') as [|q|q]; [discriminate | | lia].
  destruct (e'' <=? emax - prec); discriminate.
Qed.

Lemma SFdiv_core_nonneg (mx my : positive) (ex ey : Z) :
  0 <= fst (fst (SFdiv_core_binary prec emax (Z.pos mx) ex (Z.pos my) ey)).
Proof.
  unfold SFdiv_core_binary.
  set (s := ex - ey - _).
  set (m' := match s with Z.pos _ => Z.shiftl (Z.pos mx) s | 0 => Z.pos mx | _ => 0 end).
  assert (Hm : 0 <= m').
  { subst m'. destruct s; [lia | | lia]. apply Z.shiftl_nonneg. lia. }
  pose proof (Z.div_pos m' (Z.pos my) Hm ltac:(lia)) as Hq.
  unfold Z.div in Hq. destruct (Z.div_eucl m' (Z.pos my)) as [q r]. exact Hq.
Qed.

(** A quotient is NaN only if an operand is NaN, both are infinite or both
    are zero. *)
Lemma fdiv_nan (x y : float) :
  isnan (fdiv x y) = true ->
  isnan x = true \/ isnan y = true \/
  (is_inf x = true /\ is_inf y = true) \/
  (is_zero x = true /\ is_zero y = true).
Proof.
  destruct x as [sx|sx| |sx mx ex], y as [sy|sy| |sy my ey]; simpl;
    intros H; try discriminate; auto 6.
  exfalso. unfold fdiv, SFdiv in H.
  pose proof (SFdiv_core_nonneg mx my ex ey) as Hq.
  destruct (SFdiv_core_binary prec emax (Z.pos mx) ex (Z.pos my) ey) as [[mz ez] lz].
  simpl in Hq.
  pose proof (binary_round_aux_not_nan (xorb sx sy) mz ez lz Hq) as Hn.
  destruct (binary_round_aux prec emax (xorb sx sy) mz ez lz);
    [discriminate.. | congruence | discriminate].
Qed.

End RoundingFacts.

(** ** Term slope and IV/RV ratio *)

Section AnalyticsFacts.

Import TermStructure Analytics Score.

Lemma foldl_min_le (d : Z) (ds : list Z) :
  foldl Z.min d ds <= d /\ Forall (fun x => foldl Z.min d ds <= x) ds.
Proof.
  revert d. induction ds as [|x ds IH]; intros d; simpl.
  - split; [lia | constructor].
  - destruct (IH (Z.min d x)) as [H1 H2]. split; [lia|].
    constructor; [lia | exact H2].
Qed.

Lemma foldl_min_in (d : Z) (ds : list Z) : foldl Z.min d ds ∈ d :: ds.
Proof.
  revert d. induction ds as [|x ds IH]; intros d; simpl; [left|].
  specialize (IH (Z.min d x)). apply elem_of_cons in IH as [->|IH].
  - destruct (Z.min_spec d x) as [[_ ->]|[_ ->]]; [left | right; left].
  - right; right; exact IH.
Qed.

(** [min(ds)] is an element of [ds] below all others. *)
Lemma py_min_spec (ds : list Z) (d0 : Z) :
  py_min ds = Some d0 -> d0 ∈ ds /\ Forall (fun x => d0 <= x) ds.
Proof.
  destruct ds as [|d ds]; [discriminate|]. simpl. intros [= <-].
  split; [apply foldl_min_in|].
  destruct (foldl_min_le d ds) as [H1 H2]. constructor; assumption.
Qed.

Lemma slope_divisor_eq (d0 : Z) :
  slope_divisor d0 = if decide (45 - d0 = 0) then 1 else 45 - d0.
Proof.
  unfold slope_divisor. destruct (Z.eqb_spec (45 - d0) 0); simpl;
    destruct (decide (45 - d0 = 0)); congruence.
Qed.

Lemma slope_divisor_nonzero (d0 : Z) : slope_divisor d0 <> 0.
Proof. rewrite slope_divisor_eq. destruct (decide (45 - d0 = 0)); lia. Qed.

(** C9. With the shortest day count [d0 = min(ds)], the slope is exactly
    the integer 0 when [d0 = 45]; otherwise it is the float quotient of
    [ts 45 - ts d0] by the divisor, which is [45 - d0] with 1 standing in
    for a zero difference, and which is never zero, so that the division
    does not raise. *)
Theorem term_slope_spec (ts : spline) (ds : list Z) (d0 : Z) :
  py_min ds = Some d0 ->
  (d0 ∈ ds /\ Forall (fun d => d0 <= d) ds) /\
  (d0 = 45 -> term_slope ts ds = Some (PyInt 0)) /\
  slope_divisor d0 = (if decide (45 - d0 = 0) then 1 else 45 - d0) /\
  slope_divisor d0 <> 0 /\
  (d0 <> 45 ->
   slope_divisor d0 = 45 - d0 /\
   forall a b, ts 45 = Some a -> ts d0 = Some b ->
     py_truediv (fsub a b) (slope_divisor d0)
       = Some (fdiv (fsub a b) (of_int (45 - d0))) /\
     term_slope ts ds = Some (PyFloat (fdiv (fsub a b) (of_int (45 - d0))))).
Proof.
  intros Hmin. split; [exact (py_min_spec ds d0 Hmin)|].
  unfold term_slope. rewrite Hmin. cbn.
  split; [intros ->; reflexivity|].
  split; [apply slope_divisor_eq|].
  split; [apply slope_divisor_nonzero|].
  intros Hne.
  assert (Hdiv : slope_divisor d0 = 45 - d0).
  { rewrite slope_divisor_eq. destruct (decide (45 - d0 = 0)); [lia | reflexivity]. }
  split; [exact Hdiv|]. intros a b Ha Hb.
  assert (Hq : py_truediv (fsub a b) (slope_divisor d0)
               = Some (fdiv (fsub a b) (of_int (45 - d0)))).
  { unfold py_truediv. rewrite Hdiv.
    destruct (Z.eqb_spec (45 - d0) 0); [lia | reflexivity]. }
  split; [exact Hq|].
  destruct (Z.eqb_spec d0 45); [contradiction|].
  rewrite Ha. cbn. rewrite Hb. cbn. rewrite Hq. reflexivity.
Qed.

Lemma term_slope_spec_witness :
  term_slope (build_term_structure linear_interp1d Samples.days3 Samples.ivs3)
    Samples.days3
  = Some (PyFloat (fdiv (fsub Samples.f_0_25 Samples.f_0_75) (of_int 38))).
Proof.
  pose proof (term_slope_spec
                (build_term_structure linear_interp1d Samples.days3 Samples.ivs3)
                Samples.days3 7 eq_refl) as (_ & _ & _ & _ & H).
  destruct (H ltac:(discriminate)) as [_ H'].
  exact (proj2 (H' Samples.f_0_25 Samples.f_0_75 eq_refl eq_refl)).
Defined.

Example term_slope_at_45 (ts : spline) : term_slope ts [45; 52; 80] = Some (PyInt 0).
Proof. reflexivity. Qed.

Lemma hv_eq_zero (hv : float) : SFeqb hv (of_int 0) = is_zero hv.
Proof. destruct hv as [|[]| |[]]; reflexivity. Qed.

(** C10, as the code has it.  A realized volatility of zero gives the
    integer 9999, which passes the 1.25 threshold; a NaN realized volatility
    gives a NaN ratio; any other realized volatility gives the float
    quotient [iv30 / hv]; and the ratio is NaN only if the realized
    volatility is NaN, the 30-day volatility is NaN, or both are infinite. *)
Theorem iv30_rv30_cases (iv30 hv : float) :
  (is_zero hv = true ->
     iv30_rv30 iv30 hv = PyInt 9999 /\
     ivcheck (Some (iv30_rv30 iv30 hv)) = true) /\
  (isnan hv = true -> iv30_rv30 iv30 hv = PyFloat nan) /\
  (is_zero hv = false -> isnan hv = false ->
     iv30_rv30 iv30 hv = PyFloat (fdiv iv30 hv)) /\
  (np_isnan (iv30_rv30 iv30 hv) = true ->
     isnan hv = true \/ isnan iv30 = true \/
     (is_inf iv30 = true /\ is_inf hv = true)).
Proof.
  unfold iv30_rv30. rewrite hv_eq_zero.
  repeat split.
  - rewrite H. reflexivity.
  - rewrite H. vm_compute. reflexivity.
  - intros H. destruct hv; try discriminate. reflexivity.
  - intros Hz Hn. rewrite Hz, Hn. reflexivity.
  - destruct (is_zero hv) eqn:Hz; [discriminate|].
    destruct (isnan hv) eqn:Hn; [auto|]. simpl. intros H.
    destruct (fdiv_nan iv30 hv H) as [H1|[H1|[H1|[_ H1]]]]; auto; congruence.
Qed.

(** The ratio of a NaN 30-day volatility is NaN although the realized
    volatility, 0.25, is not. *)
Lemma ratio_nan_without_nan_hv :
  ~ (np_isnan (iv30_rv30 nan Samples.f_0_25) = true ->
     isnan Samples.f_0_25 = true).
Proof. intros H. specialize (H eq_refl). discriminate H. Qed.

Example ratio_zero_hv : iv30_rv30 Samples.f_0_5 (S754_zero true) = PyInt 9999.
Proof. reflexivity. Qed.

Example ratio_two : iv30_rv30 Samples.f_0_5 Samples.f_0_25 = PyFloat (of_int 2).
Proof. vm_compute. reflexivity. Qed.

End AnalyticsFacts.

(** ** Proxy rotation *)

Section ProxyFacts.

Import Proxy.

Lemma random_choice_elem_of {A : Type} (rnd : nat) (p0 : A) (rest : list A) :
  random_choice rnd p0 rest ∈ p0 :: rest.
Proof.
  unfold random_choice.
  assert (Hlt : (rnd mod length (p0 :: rest) < length (p0 :: rest))%nat)
    by (apply Nat.mod_upper_bound; discriminate).
  apply lookup_lt_is_Some in Hlt as [x Hx].
  rewrite (nth_lookup_Some _ _ _ _ Hx).
  eapply list_elem_of_lookup_2. exact Hx.
Qed.

Lemma elem_of_available (pm : ProxyManager) (p : proxy) :
  p ∈ available pm <-> p ∈ proxies pm /\ Some p <> current_proxy pm.
Proof. unfold available. rewrite list_elem_of_filter. tauto. Qed.

(** A pool of two distinct proxies or more always has one to rotate to. *)
Lemma available_nonempty (pm : ProxyManager) :
  NoDup (proxies pm) -> (2 <= length (proxies pm))%nat -> available pm <> [].
Proof.
  intros Hnd Hlen Hnil.
  destruct (proxies pm) as [|a [|b l]] eqn:E; simpl in Hlen; try lia.
  assert (Ha : a ∉ available pm) by (rewrite Hnil; apply not_elem_of_nil).
  assert (Hb : b ∉ available pm) by (rewrite Hnil; apply not_elem_of_nil).
  rewrite elem_of_available, E in Ha, Hb.
  apply NoDup_cons in Hnd as [Hab _].
  destruct (decide (Some a = current_proxy pm)) as [Ea|Na].
  - destruct (decide (Some b = current_proxy pm)) as [Eb|Nb].
    + rewrite <- Ea in Eb. injection Eb as ->. apply Hab. left.
    + apply Hb. split; [right; left | exact Nb].
  - apply Ha. split; [left | exact Na].
Qed.

Lemma dict_put_keys (d : list (string * proxy)) (p : proxy) :
  (dict_put d p).*1 = if decide (http p ∈ d.*1) then d.*1 else d.*1 ++ [http p].
Proof.
  induction d as [|[k q] d IH]; cbn [dict_put].
  - destruct (decide (http p ∈ ([] : list (string * proxy)).*1)) as [Hin|_];
      [|reflexivity].
    apply not_elem_of_nil in Hin. contradiction.
  - rewrite !fmap_cons. cbn [fst].
    destruct (String.eqb_spec k (http p)) as [->|Hne].
    + rewrite decide_True by left. reflexivity.
    + rewrite fmap_cons, IH. cbn [fst].
      destruct (decide (http p ∈ d.*1)) as [Hin|Hin].
      * rewrite decide_True by (right; exact Hin). reflexivity.
      * rewrite decide_False; [reflexivity|].
        intros [?|?]%elem_of_cons; congruence.
Qed.

Lemma dict_put_addresses (d : list (string * proxy)) (p : proxy) :
  Forall (fun kv => kv.1 = http kv.2) d ->
  Forall (fun kv => kv.1 = http kv.2) (dict_put d p).
Proof.
  induction 1 as [|[k q] d Hk Hd IH]; simpl; [repeat constructor|].
  destruct (String.eqb_spec k (http p)) as [->|Hne].
  - constructor; [reflexivity | exact Hd].
  - constructor; [exact Hk | exact IH].
Qed.

Lemma comprehension_invariant (candidates : list proxy) (d : list (string * proxy)) :
  NoDup d.*1 -> Forall (fun kv => kv.1 = http kv.2) d ->
  NoDup (foldl dict_put d candidates).*1 /\
  Forall (fun kv => kv.1 = http kv.2) (foldl dict_put d candidates).
Proof.
  revert d. induction candidates as [|p l IH]; intros d Hnd Hk; [auto|].
  simpl. apply IH; [|apply dict_put_addresses, Hk].
  rewrite dict_put_keys. destruct (decide (http p ∈ d.*1)) as [Hin|Hin];
    [exact Hnd|].
  apply NoDup_app. split; [exact Hnd|]. split; [|apply NoDup_singleton].
  intros x Hx ->%list_elem_of_singleton. contradiction.
Qed.

Lemma keys_are_addresses (d : list (string * proxy)) :
  Forall (fun kv => kv.1 = http kv.2) d -> d.*1 = http <$> d.*2.
Proof.
  induction 1 as [|[k q] d Hk _ IH]; [reflexivity|].
  rewrite !fmap_cons. cbn [fst snd] in *. rewrite Hk, IH. reflexivity.
Qed.

(** The deduplicated candidates have pairwise different addresses. *)
Lemma dedup_candidates_NoDup (candidates : list proxy) :
  NoDup (http <$> dedup_candidates candidates).
Proof.
  unfold dedup_candidates.
  destruct (comprehension_invariant candidates []) as [Hnd Hk];
    [constructor | constructor |].
  rewrite <- (keys_are_addresses _ Hk). exact Hnd.
Qed.

Lemma collect_valid_sublist (max_proxies : nat) (validate_proxy : proxy -> bool)
    (completed valid : list proxy) :
  collect_valid max_proxies validate_proxy completed valid
    `sublist_of` valid ++ completed.
Proof.
  revert valid. induction completed as [|p rest IH]; intros valid; simpl.
  - rewrite app_nil_r. reflexivity.
  - destruct (validate_proxy p).
    + destruct (max_proxies <=? length (valid ++ [p]))%nat.
      * rewrite (cons_middle p valid rest), app_assoc.
        apply sublist_inserts_r. reflexivity.
      * rewrite (cons_middle p valid rest), app_assoc. apply IH.
    + etrans; [apply IH|].
      apply sublist_app; [reflexivity | apply sublist_cons; reflexivity].
Qed.

(** The pool that [build_valid_proxy_pool] installs never lists a proxy
    twice. *)
Lemma built_pool_NoDup (max_proxies : nat) (validate_proxy : proxy -> bool)
    (candidates completed : list proxy) (pm : ProxyManager) :
  completed ≡ₚ dedup_candidates candidates ->
  NoDup (proxies (build_valid_proxy_pool max_proxies validate_proxy completed pm)).
Proof.
  intros Hp. simpl.
  eapply sublist_NoDup; [|apply collect_valid_sublist]. simpl.
  rewrite Hp. eapply NoDup_fmap_1. apply dedup_candidates_NoDup.
Qed.

(** C7. On a duplicate-free pool: rotation changes nothing when the pool
    is disabled or holds fewer than two proxies; when it is enabled, holds
    at least two proxies and a current proxy is set, the proxy returned is
    drawn from the proxies other than the current one and is the current
    proxy of the manager afterwards, so the current proxy after the
    rotation belongs to the pool and differs from the one before, and with
    exactly two proxies it is the other one; pool and enabled flag are as
    before. *)
Theorem rotate_proxy_spec (rnd : nat) (pm : ProxyManager) :
  NoDup (proxies pm) ->
  (proxy_enabled pm = false \/ (length (proxies pm) < 2)%nat ->
     rotate_proxy rnd pm = (None, pm)) /\
  (proxy_enabled pm = true -> (2 <= length (proxies pm))%nat ->
   forall c, current_proxy pm = Some c ->
   exists c',
     rotate_proxy rnd pm = (Some c', set_current pm c') /\
     (rotate_proxy rnd pm).1 = Some c' /\
     current_proxy (rotate_proxy rnd pm).2 = Some c' /\
     proxies (rotate_proxy rnd pm).2 = proxies pm /\
     proxy_enabled (rotate_proxy rnd pm).2 = proxy_enabled pm /\
     c' ∈ available pm /\ c' ∈ proxies pm /\ c' <> c /\
     (forall a b, proxies pm = [a; b] ->
        (c = a -> c' = b) /\ (c = b -> c' = a))).
Proof.
  intros Hnd. split.
  - intros H. unfold rotate_proxy.
    destruct H as [-> | Hlen]; [reflexivity|].
    destruct (proxy_enabled pm); simpl; [|reflexivity].
    destruct (Nat.leb_spec (length (proxies pm)) 1); [reflexivity | lia].
  - intros Hen Hlen c Hc.
    pose proof (available_nonempty pm Hnd Hlen) as Hav.
    destruct (available pm) as [|p0 rest] eqn:E; [congruence|].
    assert (Hr : rotate_proxy rnd pm
                 = (Some (random_choice rnd p0 rest),
                    set_current pm (random_choice rnd p0 rest))).
    { unfold rotate_proxy. rewrite Hen, E. cbn [negb orb].
      destruct (Nat.leb_spec (length (proxies pm)) 1); [lia | reflexivity]. }
    exists (random_choice rnd p0 rest). rewrite Hr.
    pose proof (random_choice_elem_of rnd p0 rest) as Hin0.
    assert (Hin : random_choice rnd p0 rest ∈ available pm)
      by (rewrite E; exact Hin0).
    split; [reflexivity|]. split; [reflexivity|]. split; [reflexivity|].
    split; [reflexivity|]. split; [reflexivity|]. split; [exact Hin0|].
    apply elem_of_available in Hin as [Hin Hne]. rewrite Hc in Hne.
    split; [exact Hin|]. split; [congruence|].
    intros a b Hab. rewrite Hab in Hin.
    apply elem_of_cons in Hin as [Hin|Hin];
      [|apply list_elem_of_singleton in Hin]; split; congruence.
Qed.

Lemma rotate_proxy_spec_witness :
  Proxy.rotate_proxy 5 Samples.pool2
    = (Some Samples.proxy_b, set_current Samples.pool2 Samples.proxy_b) /\
  current_proxy (Proxy.rotate_proxy 5 Samples.pool2).2 = Some Samples.proxy_b /\
  Proxy.rotate_proxy 5 Samples.pool1 = (None, Samples.pool1).
Proof.
  assert (Hnd2 : NoDup (proxies Samples.pool2))
    by (apply (bool_decide_unpack _); vm_compute; exact I).
  assert (Hnd1 : NoDup (proxies Samples.pool1))
    by (apply (bool_decide_unpack _); vm_compute; exact I).
  destruct (rotate_proxy_spec 5 Samples.pool2 Hnd2) as [_ H].
  destruct (H eq_refl (le_n 2) Samples.proxy_a eq_refl)
    as (c' & Hr & _ & Hcur & _ & _ & _ & _ & _ & Htwo).
  destruct (Htwo Samples.proxy_a Samples.proxy_b eq_refl) as [Hb _].
  rewrite (Hb eq_refl) in Hr, Hcur.
  split; [exact Hr|]. split; [exact Hcur|].
  destruct (rotate_proxy_spec 5 Samples.pool1 Hnd1) as [H1 _].
  apply H1. right. apply le_n.
Defined.

(** The list length alone does not suffice: a list that names the same
    proxy twice leaves nothing to rotate to. *)
Example rotate_repeated_pool (rnd : nat) :
  Proxy.rotate_proxy rnd Samples.pool_repeated = (None, Samples.pool_repeated).
Proof. reflexivity. Qed.

End ProxyFacts.

(** ** Per-expiry retry and ticker-level attempts *)

Section FetchFacts.

Import Fetch.

Context {chain R : Type}.
Variable provider_options : trace -> string -> option (list string).
Variable provider_chain : trace -> string -> option chain.
Variable strip_upper : string -> string.
Variable filter_dates : list string -> list string.
Variable analyse : string -> list (string * chain) -> M (reply R).

Local Abbreviation fetch_expiry := (Fetch.fetch_expiry chain provider_chain).
Local Abbreviation fetch_chains := (Fetch.fetch_chains chain provider_chain).
Local Abbreviation attempt_body :=
  (Fetch.attempt_body chain R provider_options provider_chain
     strip_upper filter_dates analyse).
Local Abbreviation attempts :=
  (Fetch.attempts chain R provider_options provider_chain
     strip_upper filter_dates analyse).
Local Abbreviation compute_recommendation :=
  (Fetch.compute_recommendation chain R provider_options provider_chain
     strip_upper filter_dates analyse).

Lemma bind_ok {A B : Type} (m : M A) (k : A -> M B) (tr tr' : trace) (a : A) :
  m tr = (Ok a, tr') -> (m ≫= k) tr = k a tr'.
Proof. unfold mbind, fetch_bind, bind. intros ->. reflexivity. Qed.


Lemma fetch_expiry_first (e : string) (tr : trace) (c : chain) :
  provider_chain tr e = Some c -> fetch_expiry e tr = (Ok c, EvChain e :: tr).
Proof.
  intros H. unfold Fetch.fetch_expiry, try_except, option_chain.
  rewrite H. reflexivity.
Qed.

Lemma fetch_expiry_second (e : string) (tr : trace) :
  provider_chain tr e = None ->
  fetch_expiry e tr =
    match provider_chain (EvRotate :: EvChain e :: tr) e with
    | Some c => (Ok c, EvChain e :: EvRotate :: EvChain e :: tr)
    | None => (Raised "option_chain", EvChain e :: EvRotate :: EvChain e :: tr)
    end.
Proof.
  intros H. unfold Fetch.fetch_expiry, try_except, option_chain.
  rewrite H. unfold mbind, fetch_bind, bind, rotate_session.
  destruct (provider_chain (EvRotate :: EvChain e :: tr) e); reflexivity.
Qed.

Lemma attempts_ok (a : nat) (todo : list nat) (symbol : string)
    (tr tr' : trace) (r : reply R) :
  attempt_body symbol tr = (Ok r, tr') ->
  attempts (a :: todo) symbol tr = (Ok (Some r), tr').
Proof.
  intros H. simpl. unfold try_except.
  rewrite (bind_ok _ _ _ _ _ H). reflexivity.
Qed.





End FetchFacts.

Section FetchExamples.

Import Fetch.


Example first_down_fetch_trace :
  Fetch.fetch_chains nat Samples.first_expiry_down
    [Samples.exp1; Samples.exp2] [] []
  = (Raised "option_chain",
     [EvChain Samples.exp1; EvRotate; EvChain Samples.exp1]).
Proof. reflexivity. Qed.

Example first_down_recommendation :
  Samples.recommend_first_down "AAPL" []
  = (Ok (Some (Error "Err: option_chain")),
     [EvChain Samples.exp1; EvRotate; EvChain Samples.exp1; EvOptions "AAPL";
      EvRotate;
      EvChain Samples.exp1; EvRotate; EvChain Samples.exp1; EvOptions "AAPL";
      EvRotate;
      EvChain Samples.exp1; EvRotate; EvChain Samples.exp1; EvOptions "AAPL"]).
Proof. reflexivity. Qed.

End FetchExamples.

(** ** Cache keys *)

Section DigestExamples.

Example md5_empty : MD5.md5_hexdigest "" = "d41d8cd98f00b204e9800998ecf8427e".
Proof. vm_compute. reflexivity. Qed.

Example md5_abc : MD5.md5_hexdigest "abc" = "900150983cd24fb0d6963f7d28e17f72".
Proof. vm_compute. reflexivity. Qed.

Example md5_two_blocks :
  MD5.md5_hexdigest
    "aaaaaaaaaaaaaaaaaaaaaaaaaaaaaaaaaaaaaaaaaaaaaaaaaaaaaaaaaaaaaaaaaaaaaa"
  = "0f5c6c4e740bfcc08c3c26ccb2673d46".
Proof. vm_compute. reflexivity. Qed.

Example cache_key_sample :
  Cache._get_cache_key "2025-01-17" ["MSFT"; "AAPL"]
  = "efad12fa1a8eac5a66ed629cf5499bcc".
Proof. vm_compute. reflexivity. Qed.

End DigestExamples.

Section CacheKeyFacts.

Import Cache.

Lemma insert_sorted_perm (s : string) (l : list string) :
  insert_sorted s l ≡ₚ s :: l.
Proof.
  induction l as [|t l IH]; simpl; [reflexivity|].
  destruct (String.leb s t); [reflexivity|].
  rewrite IH. apply Permutation_swap.
Qed.

Lemma sorted_perm (l : list string) : sorted l ≡ₚ l.
Proof.
  induction l as [|s l IH]; simpl; [reflexivity|].
  rewrite insert_sorted_perm, IH. reflexivity.
Qed.

Lemma insert_sorted_sorted (s : string) (l : list string) :
  StronglySorted String.le l -> StronglySorted String.le (insert_sorted s l).
Proof.
  induction 1 as [|t l Hs IH Ht]; simpl.
  - repeat constructor.
  - destruct (String.leb s t) eqn:E.
    + assert (Hst : String.le s t) by (unfold String.le; rewrite E; exact I).
      constructor; [constructor; assumption|].
      constructor; [exact Hst|].
      eapply Forall_impl; [exact Ht|]. intros u Hu. by trans t.
    + assert (Hts : String.le t s).
      { destruct (total String.le s t) as [H|H]; [|exact H].
        unfold String.le in H. rewrite E in H. destruct H. }
      constructor; [exact IH|].
      rewrite insert_sorted_perm. constructor; assumption.
Qed.

Lemma sorted_sorted (l : list string) : StronglySorted String.le (sorted l).
Proof.
  induction l as [|s l IH]; simpl; [constructor|].
  apply insert_sorted_sorted, IH.
Qed.

(** Sorting forgets the order of its input. *)
Lemma sorted_permutation (l l' : list string) : l ≡ₚ l' -> sorted l = sorted l'.
Proof.
  intros Hp. apply (StronglySorted_unique String.le); try apply sorted_sorted.
  rewrite !sorted_perm. exact Hp.
Qed.

(** C3. Reordering the ticker list changes neither the cache key nor the
    file it names, so a lookup with the reordered list reads the same
    entry and returns the same answer. *)
Theorem cache_key_permutation (date : string) (tks tks' : list string) :
  tks ≡ₚ tks' ->
  _get_cache_key date tks = _get_cache_key date tks' /\
  _get_cache_path (_get_cache_key date tks)
    = _get_cache_path (_get_cache_key date tks') /\
  (forall now dir, get_data now dir date tks = get_data now dir date tks') /\
  (forall dir new_data,
     update_missing_data dir date tks new_data
     = update_missing_data dir date tks' new_data).
Proof.
  intros Hp.
  assert (Hk : _get_cache_key date tks = _get_cache_key date tks').
  { unfold _get_cache_key. rewrite (sorted_permutation tks tks' Hp). reflexivity. }
  split; [exact Hk|]. split; [rewrite Hk; reflexivity|]. split.
  - intros now dir. unfold get_data. rewrite Hk. reflexivity.
  - intros dir new_data. unfold update_missing_data. rewrite Hk. reflexivity.
Qed.

Lemma cache_key_permutation_witness :
  _get_cache_key Samples.scan_date Samples.tickers_ma
  = _get_cache_key Samples.scan_date Samples.tickers_am.
Proof.
  apply (cache_key_permutation Samples.scan_date
           Samples.tickers_ma Samples.tickers_am).
  apply Permutation_swap.
Defined.

End CacheKeyFacts.

(** ** Cache reads and the sweep *)

Section CacheReadFacts.

Import Cache.

Lemma age_at_least_week (now ts : Z) :
  cache_expiry_days * microseconds_per_day <= now - ts <->
  cache_expiry_days <= age_days now ts.
Proof.
  unfold age_days, cache_expiry_days, microseconds_per_day. split; intros H.
  - apply Z.div_le_lower_bound; lia.
  - pose proof (Z.mul_div_le (now - ts) 86400000000 ltac:(lia)). lia.
Qed.

Lemma endswith_app (s suffix : string) : endswith suffix (s +:+ suffix) = true.
Proof.
  induction s as [|a s IH]; simpl.
  - change (endswith suffix suffix = true).
    destruct suffix; cbn [endswith]; rewrite String.eqb_refl; reflexivity.
  - rewrite IH. apply orb_true_r.
Qed.

Lemma cache_path_is_pkl (key : string) : endswith ".pkl" (_get_cache_path key) = true.
Proof. apply endswith_app. Qed.

Lemma sweep_file_eq (now : Z) (dir : directory) (entry : string * file) :
  sweep_file now dir entry = if removable now entry then delete entry.1 dir else dir.
Proof.
  unfold sweep_file, removable.
  destruct (endswith ".pkl" entry.1); simpl; [|reflexivity].
  destruct entry.2; reflexivity.
Qed.

Lemma foldl_sweep_lookup (now : Z) (l : list (string * file)) (dir : directory)
    (k : string) :
  foldl (sweep_file now) dir l !! k =
    if existsb (fun e => bool_decide (e.1 = k) && removable now e) l
    then None else dir !! k.
Proof.
  revert dir. induction l as [|e l IH]; intros dir; simpl; [reflexivity|].
  rewrite IH, sweep_file_eq.
  destruct (existsb _ l); [rewrite orb_true_r; reflexivity|].
  rewrite orb_false_r.
  destruct (removable now e); [|rewrite andb_false_r; reflexivity].
  rewrite andb_true_r. case_bool_decide as Hk.
  - rewrite Hk. apply lookup_delete_eq.
  - apply lookup_delete_ne. exact Hk.
Qed.

(** What the sweep leaves of each file. *)
Lemma clear_expired_lookup (now : Z) (dir : directory) (k : string) :
  clear_expired now dir !! k =
    match dir !! k with
    | Some f => if removable now (k, f) then None else Some f
    | None => None
    end.
Proof.
  unfold clear_expired. rewrite foldl_sweep_lookup.
  destruct (dir !! k) as [f|] eqn:Hk;
    [|destruct (existsb _ _); reflexivity].
  destruct (existsb _ _) eqn:Hex.
  - apply existsb_exists in Hex as ([k' f'] & Hin & Hb).
    apply andb_true_iff in Hb as [Hb Hr]. apply bool_decide_eq_true in Hb.
    simpl in Hb. subst k'.
    apply list_elem_of_In, elem_of_map_to_list in Hin.
    assert (f' = f) as -> by congruence. rewrite Hr. reflexivity.
  - destruct (removable now (k, f)) eqn:Hr; [|reflexivity].
    assert (Hex' : existsb (fun e => bool_decide (e.1 = k) && removable now e)
                     (map_to_list dir) = true).
    { apply existsb_exists. exists (k, f). split.
      - apply list_elem_of_In, elem_of_map_to_list. exact Hk.
      - rewrite Hr. simpl. rewrite bool_decide_eq_true_2; reflexivity. }
    congruence.
Qed.

(** C5. An entry stored at least seven days before the read is reported
    as absent with an empty list of missing fields, and its file is gone
    from the directory when the read returns. *)
Theorem expired_entry_removed (now : Z) (dir : directory) (date : string)
    (tks : list string) (c : cache_entry) :
  let cp := _get_cache_path (_get_cache_key date tks) in
  dir !! cp = Some (Pickled c) ->
  cache_expiry_days * microseconds_per_day <= now - timestamp c ->
  get_data now dir date tks = ((None, []), delete cp dir) /\
  (get_data now dir date tks).2 !! cp = None /\
  (forall p, p <> cp -> (get_data now dir date tks).2 !! p = dir !! p).
Proof.
  intros cp Hf Hage.
  assert (Hget : get_data now dir date tks = ((None, []), delete cp dir)).
  { unfold get_data. fold cp. rewrite Hf.
    apply age_at_least_week, Z.leb_le in Hage. rewrite Hage. reflexivity. }
  split; [exact Hget|]. rewrite Hget. simpl. split.
  - apply lookup_delete_eq.
  - intros p Hp. apply lookup_delete_ne. congruence.
Qed.

(** C6, as the code has it.  A file that cannot be read is reported as
    absent with an empty list of missing fields, and the read leaves the
    directory as it found it; it is the sweep that removes such a file. *)
Theorem unreadable_entry_kept (now : Z) (dir : directory) (date : string)
    (tks : list string) :
  let cp := _get_cache_path (_get_cache_key date tks) in
  dir !! cp = Some Unreadable ->
  get_data now dir date tks = ((None, []), dir) /\
  (get_data now dir date tks).2 !! cp = Some Unreadable /\
  clear_expired now dir !! cp = None.
Proof.
  intros cp Hf.
  assert (Hget : get_data now dir date tks = ((None, []), dir)).
  { unfold get_data. fold cp. rewrite Hf. reflexivity. }
  split; [exact Hget|]. rewrite Hget. simpl. split; [exact Hf|].
  rewrite clear_expired_lookup, Hf. unfold removable. simpl.
  unfold cp. rewrite cache_path_is_pkl. reflexivity.
Qed.

Local Abbreviation sample_path :=
  (_get_cache_path (_get_cache_key Samples.scan_date Samples.tickers_ma)).

Lemma expired_entry_removed_witness :
  get_data Samples.eight_days Samples.stale_dir Samples.scan_date Samples.tickers_ma
    = ((None, []), delete sample_path Samples.stale_dir) /\
  (get_data Samples.eight_days Samples.stale_dir
     Samples.scan_date Samples.tickers_ma).2 !! sample_path = None.
Proof.
  destruct (expired_entry_removed Samples.eight_days Samples.stale_dir
              Samples.scan_date Samples.tickers_ma Samples.old_entry)
    as (H1 & H2 & _).
  - unfold Samples.stale_dir, Samples.scan_path. apply lookup_singleton_eq.
  - unfold Samples.eight_days, Samples.old_entry, cache_expiry_days,
      microseconds_per_day, timestamp. lia.
  - split; [exact H1 | exact H2].
Defined.

Lemma unreadable_entry_kept_witness :
  get_data 0 Samples.corrupt_dir Samples.scan_date Samples.tickers_ma
    = ((None, []), Samples.corrupt_dir) /\
  clear_expired 0 Samples.corrupt_dir !! sample_path = None.
Proof.
  destruct (unreadable_entry_kept 0 Samples.corrupt_dir
              Samples.scan_date Samples.tickers_ma)
    as (H1 & _ & H3).
  - unfold Samples.corrupt_dir, Samples.scan_path. apply lookup_singleton_eq.
  - split; [exact H1 | exact H3].
Defined.

(** After the read of an unreadable file the file is still there. *)
Lemma unreadable_entry_not_deleted :
  ~ ((get_data 0 Samples.corrupt_dir Samples.scan_date Samples.tickers_ma).2
       !! sample_path = None).
Proof.
  unfold get_data, Samples.corrupt_dir, Samples.scan_path.
  rewrite lookup_singleton_eq. cbn [snd].
  rewrite lookup_singleton_eq. discriminate.
Qed.

(** A fresh entry is returned as stored and stays in place. *)
Lemma fresh_entry_returned (now : Z) (dir : directory) (date : string)
    (tks : list string) (c : cache_entry) :
  dir !! _get_cache_path (_get_cache_key date tks) = Some (Pickled c) ->
  now - timestamp c < cache_expiry_days * microseconds_per_day ->
  get_data now dir date tks = ((Some (data c), missing_data c), dir).
Proof.
  intros Hf Hage. unfold get_data. rewrite Hf.
  destruct (Z.leb_spec cache_expiry_days (age_days now (timestamp c))) as [H|H];
    [|reflexivity].
  apply age_at_least_week in H. lia.
Qed.

End CacheReadFacts.

(** ** Filling the blank fields of a cached result *)

Section CacheMergeFacts.

Import Cache.

Lemma merge_field_lookup_ne (entry : dict) (kv : string * pyval) (k : string) :
  kv.1 <> k -> merge_field entry kv !! k = entry !! k.
Proof.
  intros Hne. unfold merge_field.
  destruct (entry !! kv.1) as [old|]; [|reflexivity].
  destruct (py_in old blank_values); [|reflexivity].
  apply lookup_insert_ne. exact Hne.
Qed.

Lemma foldl_merge_field_absent (l : list (string * pyval)) (entry : dict)
    (k : string) :
  k ∉ l.*1 -> foldl merge_field entry l !! k = entry !! k.
Proof.
  revert entry. induction l as [|kv l IH]; intros entry Hk; [reflexivity|].
  simpl. apply not_elem_of_cons in Hk as [Hne Hk].
  rewrite (IH _ Hk). apply merge_field_lookup_ne. congruence.
Qed.

Lemma foldl_merge_field_lookup (l : list (string * pyval)) (entry : dict)
    (k : string) :
  NoDup l.*1 ->
  foldl merge_field entry l !! k
    = merged_value (entry !! k) ((list_to_map l : dict) !! k).
Proof.
  revert entry. induction l as [|[k0 v0] l IH]; intros entry Hnd.
  - simpl. rewrite lookup_empty. unfold merged_value.
    destruct (entry !! k) as [o|]; [|reflexivity].
    destruct (py_in o blank_values); reflexivity.
  - rewrite fmap_cons in Hnd. apply NoDup_cons in Hnd as [Hk0 Hnd].
    cbn [foldl list_to_map foldr fst snd uncurry] in *.
    destruct (decide (k0 = k)) as [<-|Hne].
    + rewrite (foldl_merge_field_absent l _ k0 Hk0), lookup_insert_eq.
      unfold merge_field, merged_value. cbn [fst snd].
      destruct (entry !! k0) as [o|] eqn:Ho; [|exact Ho].
      destruct (py_in o blank_values); [apply lookup_insert_eq | exact Ho].
    + rewrite (IH _ Hnd), lookup_insert_ne by exact Hne.
      rewrite (merge_field_lookup_ne entry (k0, v0) k Hne). reflexivity.
Qed.

(** The merge, field by field. *)
Lemma merge_entry_lookup (entry new_data : dict) (k : string) :
  merge_entry entry new_data !! k = merged_value (entry !! k) (new_data !! k).
Proof.
  unfold merge_entry.
  rewrite foldl_merge_field_lookup by apply NoDup_fst_map_to_list.
  rewrite list_to_map_to_list. reflexivity.
Qed.

(** Each field after the merge: it is what it was, or it was blank and is
    now what the update holds under the same key. *)
Lemma merged_value_cases (old upd : option pyval) :
  (forall o, old = Some o -> py_in o blank_values = false ->
     merged_value old upd = Some o) /\
  (merged_value old upd = old \/
   exists o v, old = Some o /\ py_in o blank_values = true /\
               upd = Some v /\ merged_value old upd = Some v).
Proof.
  unfold merged_value. split.
  - intros o -> Hb. rewrite Hb. reflexivity.
  - destruct old as [o|]; [|left; reflexivity].
    destruct (py_in o blank_values) eqn:Hb; [|left; reflexivity].
    destruct upd as [v|]; [|left; reflexivity].
    right. exists o, v. auto.
Qed.

Lemma merge_data_Forall2 (l l' : list dict) (new_data : dict) :
  merge_data l new_data = Some l' ->
  Forall2 (fun entry entry' =>
             entry' = entry \/ entry' = merge_entry entry new_data) l l'.
Proof.
  revert l'. induction l as [|entry l IH]; intros l' H; simpl in H.
  - injection H as <-. constructor.
  - destruct (entry !! "ticker") as [t|]; [|discriminate]. cbn in H.
    destruct (new_data !! "ticker") as [t'|]; [|discriminate]. cbn in H.
    destruct (merge_data l new_data) as [rest|]; [|discriminate]. cbn in H.
    injection H as <-. constructor; [|apply IH; reflexivity].
    destruct (py_eq t t'); auto.
Qed.

Lemma identify_with_tickers (l : list dict) :
  Forall (fun d => is_Some (d !! "ticker")) l ->
  is_Some (_identify_missing_data l).
Proof.
  induction 1 as [|d l [t Ht] Hl [md IH]]; [eexists; reflexivity|].
  cbn [_identify_missing_data]. rewrite Ht, IH. cbn.
  destruct (missing_fields_of d); eexists; reflexivity.
Qed.

(** The loop over the stored results, when each of them and the update
    have a ticker: a result is merged when its ticker equals the update's
    and is left alone otherwise. *)
Lemma merge_data_by_ticker (l : list dict) (new_data : dict) (t' : pyval) :
  new_data !! "ticker" = Some t' ->
  Forall (fun d => is_Some (d !! "ticker")) l ->
  exists l',
    merge_data l new_data = Some l' /\
    Forall (fun d => is_Some (d !! "ticker")) l' /\
    Forall2 (fun entry entry' =>
               exists t, entry !! "ticker" = Some t /\
                 entry' = if py_eq t t' then merge_entry entry new_data
                          else entry) l l'.
Proof.
  intros Hn. induction 1 as [|d l [t Ht] Hl (l' & Hm & Hl' & IH)].
  - exists []. repeat split; constructor.
  - cbn [merge_data]. rewrite Ht, Hn, Hm. cbn [mbind option_bind].
    eexists. split; [reflexivity|]. split.
    + constructor; [|exact Hl'].
      destruct (py_eq t t'); [|rewrite Ht; eexists; reflexivity].
      rewrite merge_entry_lookup, Ht, Hn. unfold merged_value.
      destruct (py_in t blank_values); eexists; reflexivity.
    + constructor; [|exact IH]. exists t. split; [exact Ht | reflexivity].
Qed.

(** C4, as the code has it.  The merge rewrites the entry of the key or
    leaves the directory alone.  In every stored result, a field whose
    value does not compare equal to [None], ['N/A'] or [0] keeps it; a field
    that changes held such a blank value and now holds whatever the update
    has under the same key; no field appears or disappears.  When the
    update and every stored result have a ticker the entry is rewritten:
    a result whose ticker differs from the update's is left as it is, and
    in a result with the update's ticker every blank field receives the
    value the update holds under the same key, whatever that value is, and
    stays as it is when the update has no such key.  An update without
    ticker leaves an entry that holds results as it was.  The other files
    are untouched. *)
Theorem merge_keeps_populated_fields (dir : directory) (date : string)
    (tks : list string) (new_data : dict) (c : cache_entry) :
  let cp := _get_cache_path (_get_cache_key date tks) in
  let dir' := update_missing_data dir date tks new_data in
  dir !! cp = Some (Pickled c) ->
  (exists c',
     dir' !! cp = Some (Pickled c') /\
     timestamp c' = timestamp c /\
     Forall2 (fun entry entry' => forall k,
                (forall old, entry !! k = Some old ->
                   py_in old blank_values = false -> entry' !! k = Some old) /\
                (entry' !! k = entry !! k \/
                 exists old v,
                   entry !! k = Some old /\ py_in old blank_values = true /\
                   new_data !! k = Some v /\ entry' !! k = Some v))
       (data c) (data c')) /\
  (forall t', new_data !! "ticker" = Some t' ->
     Forall (fun entry => is_Some (entry !! "ticker")) (data c) ->
     exists c',
       dir' !! cp = Some (Pickled c') /\
       Forall2 (fun entry entry' =>
                  exists t, entry !! "ticker" = Some t /\
                    (py_eq t t' = false -> entry' = entry) /\
                    (py_eq t t' = true -> forall k old,
                       entry !! k = Some old ->
                       py_in old blank_values = true ->
                       (forall v, new_data !! k = Some v ->
                          entry' !! k = Some v) /\
                       (new_data !! k = None -> entry' !! k = Some old)))
         (data c) (data c')) /\
  (new_data !! "ticker" = None -> data c <> [] -> dir' = dir) /\
  (forall p, p <> cp -> dir' !! p = dir !! p).
Proof.
  intros cp dir' Hf.
  assert (Hrefl : forall l : list dict,
             Forall2 (fun entry entry' => forall k,
                (forall old, entry !! k = Some old ->
                   py_in old blank_values = false -> entry' !! k = Some old) /\
                (entry' !! k = entry !! k \/
                 exists old v,
                   entry !! k = Some old /\ py_in old blank_values = true /\
                   new_data !! k = Some v /\ entry' !! k = Some v)) l l).
  { intros l. apply Forall_Forall2_diag, Forall_forall. intros e _ k. auto. }
  subst dir'. unfold update_missing_data. fold cp. rewrite Hf.
  split; [|split; [|split]].
  - destruct (merge_data (data c) new_data) as [d'|] eqn:Hm;
      [|exists c; auto].
    destruct (_identify_missing_data d') as [md|]; [|exists c; auto].
    exists (with_data c d' md). split; [apply lookup_insert_eq|].
    split; [reflexivity|]. simpl.
    eapply Forall2_impl; [exact (merge_data_Forall2 _ _ _ Hm)|].
    intros entry entry' [-> | ->] k; [auto|].
    rewrite merge_entry_lookup.
    destruct (merged_value_cases (entry !! k) (new_data !! k)) as [H1 H2].
    split; [exact H1 | exact H2].
  - intros t' Hn Ht.
    destruct (merge_data_by_ticker (data c) new_data t' Hn Ht)
      as (l' & Hm & Hl' & HF).
    rewrite Hm. destruct (identify_with_tickers l' Hl') as [md Hmd].
    rewrite Hmd. exists (with_data c l' md).
    split; [apply lookup_insert_eq|]. cbn [data with_data].
    eapply Forall2_impl; [exact HF|].
    intros entry entry' (t & Hte & ->). exists t. split; [exact Hte|]. split.
    + intros E. rewrite E. reflexivity.
    + intros E k old Hold Hb. rewrite E, merge_entry_lookup, Hold.
      unfold merged_value. rewrite Hb.
      split; [intros v ->; reflexivity | intros ->; reflexivity].
  - intros Hn Hne. destruct (data c) as [|entry l]; [contradiction|].
    cbn [merge_data]. rewrite Hn.
    destruct (entry !! "ticker"); reflexivity.
  - intros p Hp.
    destruct (merge_data (data c) new_data) as [d'|]; [|reflexivity].
    destruct (_identify_missing_data d') as [md|]; [|reflexivity].
    apply lookup_insert_ne. congruence.
Qed.

Local Abbreviation sample_path :=
  (_get_cache_path (_get_cache_key Samples.scan_date Samples.tickers_ma)).

Local Abbreviation merged_sample :=
  (merge_entry Samples.stored_result Samples.later_result).

Lemma merge_keeps_populated_fields_witness :
  exists c',
    update_missing_data Samples.partial_dir Samples.scan_date Samples.tickers_ma
      Samples.later_result !! sample_path = Some (Pickled c') /\
    timestamp c' = timestamp Samples.partial_entry.
Proof.
  destruct (merge_keeps_populated_fields Samples.partial_dir Samples.scan_date
              Samples.tickers_ma Samples.later_result Samples.partial_entry)
    as [(c' & H1 & H2 & _) _].
  - unfold Samples.partial_dir, Samples.scan_path. apply lookup_singleton_eq.
  - exists c'. split; [exact H1 | exact H2].
Defined.

Lemma merge_sample_data :
  merge_data [Samples.stored_result] Samples.later_result = Some [merged_sample].
Proof. vm_compute. reflexivity. Qed.

Lemma merge_sample_missing :
  exists md, _identify_missing_data [merged_sample] = Some md.
Proof.
  destruct (_identify_missing_data [merged_sample]) as [md|] eqn:E;
    [exists md; reflexivity|].
  vm_compute in E. discriminate E.
Qed.

(** The stored market capitalisation 0 is replaced by the [None] of the
    later result: the value written is itself blank. *)
Lemma merge_writes_blank_value :
  exists c' after,
    update_missing_data Samples.partial_dir Samples.scan_date Samples.tickers_ma
      Samples.later_result !! sample_path = Some (Pickled c') /\
    data c' = [after] /\
    ~ fills_with_nonblank Samples.stored_result after.
Proof.
  destruct merge_sample_missing as [md Hmd].
  unfold update_missing_data, Samples.partial_dir, Samples.scan_path.
  rewrite lookup_singleton_eq.
  change (data Samples.partial_entry) with [Samples.stored_result].
  rewrite merge_sample_data, Hmd.
  eexists _, merged_sample. split; [apply lookup_insert_eq|].
  split; [reflexivity|]. intros H.
  destruct (H "market_cap" (VInt 0) VNone) as [_ Hb].
  - vm_compute. reflexivity.
  - vm_compute. reflexivity.
  - discriminate.
  - vm_compute in Hb. discriminate Hb.
Qed.

(** [False] compares equal to [0], so a stored [False] counts as blank and
    is replaced; the stored term structure 0.5 is kept. *)
Example merge_sample_fields :
  merged_sample !! "avg_volume" = Some (VBool true) /\
  merged_sample !! "expected_move" = Some (VStr "4.2%") /\
  merged_sample !! "term_structure" = Some (VFloat Samples.f_0_5) /\
  merged_sample !! "ticker" = Some (VStr "AAPL").
Proof. vm_compute. repeat split. Qed.

End CacheMergeFacts.

(** * Further properties of the code *)

(** ** Proxy pool *)

Section PoolFacts.

Import Proxy PoolInvariant.

(** X1. [get_proxy] and [rotate_proxy] never touch the pool or the enabled
    flag; whatever the draw, a proxy they return belongs to the pool and
    has become the current one, and the current proxy stays inside the
    pool. *)
Theorem current_stays_in_pool (rnd : nat) (pm : ProxyManager) :
  current_in_pool pm ->
  (proxies (get_proxy rnd pm).2 = proxies pm /\
   proxy_enabled (get_proxy rnd pm).2 = proxy_enabled pm /\
   current_in_pool (get_proxy rnd pm).2 /\
   (forall c, (get_proxy rnd pm).1 = Some c ->
      c ∈ proxies pm /\ current_proxy (get_proxy rnd pm).2 = Some c)) /\
  (proxies (rotate_proxy rnd pm).2 = proxies pm /\
   proxy_enabled (rotate_proxy rnd pm).2 = proxy_enabled pm /\
   current_in_pool (rotate_proxy rnd pm).2 /\
   (forall c, (rotate_proxy rnd pm).1 = Some c ->
      c ∈ proxies pm /\ current_proxy (rotate_proxy rnd pm).2 = Some c)).
Proof.
  intros Hinv.
  assert (Hsame : forall r : option proxy * ProxyManager,
            r = (None, pm) ->
            proxies r.2 = proxies pm /\ proxy_enabled r.2 = proxy_enabled pm /\
            current_in_pool r.2 /\
            (forall c, r.1 = Some c ->
               c ∈ proxies pm /\ current_proxy r.2 = Some c)).
  { intros r ->. simpl. repeat split; auto; discriminate. }
  assert (Hset : forall (r : option proxy * ProxyManager) c,
            c ∈ proxies pm -> r = (Some c, set_current pm c) ->
            proxies r.2 = proxies pm /\ proxy_enabled r.2 = proxy_enabled pm /\
            current_in_pool r.2 /\
            (forall c', r.1 = Some c' ->
               c' ∈ proxies pm /\ current_proxy r.2 = Some c')).
  { intros r c Hc ->. simpl. split; [reflexivity|]. split; [reflexivity|]. split.
    - intros c' Hc'. simpl in Hc'. injection Hc' as <-. exact Hc.
    - intros c' Hc'. injection Hc' as <-. split; [exact Hc | reflexivity]. }
  split.
  - unfold get_proxy. destruct (proxy_enabled pm);
      [|exact (Hsame (None, pm) eq_refl)].
    destruct (proxies pm) as [|p0 rest] eqn:Ep;
      [exact (Hsame (None, pm) eq_refl)|].
    refine (Hset (Some _, _) _ _ eq_refl). apply random_choice_elem_of.
  - unfold rotate_proxy.
    destruct (negb (proxy_enabled pm) || (length (proxies pm) <=? 1)%nat);
      [exact (Hsame (None, pm) eq_refl)|].
    destruct (available pm) as [|p0 rest] eqn:Ea;
      [exact (Hsame (None, pm) eq_refl)|].
    refine (Hset (Some _, _) _ _ eq_refl).
    apply (elem_of_available pm). rewrite Ea. apply random_choice_elem_of.
Qed.

Lemma current_stays_in_pool_witness :
  current_in_pool (get_proxy 3 Samples.pool2).2 /\
  current_in_pool (rotate_proxy 3 Samples.pool2).2.
Proof.
  assert (H : current_in_pool Samples.pool2).
  { intros c Hc. injection Hc as <-. left. }
  destruct (current_stays_in_pool 3 Samples.pool2 H)
    as [(_ & _ & H1 & _) (_ & _ & H2 & _)].
  split; [exact H1 | exact H2].
Defined.

Lemma collect_valid_elem (max_proxies : nat) (validate_proxy : proxy -> bool)
    (completed valid : list proxy) (p : proxy) :
  p ∈ collect_valid max_proxies validate_proxy completed valid ->
  p ∈ valid \/ (p ∈ completed /\ validate_proxy p = true).
Proof.
  revert valid. induction completed as [|q rest IH]; intros valid; simpl.
  - auto.
  - destruct (validate_proxy q) eqn:Hq.
    + destruct (max_proxies <=? length (valid ++ [q]))%nat.
      * intros [H|H%list_elem_of_singleton]%elem_of_app; [auto|].
        subst. right. split; [left | exact Hq].
      * intros [[H|H%list_elem_of_singleton]%elem_of_app|[H1 H2]]%IH; [auto| |].
        -- subst. right. split; [left | exact Hq].
        -- right. split; [right; exact H1 | exact H2].
    + intros [H|[H1 H2]]%IH; [auto|].
      right. split; [right; exact H1 | exact H2].
Qed.

Lemma collect_valid_length (max_proxies : nat) (validate_proxy : proxy -> bool)
    (completed valid : list proxy) :
  (length valid < Nat.max 1 max_proxies)%nat ->
  (length (collect_valid max_proxies validate_proxy completed valid)
     <= Nat.max 1 max_proxies)%nat.
Proof.
  revert valid. induction completed as [|q rest IH]; intros valid Hlt; simpl.
  - lia.
  - destruct (validate_proxy q); [|apply IH, Hlt].
    destruct (Nat.leb_spec max_proxies (length (valid ++ [q]))) as [H|H].
    + rewrite length_app. simpl. lia.
    + apply IH. lia.
Qed.

Lemma collect_valid_under_cap (max_proxies : nat) (validate_proxy : proxy -> bool)
    (completed valid : list proxy) :
  (length (valid ++ filter (fun p => validate_proxy p = true) completed)
     < max_proxies)%nat ->
  collect_valid max_proxies validate_proxy completed valid
    = valid ++ filter (fun p => validate_proxy p = true) completed.
Proof.
  revert valid. induction completed as [|q rest IH]; intros valid Hlt; simpl.
  - rewrite app_nil_r. reflexivity.
  - destruct (validate_proxy q) eqn:Hq.
    + rewrite filter_cons_True in Hlt |- * by exact Hq.
      destruct (Nat.leb_spec max_proxies (length (valid ++ [q]))) as [H|H].
      * rewrite !length_app in Hlt. rewrite length_app in H.
        simpl in Hlt, H. lia.
      * rewrite IH; rewrite <- app_assoc; [reflexivity | exact Hlt].
    + rewrite filter_cons_False in Hlt |- * by congruence. apply IH. exact Hlt.
Qed.

Lemma dict_put_member (d : list (string * proxy)) (p : proxy) :
  (http p, p) ∈ dict_put d p.
Proof.
  induction d as [|[k q] d IH]; simpl; [left|].
  destruct (String.eqb_spec k (http p)) as [->|Hne]; [left | right; exact IH].
Qed.

Lemma dict_put_keeps (d : list (string * proxy)) (p : proxy) (a : string)
    (q : proxy) :
  (a, q) ∈ d -> a <> http p -> (a, q) ∈ dict_put d p.
Proof.
  intros Hin Hne. induction d as [|[k r] d IH]; simpl; [inversion Hin|].
  apply elem_of_cons in Hin as [Heq|Hin].
  - injection Heq as <- <-.
    destruct (String.eqb_spec a (http p)); [contradiction | left].
  - destruct (String.eqb_spec k (http p)); right; auto.
Qed.

Lemma comprehension_values (candidates : list proxy) (d : list (string * proxy))
    (p : proxy) :
  p ∈ (foldl dict_put d candidates).*2 -> p ∈ d.*2 \/ p ∈ candidates.
Proof.
  revert d. induction candidates as [|q l IH]; intros d; simpl; [auto|].
  intros [H|H]%IH; [|right; right; exact H].
  assert (Hput : forall d', p ∈ (dict_put d' q).*2 -> p ∈ d'.*2 \/ p = q).
  { induction d' as [|[k r] d' IHd]; simpl.
    - intros ->%list_elem_of_singleton. auto.
    - destruct (String.eqb k (http q)); rewrite !fmap_cons; cbn [snd];
        intros [->|Hin]%elem_of_cons; auto.
      + left. right. exact Hin.
      + left. left.
      + destruct (IHd Hin) as [?|?]; auto. left. right. assumption. }
  destruct (Hput d H) as [?| ->]; [auto | right; left].
Qed.

Lemma comprehension_last (l2 : list proxy) (d : list (string * proxy))
    (p : proxy) :
  (http p, p) ∈ d -> http p ∉ http <$> l2 ->
  (http p, p) ∈ foldl dict_put d l2.
Proof.
  revert d. induction l2 as [|q l2 IH]; intros d Hin Hnot; simpl; [exact Hin|].
  rewrite fmap_cons in Hnot. apply not_elem_of_cons in Hnot as [Hne Hnot].
  apply IH; [|exact Hnot]. apply dict_put_keeps; assumption.
Qed.

Lemma comprehension_keys (candidates : list proxy) (d : list (string * proxy))
    (a : string) :
  a ∈ (foldl dict_put d candidates).*1 <-> a ∈ d.*1 \/ a ∈ http <$> candidates.
Proof.
  revert d. induction candidates as [|q l IH]; intros d; cbn [foldl].
  - split; [auto|]. intros [H|H]; [exact H | inversion H].
  - rewrite IH, dict_put_keys, fmap_cons, elem_of_cons.
    destruct (decide (http q ∈ d.*1)) as [Hq|Hq].
    + split; [tauto|]. intros [H|[->|H]]; auto.
    + rewrite elem_of_app, list_elem_of_singleton. tauto.
Qed.

Lemma dedup_candidates_subset (candidates : list proxy) (p : proxy) :
  p ∈ dedup_candidates candidates -> p ∈ candidates.
Proof.
  intros Hp. unfold dedup_candidates in Hp.
  apply comprehension_values in Hp as [H|H]; [inversion H | exact H].
Qed.

(** X2. The candidates kept for validation carry pairwise different
    addresses, exactly the addresses of the fetched candidates; each of
    them is a fetched candidate, and of several candidates with one
    address it is the last one fetched that is kept. *)
Theorem dedup_candidates_spec (candidates : list proxy) :
  NoDup (http <$> dedup_candidates candidates) /\
  (forall a, a ∈ http <$> dedup_candidates candidates <-> a ∈ http <$> candidates) /\
  (forall p, p ∈ dedup_candidates candidates -> p ∈ candidates) /\
  (forall l1 p l2, candidates = l1 ++ p :: l2 -> http p ∉ http <$> l2 ->
     p ∈ dedup_candidates candidates).
Proof.
  split; [apply dedup_candidates_NoDup|]. split; [|split].
  - intros a. unfold dedup_candidates.
    destruct (comprehension_invariant candidates []) as [_ Hk];
      [constructor | constructor |].
    rewrite <- (keys_are_addresses _ Hk), comprehension_keys.
    split; [intros [H|H]; [inversion H | exact H] | auto].
  - intros p. apply dedup_candidates_subset.
  - intros l1 p l2 -> Hnot. unfold dedup_candidates.
    rewrite foldl_app. simpl.
    apply (list_elem_of_fmap_2 snd _ (http p, p)).
    apply comprehension_last; [apply dict_put_member | exact Hnot].
Qed.

(** X3. Whatever the order in which the validations finish, the pool that
    [build_valid_proxy_pool] installs holds no address twice, holds only
    fetched candidates that passed validation, holds at most
    [max(1, max_proxies)] of them, and holds every candidate that passed
    when these are fewer than [max_proxies]; the current proxy and the
    enabled flag are left as they were. *)
Theorem build_valid_proxy_pool_spec (max_proxies : nat)
    (validate_proxy : proxy -> bool) (candidates completed : list proxy)
    (pm : ProxyManager) :
  completed ≡ₚ dedup_candidates candidates ->
  let pm' := build_valid_proxy_pool max_proxies validate_proxy completed pm in
  NoDup (http <$> proxies pm') /\
  Forall (fun p => validate_proxy p = true /\ p ∈ candidates) (proxies pm') /\
  (length (proxies pm') <= Nat.max 1 max_proxies)%nat /\
  ((length (filter (fun p => validate_proxy p = true) completed) < max_proxies)%nat ->
     proxies pm' = filter (fun p => validate_proxy p = true) completed) /\
  current_proxy pm' = current_proxy pm /\
  proxy_enabled pm' = proxy_enabled pm.
Proof.
  intros Hp pm'. subst pm'. simpl.
  pose proof (dedup_candidates_NoDup candidates) as Hnd.
  pose proof (dedup_candidates_subset candidates) as Hsub.
  split; [|split; [|split; [|split; [|split; reflexivity]]]].
  - eapply sublist_NoDup; [|apply fmap_sublist, collect_valid_sublist].
    simpl. rewrite Hp. exact Hnd.
  - apply Forall_forall. intros p Hin.
    apply collect_valid_elem in Hin as [Hin|[Hin Hv]]; [inversion Hin|].
    split; [exact Hv|]. apply Hsub. rewrite <- Hp. exact Hin.
  - apply collect_valid_length. simpl. lia.
  - intros Hlt. apply (collect_valid_under_cap _ _ _ []). exact Hlt.
Qed.

(** X4. Rebuilding the pool does not look at the current proxy: when the
    current proxy fails the new validation it stays current although the
    new pool does not hold it. *)
Theorem rebuild_leaves_stale_current (max_proxies : nat)
    (validate_proxy : proxy -> bool) (completed : list proxy)
    (pm : ProxyManager) (c : proxy) :
  current_proxy pm = Some c ->
  validate_proxy c = false ->
  let pm' := build_valid_proxy_pool max_proxies validate_proxy completed pm in
  current_proxy pm' = Some c /\ (c ∉ proxies pm') /\ ~ current_in_pool pm'.
Proof.
  intros Hc Hv pm'. subst pm'. simpl.
  assert (Hnot : c ∉ collect_valid max_proxies validate_proxy completed []).
  { intros [Hin|[_ Hv']]%collect_valid_elem; [inversion Hin | congruence]. }
  split; [exact Hc|]. split; [exact Hnot|].
  intros Hinv. apply Hnot. apply (Hinv c). exact Hc.
Qed.

Lemma build_valid_proxy_pool_spec_witness :
  proxies (build_valid_proxy_pool 50 (fun _ => true)
             (dedup_candidates [Samples.proxy_a; Samples.proxy_b; Samples.proxy_a])
             Samples.pool1)
  = [Samples.proxy_a; Samples.proxy_b].
Proof.
  destruct (build_valid_proxy_pool_spec 50 (fun _ => true)
              [Samples.proxy_a; Samples.proxy_b; Samples.proxy_a]
              (dedup_candidates [Samples.proxy_a; Samples.proxy_b; Samples.proxy_a])
              Samples.pool1 (Permutation_refl _))
    as (_ & _ & _ & H & _).
  rewrite H; [reflexivity|]. vm_compute. lia.
Defined.

Lemma rebuild_leaves_stale_current_witness :
  current_proxy (build_valid_proxy_pool 50 (fun _ => false)
                   [Samples.proxy_a; Samples.proxy_b] Samples.pool2)
    = Some Samples.proxy_a /\
  proxies (build_valid_proxy_pool 50 (fun _ => false)
             [Samples.proxy_a; Samples.proxy_b] Samples.pool2) = [].
Proof.
  destruct (rebuild_leaves_stale_current 50 (fun _ => false)
              [Samples.proxy_a; Samples.proxy_b] Samples.pool2 Samples.proxy_a
              eq_refl eq_refl) as (H & _ & _).
  split; [exact H | reflexivity].
Defined.

Lemma random_choice_index {A : Type} (i : nat) (p0 : A) (rest : list A) (c : A) :
  (p0 :: rest) !! i = Some c -> random_choice i p0 rest = c.
Proof.
  intros Hi. unfold random_choice.
  rewrite Nat.mod_small by (apply lookup_lt_Some in Hi; exact Hi).
  apply nth_lookup_Some. exact Hi.
Qed.

(** X5. On an enabled pool of at least two different proxies with a current
    proxy set, [rotate_session] always installs a session, bound to a proxy
    of the pool that is also the manager's current proxy; but the proxy is
    drawn afresh from the whole pool, so for every first draw some second
    draw binds the new session to the very proxy that was current before.
    With the pool disabled the session manager is left untouched. *)
Theorem rotate_session_rebinds (sm : SessionManager) (c : proxy) :
  (proxy_enabled (proxy_manager sm) = false ->
   forall rnd1 rnd2, rotate_session rnd1 rnd2 sm = sm) /\
  (proxy_enabled (proxy_manager sm) = true ->
   NoDup (proxies (proxy_manager sm)) ->
   (2 <= length (proxies (proxy_manager sm)))%nat ->
   current_proxy (proxy_manager sm) = Some c ->
   c ∈ proxies (proxy_manager sm) ->
   (forall rnd1 rnd2,
      let sm' := rotate_session rnd1 rnd2 sm in
      exists p, bound_proxy (session sm') = Some p /\
                current_proxy (proxy_manager sm') = Some p /\
                p ∈ proxies (proxy_manager sm) /\
                proxies (proxy_manager sm') = proxies (proxy_manager sm)) /\
   (forall rnd1, exists rnd2,
      bound_proxy (session (rotate_session rnd1 rnd2 sm)) = Some c)).
Proof.
  split.
  { intros Hd rnd1 rnd2. unfold rotate_session. rewrite Hd. reflexivity. }
  intros Hen Hnd Hlen Hc Hin.
  pose proof (available_nonempty _ Hnd Hlen) as Hav.
  assert (Hrot : forall rnd1, exists c',
             rotate_proxy rnd1 (proxy_manager sm)
             = (Some c', set_current (proxy_manager sm) c')).
  { intros rnd1. unfold rotate_proxy. rewrite Hen. simpl.
    destruct (Nat.leb_spec (length (proxies (proxy_manager sm))) 1); [lia|].
    destruct (available (proxy_manager sm)) as [|p0 rest]; [congruence|].
    eexists. reflexivity. }
  destruct (proxies (proxy_manager sm)) as [|p0 rest] eqn:Ep;
    [simpl in Hlen; lia|].
  assert (Hnew : forall rnd1 rnd2,
             rotate_session rnd1 rnd2 sm
             = {| proxy_manager :=
                    set_current (proxy_manager sm) (random_choice rnd2 p0 rest);
                  session := {| bound_proxy := Some (random_choice rnd2 p0 rest) |} |}).
  { intros rnd1 rnd2. unfold rotate_session. rewrite Hen.
    destruct (Hrot rnd1) as [c' ->].
    unfold _create_session, get_proxy. simpl. rewrite Hen, Ep. simpl.
    unfold set_current. simpl. rewrite Ep. reflexivity. }
  split.
  - intros rnd1 rnd2 sm'. subst sm'. rewrite Hnew. simpl.
    exists (random_choice rnd2 p0 rest).
    split; [reflexivity|]. split; [reflexivity|].
    split; [apply random_choice_elem_of | exact Ep].
  - intros rnd1. apply list_elem_of_lookup in Hin as [i Hi].
    exists i. rewrite Hnew. simpl. f_equal.
    apply random_choice_index. exact Hi.
Qed.

Lemma rotate_session_rebinds_witness :
  exists rnd2,
    bound_proxy (session (rotate_session 0 rnd2
                   {| proxy_manager := Samples.pool2;
                      session := {| bound_proxy := Some Samples.proxy_a |} |}))
    = Some Samples.proxy_a.
Proof.
  refine (proj2 (proj2 (rotate_session_rebinds
                          {| proxy_manager := Samples.pool2;
                             session := {| bound_proxy := Some Samples.proxy_a |} |}
                          Samples.proxy_a) eq_refl _ (le_n 2) eq_refl _) 0%nat).
  - apply (bool_decide_unpack _). vm_compute. exact I.
  - left.
Defined.

End PoolFacts.

(** ** Term structure: inside the data, failures, and the sort *)

Section TermStructureMore.

Import TermStructure.

Lemma sorted_days_bounds (days : list Z) :
  days <> [] ->
  exists d_lo d_hi,
    head (sorted_days days) = Some d_lo /\ last (sorted_days days) = Some d_hi /\
    Forall (fun d => d_lo <= d <= d_hi) days.
Proof.
  intros Hne. unfold sorted_days.
  pose proof (argsort_sorted days) as Hs.
  pose proof (argsort_nonempty days Hne) as Hidx.
  destruct (last (argsort days)) as [il|] eqn:El;
    [|apply last_None in El; contradiction].
  destruct (argsort days) as [|i0 rest] eqn:Eidx; [congruence|].
  exists (key days i0), (key days il).
  split; [reflexivity|]. split; [rewrite fmap_last, El; reflexivity|].
  apply Forall_forall. intros d Hd.
  destruct (day_has_index days d Hd) as (j & Hj & <-). rewrite Eidx in Hj.
  pose proof (sorted_last_max days _ il Hs El) as Hmax.
  rewrite Forall_forall in Hmax. split; [|exact (Hmax j Hj)].
  inversion Hs as [|? ? _ Hall]; subst.
  apply elem_of_cons in Hj as [->|Hj]; [lia|].
  rewrite Forall_forall in Hall. exact (Hall j Hj).
Qed.

(** X6. Between the smallest and the largest input day, both included, the
    term structure is the value of the interpolant: the boundary values are
    used only strictly outside the data. *)
Theorem term_structure_interior
    (interp1d : list Z -> list float -> option (Z -> float))
    (days : list Z) (ivs : list float) (f : Z -> float) (dte : Z) :
  length ivs = length days ->
  interp1d (sorted_days days) (sorted_ivs days ivs) = Some f ->
  (exists d, d ∈ days /\ d <= dte) ->
  (exists d, d ∈ days /\ dte <= d) ->
  build_term_structure interp1d days ivs dte = Some (f dte).
Proof.
  intros Hlen Hf (d1 & Hd1 & Hle1) (d2 & Hd2 & Hle2).
  assert (Hne : days <> []) by (intros ->; inversion Hd1).
  unfold build_term_structure.
  rewrite (try_build_eq interp1d days ivs Hlen), Hf. cbn.
  destruct (sorted_days_bounds days Hne) as (d_lo & d_hi & Hh & Hl & Hall).
  rewrite Forall_forall in Hall.
  unfold tspline. rewrite Hh. cbn.
  destruct (Z.ltb_spec dte d_lo) as [H|_];
    [specialize (Hall d1 Hd1); lia|].
  rewrite Hl. cbn.
  destruct (Z.ltb_spec d_hi dte) as [H|_];
    [specialize (Hall d2 Hd2); lia | reflexivity].
Qed.

Lemma term_structure_interior_witness :
  build_term_structure linear_interp1d Samples.days3 Samples.ivs3 7
  = Some Samples.f_0_75.
Proof.
  destruct (linear_interp1d (sorted_days Samples.days3)
              (sorted_ivs Samples.days3 Samples.ivs3)) as [f|] eqn:Ef;
    [|discriminate Ef].
  rewrite (term_structure_interior linear_interp1d Samples.days3 Samples.ivs3
             f 7 eq_refl Ef).
  - injection Ef as <-. vm_compute. reflexivity.
  - exists 7. split; [right; left | lia].
  - exists 30. split; [left | lia].
Defined.

(** X7. On a non-empty list of days the term structure never raises,
    whatever the volatility list and whatever the interpolant constructor
    does; and when fewer volatilities than days are given it is NaN at
    every day count. *)
Theorem term_structure_total
    (interp1d : list Z -> list float -> option (Z -> float))
    (days : list Z) (ivs : list float) (dte : Z) :
  days <> [] ->
  is_Some (build_term_structure interp1d days ivs dte) /\
  ((length ivs < length days)%nat ->
     build_term_structure interp1d days ivs dte = Some nan).
Proof.
  intros Hne. unfold build_term_structure, try_build.
  rewrite (take_idx_in_range days 0) by apply argsort_in_range.
  change ((fun i => nth i days 0) <$> argsort days) with (sorted_days days).
  cbn. split.
  - destruct (take_idx ivs (argsort days)) as [va|] eqn:Eva; cbn; [|eauto].
    destruct (interp1d _ va) as [f|]; cbn; [|eauto].
    apply length_mapM in Eva.
    destruct (sorted_days_bounds days Hne) as (d_lo & d_hi & Hh & Hl & _).
    unfold tspline. rewrite Hh. cbn.
    destruct (argsort days) as [|i0 rest] eqn:Eidx;
      [exfalso; exact (argsort_nonempty days Hne Eidx)|].
    destruct va as [|v0 va]; [discriminate Eva|].
    destruct (dte <? d_lo); [eauto|]. rewrite Hl. cbn.
    destruct (d_hi <? dte); [|eauto].
    destruct (last (v0 :: va)) eqn:E; [eauto|].
    apply last_None in E. discriminate E.
  - intros Hlt.
    assert (Hnone : take_idx ivs (argsort days) = None).
    { apply mapM_None_2, Exists_exists.
      exists (pred (length days)). split.
      - rewrite argsort_perm. apply elem_of_seq. lia.
      - apply lookup_ge_None. lia. }
    rewrite Hnone. reflexivity.
Qed.

Lemma term_structure_total_witness :
  build_term_structure linear_interp1d Samples.days3 [Samples.f_0_5] 30
  = Some nan.
Proof.
  refine (proj2 (term_structure_total linear_interp1d Samples.days3
                   [Samples.f_0_5] 30 _) _).
  - discriminate.
  - vm_compute. lia.
Defined.

Lemma zip_seq_nth {A B : Type} (l1 : list A) (l2 : list B) (d1 : A) (d2 : B) :
  length l2 = length l1 ->
  (fun i => (nth i l1 d1, nth i l2 d2)) <$> seq 0 (length l1) = zip l1 l2.
Proof.
  revert l2. induction l1 as [|a l1 IH]; intros [|b l2] Hlen;
    try discriminate; [reflexivity|].
  simpl. f_equal. rewrite <- fmap_S_seq, <- list_fmap_compose.
  apply IH. simpl in Hlen. lia.
Qed.

Lemma zip_fmap_same {A B C : Type} (f : C -> A) (g : C -> B) (l : list C) :
  zip (f <$> l) (g <$> l) = (fun i => (f i, g i)) <$> l.
Proof.
  induction l as [|x l IH]; [reflexivity|].
  rewrite !fmap_cons. cbn [zip_with]. f_equal. exact IH.
Qed.

(** X8. The sort behind the term structure reorders days and volatilities
    together: the sorted days ascend, and the sorted (day, volatility)
    pairs are the input pairs in another order. *)
Theorem argsort_keeps_pairs (days : list Z) (ivs : list float) :
  length ivs = length days ->
  StronglySorted Z.le (sorted_days days) /\
  zip (sorted_days days) (sorted_ivs days ivs) ≡ₚ zip days ivs /\
  sorted_days days ≡ₚ days.
Proof.
  intros Hlen. split; [|split].
  - unfold sorted_days.
    apply (StronglySorted_fmap (key days) (day_le days) Z.le);
      [intros x y H; exact H | apply argsort_sorted].
  - unfold sorted_days, sorted_ivs. rewrite zip_fmap_same, argsort_perm.
    unfold key. rewrite zip_seq_nth by exact Hlen. reflexivity.
  - unfold sorted_days. rewrite argsort_perm. unfold key.
    clear Hlen. induction days as [|d days IH]; [reflexivity|].
    simpl. rewrite <- fmap_S_seq, <- list_fmap_compose. simpl.
    constructor. exact IH.
Qed.

Lemma argsort_keeps_pairs_witness :
  zip (sorted_days Samples.days3) (sorted_ivs Samples.days3 Samples.ivs3)
  ≡ₚ zip Samples.days3 Samples.ivs3.
Proof.
  exact (proj1 (proj2 (argsort_keeps_pairs Samples.days3 Samples.ivs3 eq_refl))).
Defined.

End TermStructureMore.

(** ** Provider calls of the recommendation *)

Section FetchMore.

Import Fetch FetchLog.

Context {chain R : Type}.
Variable provider_options : trace -> string -> option (list string).
Variable provider_chain : trace -> string -> option chain.
Variable strip_upper : string -> string.
Variable filter_dates : list string -> list string.
Variable analyse : string -> list (string * chain) -> M (reply R).

Local Abbreviation fetch_expiry := (Fetch.fetch_expiry chain provider_chain).
Local Abbreviation fetch_chains := (Fetch.fetch_chains chain provider_chain).
Local Abbreviation attempt_body :=
  (Fetch.attempt_body chain R provider_options provider_chain
     strip_upper filter_dates analyse).
Local Abbreviation compute_recommendation :=
  (Fetch.compute_recommendation chain R provider_options provider_chain
     strip_upper filter_dates analyse).

(** X9. Input errors are answered at once: an empty symbol gives its
    error marker without any provider call, and a ticker without option
    expiries gives its error marker after the single request for the
    expiries, without rotation or second attempt. *)
Theorem input_errors_answered_at_once (symbol : string) (tr : trace) :
  (strip_upper symbol = "" ->
     compute_recommendation symbol tr
     = (Ok (Some (Error "No symbol provided.")), tr)) /\
  (strip_upper symbol <> "" ->
   provider_options tr (strip_upper symbol) = Some [] ->
     compute_recommendation symbol tr
     = (Ok (Some (Error ("No options for " +:+ strip_upper symbol +:+ "."))),
        EvOptions (strip_upper symbol) :: tr)).
Proof.
  split.
  - intros He.
    assert (Hb : attempt_body symbol tr = (Ok (Error "No symbol provided."), tr)).
    { unfold Fetch.attempt_body. rewrite He. reflexivity. }
    unfold Fetch.compute_recommendation. simpl seq.
    apply (attempts_ok provider_options provider_chain strip_upper filter_dates
             analyse _ _ _ _ _ _ Hb).
  - intros Hne Hopt.
    assert (Hb : attempt_body symbol tr
                 = (Ok (Error ("No options for " +:+ strip_upper symbol +:+ ".")),
                    EvOptions (strip_upper symbol) :: tr)).
    { unfold Fetch.attempt_body.
      destruct (String.eqb_spec (strip_upper symbol) "") as [He|_];
        [contradiction|].
      unfold mbind, fetch_bind, bind, ticker_options. rewrite Hopt. reflexivity. }
    unfold Fetch.compute_recommendation. simpl seq.
    apply (attempts_ok provider_options provider_chain strip_upper filter_dates
             analyse _ _ _ _ _ _ Hb).
Qed.

Lemma fetch_expiry_log (e : string) (tr : trace) :
  exists added,
    (fetch_expiry e tr).2 = added ++ tr /\
    (count_events is_chain added <= 2)%nat /\
    (count_events is_rotate added <= 1)%nat /\
    count_events is_options added = O.
Proof.
  destruct (provider_chain tr e) as [c|] eqn:E1.
  - rewrite (fetch_expiry_first provider_chain e tr c E1).
    exists [EvChain e]. cbn. split; [reflexivity|]. repeat split; lia.
  - rewrite (fetch_expiry_second provider_chain e tr E1).
    exists [EvChain e; EvRotate; EvChain e].
    destruct (provider_chain (EvRotate :: EvChain e :: tr) e); cbn;
      (split; [reflexivity|]); repeat split; lia.
Qed.

Lemma count_events_app (P : event -> bool) (l1 l2 : trace) :
  count_events P (l1 ++ l2) = (count_events P l1 + count_events P l2)%nat.
Proof. induction l1 as [|ev l1 IH]; simpl; [reflexivity | rewrite IH; lia]. Qed.

(** X10. Whatever the provider does, the loop over the expiries asks for
    at most two chains and rotates the session at most once per expiry, and
    never asks for the list of expiries. *)
Theorem fetch_chains_call_bound (exps : list string) (oc : list (string * chain))
    (tr : trace) :
  exists added,
    (fetch_chains exps oc tr).2 = added ++ tr /\
    (count_events is_chain added <= 2 * length exps)%nat /\
    (count_events is_rotate added <= length exps)%nat /\
    count_events is_options added = O.
Proof.
  revert oc tr. induction exps as [|e exps IH]; intros oc tr.
  - exists []. simpl. repeat split; lia.
  - destruct (fetch_expiry_log e tr) as (a1 & H1 & Hc1 & Hr1 & Ho1).
    cbn [Fetch.fetch_chains]. unfold mbind, fetch_bind, bind.
    destruct (fetch_expiry e tr) as [[c|msg] tr1] eqn:E; simpl in H1; subst tr1.
    + destruct (IH (dict_set oc e c) (a1 ++ tr)) as (a2 & H2 & Hc2 & Hr2 & Ho2).
      exists (a2 ++ a1). rewrite H2, <- app_assoc, !count_events_app.
      simpl length. repeat split; lia.
    + exists a1. simpl. repeat split; lia.
Qed.

Lemma dict_get_set_eq {V : Type} (oc : list (string * V)) (e : string) (c : V) :
  dict_get (dict_set oc e c) e = Some c.
Proof.
  induction oc as [|[e' c'] oc IH]; simpl.
  - rewrite String.eqb_refl. reflexivity.
  - destruct (String.eqb e' e) eqn:E; simpl; rewrite E; [reflexivity | exact IH].
Qed.

Lemma dict_get_set_ne {V : Type} (oc : list (string * V)) (e e' : string) (c : V) :
  e <> e' -> dict_get (dict_set oc e c) e' = dict_get oc e'.
Proof.
  intros Hne. induction oc as [|[k c'] oc IH]; simpl.
  - destruct (String.eqb_spec e e'); [contradiction | reflexivity].
  - destruct (String.eqb_spec k e) as [->|Hk]; simpl.
    + destruct (String.eqb_spec e e'); [contradiction | reflexivity].
    + destruct (String.eqb k e'); [reflexivity | exact IH].
Qed.

Lemma dict_set_keys {V : Type} (oc : list (string * V)) (e : string) (c : V) :
  (dict_set oc e c).*1 = if decide (e ∈ oc.*1) then oc.*1 else oc.*1 ++ [e].
Proof.
  induction oc as [|[k c'] oc IH]; cbn [dict_set].
  - destruct (decide (e ∈ ([] : list (string * V)).*1)) as [Hin|_];
      [|reflexivity].
    apply not_elem_of_nil in Hin. contradiction.
  - rewrite !fmap_cons. cbn [fst].
    destruct (String.eqb_spec k e) as [->|Hne].
    + rewrite decide_True by left. reflexivity.
    + rewrite fmap_cons, IH. cbn [fst].
      destruct (decide (e ∈ oc.*1)) as [Hin|Hin].
      * rewrite decide_True by (right; exact Hin). reflexivity.
      * rewrite decide_False; [reflexivity|].
        intros [?|?]%elem_of_cons; congruence.
Qed.

(** X11. When no chain request for the expiries fails, the loop asks once
    per expiry, in order, without rotating; afterwards every expiry has its
    chain in the dictionary, the entries of other keys are as before, and
    no key occurs twice. *)
Theorem fetch_chains_without_failure (exps : list string)
    (oc : list (string * chain)) (tr : trace) :
  (forall tr' e, e ∈ exps -> is_Some (provider_chain tr' e)) ->
  exists oc',
    fetch_chains exps oc tr = (Ok oc', (EvChain <$> reverse exps) ++ tr) /\
    (forall e, e ∈ exps -> is_Some (dict_get oc' e)) /\
    (forall e, e ∉ exps -> dict_get oc' e = dict_get oc e) /\
    (NoDup oc.*1 -> NoDup oc'.*1).
Proof.
  revert oc tr. induction exps as [|e exps IH]; intros oc tr Hok.
  - exists oc. repeat split; auto. intros e He. inversion He.
  - destruct (Hok tr e ltac:(left)) as [c Hc].
    destruct (IH (dict_set oc e c) (EvChain e :: tr)) as (oc' & Hrun & Hin & Hout & Hnd).
    { intros tr' e' He'. apply Hok. right. exact He'. }
    exists oc'. split; [|split; [|split]].
    + cbn [Fetch.fetch_chains].
      rewrite (bind_ok _ _ _ _ _ (fetch_expiry_first provider_chain e tr c Hc)).
      rewrite Hrun, reverse_cons, fmap_app, <- app_assoc. reflexivity.
    + intros e' [->|He']%elem_of_cons.
      * destruct (decide (e ∈ exps)) as [Hd|Hd]; [exact (Hin e Hd)|].
        rewrite (Hout e Hd), dict_get_set_eq. eauto.
      * exact (Hin e' He').
    + intros e' Hn. apply not_elem_of_cons in Hn as [Hne Hn].
      rewrite (Hout e' Hn). apply dict_get_set_ne. congruence.
    + intros Hd. apply Hnd. rewrite dict_set_keys.
      destruct (decide (e ∈ oc.*1)) as [Hi|Hi]; [exact Hd|].
      apply NoDup_app. split; [exact Hd|]. split; [|apply NoDup_singleton].
      intros x Hx ->%list_elem_of_singleton. contradiction.
Qed.

End FetchMore.

Section FetchMoreExamples.

Import Fetch FetchLog.

Lemma input_errors_answered_at_once_witness :
  Samples.recommend_first_down "" [] = (Ok (Some (Error "No symbol provided.")), []).
Proof.
  apply (proj1 (input_errors_answered_at_once Samples.two_expiries
                  Samples.first_expiry_down (fun s => s) (fun l => l)
                  Samples.count_chains "" [])).
  reflexivity.
Defined.

Lemma fetch_chains_without_failure_witness :
  exists oc',
    Fetch.fetch_chains nat (fun _ _ => Some 7%nat) [Samples.exp1; Samples.exp2] [] []
    = (Ok oc', [EvChain Samples.exp2; EvChain Samples.exp1]).
Proof.
  destruct (fetch_chains_without_failure (fun _ _ => Some 7%nat)
              [Samples.exp1; Samples.exp2] [] [])
    as (oc' & H & _).
  - intros tr' e _. exists 7%nat. reflexivity.
  - exists oc'. exact H.
Defined.

End FetchMoreExamples.

(** ** Price and calendar retries *)

Section PriceFacts.

Import Fetch Price Retries.

Variable history : list call -> option frame.

(** X12. [get_current_price] asks for the price history at most three
    times, rotating the session after each of the first two failures; it
    returns the price of the first request that can be read, and raises
    only when the third request fails too, passing on that failure's
    message. It never falls off its loop. *)
Theorem get_current_price_spec (log : list call) :
  exists k,
    (k <= 2)%nat /\
    (get_current_price history log).2 = History :: price_log_after k log /\
    (forall j, (j < k)%nat ->
       exists msg, one_read history (price_log_after j log) = Raised msg) /\
    match (get_current_price history log).1 with
    | Ok (Some x) => one_read history (price_log_after k log) = Ok x
    | Ok None => False
    | Raised m =>
        k = 2%nat /\
        exists msg, one_read history (price_log_after 2 log) = Raised msg /\
                    m = "Cannot get price: " +:+ msg
    end.
Proof.
  unfold get_current_price. simpl seq. cbn [price_loop].
  destruct (one_read history log) as [x0|m0] eqn:E0.
  { exists 0%nat. simpl. repeat split; [lia | lia | exact E0]. }
  simpl Nat.ltb. cbn iota.
  destruct (one_read history (Rotate :: History :: log)) as [x1|m1] eqn:E1.
  { exists 1%nat. simpl. repeat split; [lia | | exact E1].
    intros j Hj. assert (j = 0%nat) as -> by lia. eauto. }
  destruct (one_read history (Rotate :: History :: Rotate :: History :: log))
    as [x2|m2] eqn:E2.
  { exists 2%nat. simpl. repeat split; [lia | | exact E2].
    intros j Hj. destruct j as [|[|j]]; [eauto | eauto | lia]. }
  exists 2%nat. simpl. repeat split; [lia | | eauto].
  intros j Hj. destruct j as [|[|j]]; [eauto | eauto | lia].
Qed.

End PriceFacts.

Section CalendarFacts.

Import Calendar Retries.

Variable calendar : list call -> string -> option (list row).

Lemma timing_of_label (tip : option string) : timing_of tip ∈ timing_labels.
Proof.
  unfold timing_of, timing_labels.
  destruct tip as [t|]; [|right; right; left].
  destruct (String.eqb t "Before market open"); [left|].
  destruct (String.eqb t "After market close"); [right; left | right; right; left].
Qed.

Lemma read_rows_ret (rows : list row) (times : gmap string string)
    (ret : list string) :
  (read_rows rows times ret).2 = ret ++ listed rows.
Proof.
  revert times ret. induction rows as [|r rows IH]; intros times ret.
  - simpl. rewrite app_nil_r. reflexivity.
  - unfold listed. cbn [read_rows omap list_omap].
    destruct (has_company r); cbn [negb]; [|apply IH].
    destruct (row_ticker r) as [t|]; [|apply IH].
    rewrite IH, <- app_assoc. reflexivity.
Qed.

Lemma read_rows_times (rows : list row) (times : gmap string string)
    (ret : list string) (t : string) :
  (t ∈ listed rows ->
     exists l, (read_rows rows times ret).1 !! t = Some l /\ l ∈ timing_labels) /\
  (t ∉ listed rows -> (read_rows rows times ret).1 !! t = times !! t).
Proof.
  revert times ret. induction rows as [|r rows IH]; intros times ret.
  - split; [intros H; inversion H | reflexivity].
  - unfold listed. cbn [read_rows omap list_omap].
    destruct (has_company r); cbn [negb]; [|apply IH].
    destruct (row_ticker r) as [t0|]; [|apply IH].
    fold (listed rows).
    destruct (IH (<[t0 := timing_of (tooltip r)]> times) (ret ++ [t0])) as [IH1 IH2].
    split.
    + intros Hin. destruct (decide (t ∈ listed rows)) as [Hd|Hd]; [auto|].
      apply elem_of_cons in Hin as [->|Hin]; [|contradiction].
      rewrite (IH2 Hd), lookup_insert_eq.
      eexists. split; [reflexivity | apply timing_of_label].
    + intros Hn. apply not_elem_of_cons in Hn as [Hne Hn].
      rewrite (IH2 Hn). apply lookup_insert_ne. congruence.
Qed.

(** X13. [fetch_earnings_data] sends at most three requests, rotating the
    session after each of the first two failures. The first reply that can
    be read gives the result: the tickers of its rows in order. When all
    three requests fail the result is the empty list, and the timing
    dictionary still holds what an earlier fetch left in it. *)
Theorem fetch_earnings_data_spec (date : string) (times : gmap string string)
    (log : list call) :
  exists k,
    (k <= 2)%nat /\
    (forall j, (j < k)%nat -> calendar (calendar_log_after j date log) date = None) /\
    match calendar (calendar_log_after k date log) date with
    | Some rows =>
        fetch_earnings_data calendar date times log
        = (listed rows, (read_rows rows ∅ []).1,
           Post date :: calendar_log_after k date log)
    | None =>
        k = 2%nat /\
        fetch_earnings_data calendar date times log
        = ([], times, Post date :: calendar_log_after 2 date log)
    end.
Proof.
  assert (Hok : forall rows lg,
            (let '(times', ret') := read_rows rows ∅ [] in
             (ret', times', Post date :: lg))
            = (listed rows, (read_rows rows ∅ []).1, Post date :: lg)
            :> list string * gmap string string * list call).
  { intros rows lg. pose proof (read_rows_ret rows ∅ []) as H.
    destruct (read_rows rows ∅ []) as [t r]. simpl in *. rewrite H. reflexivity. }
  unfold fetch_earnings_data. cbn [fetch_loop]. simpl Nat.ltb. cbn [negb].
  destruct (calendar log date) as [rows|] eqn:E0.
  { exists 0%nat. simpl. rewrite E0. split; [lia|]. split; [lia|].
    apply (Hok rows). }
  destruct (calendar (Rotate :: Post date :: log) date) as [rows|] eqn:E1.
  { exists 1%nat. simpl. rewrite E1. split; [lia|]. split.
    - intros j Hj. assert (j = 0%nat) as -> by lia. exact E0.
    - apply (Hok rows). }
  exists 2%nat. simpl. split; [lia|]. split.
  { intros j Hj. destruct j as [|[|j]]; [exact E0 | exact E1 | lia]. }
  destruct (calendar (Rotate :: Post date :: Rotate :: Post date :: log) date)
    as [rows|] eqn:E2; [apply (Hok rows) | split; reflexivity].
Qed.

Lemma fetch_earnings_data_result (date : string) (times : gmap string string)
    (log : list call) :
  (exists rows lg,
     fetch_earnings_data calendar date times log
     = (listed rows, (read_rows rows ∅ []).1, lg)) \/
  (exists lg, fetch_earnings_data calendar date times log = ([], times, lg)).
Proof.
  assert (Hok : forall rows lg,
            (let '(times', ret') := read_rows rows ∅ [] in
             (ret', times', Post date :: lg))
            = (listed rows, (read_rows rows ∅ []).1, Post date :: lg)
            :> list string * gmap string string * list call).
  { intros rows lg. pose proof (read_rows_ret rows ∅ []) as H.
    destruct (read_rows rows ∅ []) as [t r]. simpl in *. rewrite H. reflexivity. }
  unfold fetch_earnings_data. cbn [fetch_loop]. simpl Nat.ltb. cbn [negb].
  destruct (calendar log date) as [rows|];
    [left; eexists _, _; apply (Hok rows)|].
  destruct (calendar (Rotate :: Post date :: log) date) as [rows|];
    [left; eexists _, _; apply (Hok rows)|].
  destruct (calendar (Rotate :: Post date :: Rotate :: Post date :: log) date)
    as [rows|]; [left; eexists _, _; apply (Hok rows) | right; eexists; reflexivity].
Qed.

(** X14. Whenever the fetch returns tickers, each of them has one of the
    three timing labels, and every other ticker is reported with timing
    ["Unknown"], whatever an earlier fetch had recorded for it. *)
Theorem earnings_times_after_fetch (date : string) (times : gmap string string)
    (log : list call) :
  let tickers := (fetch_earnings_data calendar date times log).1.1 in
  let times' := (fetch_earnings_data calendar date times log).1.2 in
  tickers <> [] ->
  (forall t, t ∈ tickers -> get_earnings_time times' t ∈ timing_labels) /\
  (forall t, t ∉ tickers -> get_earnings_time times' t = "Unknown").
Proof.
  destruct (fetch_earnings_data_result date times log) as [(rows & lg & H)|(lg & H)];
    rewrite H; cbn [fst snd]; [|congruence].
  intros _. unfold get_earnings_time. split.
  - intros t Ht.
    destruct (proj1 (read_rows_times rows ∅ [] t) Ht) as (l & -> & Hl). exact Hl.
  - intros t Ht.
    rewrite (proj2 (read_rows_times rows ∅ [] t) Ht), lookup_empty. reflexivity.
Qed.

End CalendarFacts.

Section CalendarExamples.

Import Calendar Retries.

Lemma earnings_times_after_fetch_witness :
  get_earnings_time
    (fetch_earnings_data Fixtures.calendar_ok "2025-01-17"
       {[ "TSLA" := "Post Market" ]} []).1.2 "TSLA" = "Unknown".
Proof.
  refine (proj2 (earnings_times_after_fetch Fixtures.calendar_ok "2025-01-17"
                   {[ "TSLA" := "Post Market" ]} [] _) "TSLA" _).
  - vm_compute. discriminate.
  - vm_compute. intros H.
    repeat (apply elem_of_cons in H as [H|H]; [discriminate H|]).
    inversion H.
Defined.

Example calendar_ok_tickers :
  (fetch_earnings_data Fixtures.calendar_ok "2025-01-17" ∅ []).1.1
  = ["AAPL"; "MSFT"].
Proof. reflexivity. Qed.

End CalendarExamples.

(** ** The cache: round trip, sweep, merge twice, invariant *)

Section CacheMore.

Import Cache CacheInvariant.

(** X15. A result list saved under a date and ticker list is read back
    unchanged, together with its list of missing fields, under the same
    date and any reordering of the tickers, as long as fewer than seven
    days have passed; the read leaves the directory as it is, and the
    save touches no other file. *)
Theorem save_then_get (now now' : Z) (dir dir' : directory) (date : string)
    (tks tks' : list string) (l : list dict) :
  save_data now dir date tks l = Some dir' ->
  tks ≡ₚ tks' ->
  now' - now < cache_expiry_days * microseconds_per_day ->
  (exists md,
     _identify_missing_data l = Some md /\
     get_data now' dir' date tks' = ((Some l, md), dir')) /\
  (forall p, p <> _get_cache_path (_get_cache_key date tks) -> dir' !! p = dir !! p).
Proof.
  intros Hs Hp Hage. unfold save_data in Hs.
  destruct (_identify_missing_data l) as [md|] eqn:Hmd; [|discriminate Hs].
  cbn in Hs. injection Hs as <-. split.
  - exists md. split; [reflexivity|].
    assert (Hk : _get_cache_key date tks' = _get_cache_key date tks).
    { unfold _get_cache_key. rewrite (sorted_permutation tks tks' Hp). reflexivity. }
    rewrite (fresh_entry_returned now' _ date tks'
               {| timestamp := now; date := date; tickers := tks;
                  data := l; missing_data := md |}).
    + reflexivity.
    + rewrite Hk. apply lookup_insert_eq.
    + exact Hage.
  - intros p Hne. apply lookup_insert_ne. congruence.
Qed.

Lemma save_then_get_witness :
  exists dir' md,
    save_data 0 (∅ : directory) Samples.scan_date Samples.tickers_ma
      [Samples.stored_result] = Some dir' /\
    get_data microseconds_per_day dir' Samples.scan_date Samples.tickers_am
    = ((Some [Samples.stored_result], md), dir').
Proof.
  destruct (save_data 0 (∅ : directory) Samples.scan_date Samples.tickers_ma
              [Samples.stored_result]) as [dir'|] eqn:Hs.
  - destruct (save_then_get 0 microseconds_per_day ∅ dir' Samples.scan_date
                Samples.tickers_ma Samples.tickers_am [Samples.stored_result]
                Hs (Permutation_swap _ _ _) eq_refl) as [[md [_ Hg]] _].
    exists dir', md. split; [reflexivity | exact Hg].
  - exfalso. unfold save_data in Hs.
    destruct (_identify_missing_data [Samples.stored_result]) eqn:E;
      [discriminate Hs | vm_compute in E; discriminate E].
Defined.

Lemma identify_spec (l : list dict) (md : list missing) :
  _identify_missing_data l = Some md -> md = descriptor <$> incomplete l.
Proof.
  unfold incomplete. revert md. induction l as [|d l IH]; intros md H.
  - injection H as <-. reflexivity.
  - cbn [_identify_missing_data] in H.
    destruct (missing_fields_of d) as [|f mf] eqn:Emf.
    + rewrite filter_cons_False by (rewrite Emf; congruence). apply IH, H.
    + rewrite filter_cons_True by (rewrite Emf; discriminate).
      destruct (d !! "ticker") as [t|] eqn:Et; [|discriminate H]. cbn in H.
      destruct (_identify_missing_data l) as [rest|]; [|discriminate H].
      cbn in H. injection H as <-. rewrite fmap_cons, <- (IH rest eq_refl).
      unfold descriptor, get_or. rewrite Et, Emf. reflexivity.
Qed.

Lemma identify_is_Some (l : list dict) :
  is_Some (_identify_missing_data l) <->
  Forall (fun d => is_Some (d !! "ticker")) (incomplete l).
Proof.
  unfold incomplete. induction l as [|d l IH].
  - split; [constructor | eauto].
  - cbn [_identify_missing_data].
    destruct (missing_fields_of d) as [|f mf] eqn:Emf.
    + rewrite filter_cons_False by (rewrite Emf; congruence). exact IH.
    + rewrite filter_cons_True by (rewrite Emf; discriminate).
      rewrite Forall_cons, <- IH.
      destruct (d !! "ticker") as [t|]; cbn.
      * destruct (_identify_missing_data l) as [rest|]; cbn.
        -- split; [intros _; split; eauto | eauto].
        -- split; [intros [x Hx]; discriminate Hx
                  | intros [_ [x Hx]]; discriminate Hx].
      * split; [intros [x Hx]; discriminate Hx | intros [[x Hx] _]; discriminate Hx].
Qed.

(** X16. The list of missing fields names, in the order of the results,
    exactly the results for which the expected move is ['N/A'], the
    current volatility is [None] or absent, or the term structure is [0] or
    ['N/A']; computing it raises exactly when such a result has no
    ['ticker'] key. *)
Theorem identify_missing_data_spec (l : list dict) :
  (is_Some (_identify_missing_data l) <->
     Forall (fun d => is_Some (d !! "ticker")) (incomplete l)) /\
  (forall md, _identify_missing_data l = Some md ->
     md = descriptor <$> incomplete l) /\
  (forall d,
     d ∈ incomplete l <->
     d ∈ l /\
     (py_eq (get_or d "expected_move" VNone) (VStr "N/A") = true \/
      get_or d "current_iv" VNone = VNone \/
      py_in (get_or d "term_structure" VNone) [VInt 0; VStr "N/A"] = true)).
Proof.
  split; [apply identify_is_Some|]. split; [apply identify_spec|].
  intros d. unfold incomplete. rewrite list_elem_of_filter.
  split; intros [H1 H2].
  - split; [exact H2|]. unfold missing_fields_of in H1.
    destruct (py_eq (get_or d "expected_move" VNone) (VStr "N/A")); [auto|].
    destruct (get_or d "current_iv" VNone); auto.
    all: destruct (py_in (get_or d "term_structure" VNone) [VInt 0; VStr "N/A"]);
      [auto | contradiction].
  - split; [|exact H1]. unfold missing_fields_of.
    destruct H2 as [-> | [-> | ->]]; [discriminate | |].
    + destruct (py_eq _ _); discriminate.
    + destruct (py_eq _ _); [discriminate|].
      destruct (get_or d "current_iv" VNone); discriminate.
Qed.

Lemma merged_value_idem (old upd : option pyval) :
  merged_value (merged_value old upd) upd = merged_value old upd.
Proof.
  unfold merged_value. destruct old as [o|]; [|reflexivity].
  destruct (py_in o blank_values) eqn:Ho.
  - destruct upd as [v|]; [|rewrite Ho; reflexivity].
    destruct (py_in v blank_values); reflexivity.
  - rewrite Ho. reflexivity.
Qed.

Lemma merge_entry_idem (entry new_data : dict) :
  merge_entry (merge_entry entry new_data) new_data = merge_entry entry new_data.
Proof.
  apply map_eq. intros k. rewrite !merge_entry_lookup. apply merged_value_idem.
Qed.

Lemma merge_data_idem (l l' : list dict) (new_data : dict) :
  merge_data l new_data = Some l' -> merge_data l' new_data = Some l'.
Proof.
  revert l'. induction l as [|entry l IH]; intros l' H; simpl in H.
  - injection H as <-. reflexivity.
  - destruct (entry !! "ticker") as [t|] eqn:Et; [|discriminate H]. cbn in H.
    destruct (new_data !! "ticker") as [t'|] eqn:Et'; [|discriminate H].
    cbn in H.
    destruct (merge_data l new_data) as [rest|]; [|discriminate H]. cbn in H.
    injection H as <-. cbn [merge_data]. rewrite Et'.
    rewrite (IH rest eq_refl).
    destruct (py_eq t t') eqn:Ett.
    + rewrite merge_entry_lookup, Et, Et'. unfold merged_value.
      destruct (py_in t blank_values); cbn.
      * destruct (py_eq t' t'); [rewrite merge_entry_idem|]; reflexivity.
      * rewrite Ett, merge_entry_idem. reflexivity.
    + rewrite Et. cbn. rewrite Ett. reflexivity.
Qed.

(** X17. Merging the same later result a second time changes nothing: the
    directory after two merges is the directory after one. *)
Theorem update_missing_data_idempotent (dir : directory) (date : string)
    (tks : list string) (new_data : dict) :
  update_missing_data (update_missing_data dir date tks new_data)
    date tks new_data
  = update_missing_data dir date tks new_data.
Proof.
  set (cp := _get_cache_path (_get_cache_key date tks)).
  assert (Hsame : forall d : directory,
            update_missing_data dir date tks new_data = dir ->
            update_missing_data (update_missing_data dir date tks new_data)
              date tks new_data
            = update_missing_data dir date tks new_data).
  { intros _ H. rewrite !H. reflexivity. }
  destruct (dir !! cp) as [[|c]|] eqn:Hf;
    try (apply (Hsame dir); unfold update_missing_data; fold cp;
         rewrite Hf; reflexivity).
  destruct (merge_data (data c) new_data) as [d'|] eqn:Hm;
    [|apply (Hsame dir); unfold update_missing_data; fold cp;
      rewrite Hf, Hm; reflexivity].
  destruct (_identify_missing_data d') as [md|] eqn:Hi;
    [|apply (Hsame dir); unfold update_missing_data; fold cp;
      rewrite Hf, Hm, Hi; reflexivity].
  assert (H1 : update_missing_data dir date tks new_data
               = <[cp := Pickled (with_data c d' md)]> dir).
  { unfold update_missing_data. fold cp. rewrite Hf, Hm, Hi. reflexivity. }
  rewrite H1. unfold update_missing_data. fold cp.
  rewrite lookup_insert_eq. cbn [data with_data].
  rewrite (merge_data_idem _ _ _ Hm), Hi, insert_insert_eq. reflexivity.
Qed.

(** X18. The sweep removes exactly the [.pkl] files that are unreadable or
    at least seven days old and keeps every other file as it is; sweeping
    twice is sweeping once; and a read returns the same answer after the
    sweep as before it. *)
Theorem clear_expired_spec (now : Z) (dir : directory) :
  (forall k, clear_expired now dir !! k =
     match dir !! k with
     | Some f => if removable now (k, f) then None else Some f
     | None => None
     end) /\
  clear_expired now (clear_expired now dir) = clear_expired now dir /\
  (forall date tks,
     (get_data now (clear_expired now dir) date tks).1
     = (get_data now dir date tks).1).
Proof.
  split; [apply clear_expired_lookup|]. split.
  - apply map_eq. intros k. rewrite !clear_expired_lookup.
    destruct (dir !! k) as [f|]; [|reflexivity].
    destruct (removable now (k, f)) eqn:Hr; [reflexivity|].
    rewrite Hr. reflexivity.
  - intros date tks. unfold get_data.
    set (cp := _get_cache_path (_get_cache_key date tks)).
    rewrite clear_expired_lookup.
    destruct (dir !! cp) as [[|c]|] eqn:Hf; [| |reflexivity].
    + unfold removable. cbn [fst snd]. unfold cp.
      rewrite cache_path_is_pkl. reflexivity.
    + unfold removable. cbn [fst snd]. unfold cp at 1.
      rewrite cache_path_is_pkl. cbn [andb].
      destruct (cache_expiry_days <=? age_days now (timestamp c)) eqn:Ha;
        [reflexivity | rewrite Ha; reflexivity].
Qed.

Lemma empty_dir_consistent : dir_consistent ∅.
Proof. intros p f H. rewrite lookup_empty in H. discriminate H. Qed.

(** X19. Every operation of the cache keeps the stored lists of missing
    fields in step with the stored results: if each readable file of the
    directory lists the missing fields its results give, so does each
    file after a save, a merge, a read or a sweep. *)
Theorem missing_data_stays_consistent (now : Z) (dir : directory) (date : string)
    (tks : list string) (l : list dict) (new_data : dict) :
  dir_consistent dir ->
  (forall dir', save_data now dir date tks l = Some dir' -> dir_consistent dir') /\
  dir_consistent (update_missing_data dir date tks new_data) /\
  dir_consistent (get_data now dir date tks).2 /\
  dir_consistent (clear_expired now dir).
Proof.
  intros Hc. split; [|split; [|split]].
  - intros dir' Hs. unfold save_data in Hs.
    destruct (_identify_missing_data l) as [md|] eqn:Hmd; [|discriminate Hs].
    cbn in Hs. injection Hs as <-. intros p f Hp.
    apply lookup_insert_Some in Hp as [[_ <-]|[_ Hp]]; [exact Hmd|].
    exact (Hc p f Hp).
  - unfold update_missing_data.
    set (cp := _get_cache_path (_get_cache_key date tks)).
    destruct (dir !! cp) as [[|c]|]; try exact Hc.
    destruct (merge_data (data c) new_data) as [d'|]; [|exact Hc].
    destruct (_identify_missing_data d') as [md|] eqn:Hi; [|exact Hc].
    intros p f Hp.
    apply lookup_insert_Some in Hp as [[_ <-]|[_ Hp]]; [exact Hi|].
    exact (Hc p f Hp).
  - unfold get_data.
    set (cp := _get_cache_path (_get_cache_key date tks)).
    destruct (dir !! cp) as [[|c]|]; try exact Hc.
    destruct (cache_expiry_days <=? age_days now (timestamp c)); [|exact Hc].
    intros p f Hp. cbn [snd] in Hp.
    apply lookup_delete_Some in Hp as [_ Hp]. exact (Hc p f Hp).
  - intros p f Hp. rewrite clear_expired_lookup in Hp.
    destruct (dir !! p) as [g|] eqn:Hg; [|discriminate Hp].
    destruct (removable now (p, g)); [discriminate Hp|].
    injection Hp as <-. exact (Hc p g Hg).
Qed.

Lemma stale_dir_consistent : dir_consistent Samples.stale_dir.
Proof.
  intros p f Hp. unfold Samples.stale_dir in Hp.
  apply lookup_singleton_Some in Hp as [_ <-]. reflexivity.
Qed.

Lemma missing_data_stays_consistent_witness :
  dir_consistent Samples.stale_dir /\
  dir_consistent
    (update_missing_data Samples.stale_dir Samples.scan_date
       Samples.tickers_ma Samples.later_result).
Proof.
  split; [exact stale_dir_consistent|].
  exact (proj1 (proj2 (missing_data_stays_consistent 0 Samples.stale_dir
                         Samples.scan_date Samples.tickers_ma []
                         Samples.later_result stale_dir_consistent))).
Defined.

Lemma string_app_assoc (a b c : string) : (a +:+ b) +:+ c = a +:+ (b +:+ c).
Proof.
  induction a as [|x a IH]; [reflexivity|].
  change (String x ((a +:+ b) +:+ c) = String x (a +:+ (b +:+ c))).
  f_equal. exact IH.
Qed.

(** X20. The key is the digest of the date and the sorted tickers joined
    by underscores, and nothing marks where one part ends: two tickers
    [a <= b] share their key with the single ticker [a_b], and a date
    followed by [_a] shares its key for [[b]] with the date alone for
    [[a; b]]. *)
Theorem cache_key_joins_parts (date a b : string) :
  String.leb a b = true ->
  _get_cache_key date [a; b] = _get_cache_key date [a +:+ "_" +:+ b] /\
  _get_cache_key date [a; b] = _get_cache_key (date +:+ "_" +:+ a) [b].
Proof.
  intros Hab. unfold _get_cache_key. cbn [sorted foldr insert_sorted].
  rewrite Hab. cbn [String.concat]. split; [reflexivity|].
  rewrite !string_app_assoc. reflexivity.
Qed.

Lemma cache_key_joins_parts_witness :
  _get_cache_key "2025-01-17" ["A"; "B"] = _get_cache_key "2025-01-17" ["A_B"].
Proof.
  exact (proj1 (cache_key_joins_parts "2025-01-17" "A" "B" eq_refl)).
Defined.

End CacheMore.

(** ** Sorting *)

Section ListSortFacts.

Import ListSort.

Context {A : Type}.
Variable le : A -> A -> bool.

Lemma insert_perm (x : A) (l : list A) : insert le x l ≡ₚ x :: l.
Proof.
  induction l as [|y l IH]; cbn [insert]; [reflexivity|].
  destruct (le x y); [reflexivity|].
  rewrite IH. apply Permutation_swap.
Qed.

Lemma isort_perm (l : list A) : isort le l ≡ₚ l.
Proof.
  induction l as [|x l IH]; [reflexivity|].
  change (isort le (x :: l)) with (insert le x (isort le l)).
  rewrite insert_perm, IH. reflexivity.
Qed.

Hypothesis le_tp : total_preorder le.

Lemma insert_sorted_by (x : A) (l : list A) :
  StronglySorted (fun a b => le a b = true) l ->
  StronglySorted (fun a b => le a b = true) (insert le x l).
Proof.
  destruct le_tp as [Htot Htrans].
  induction 1 as [|y l Hs IH Hy]; cbn [insert].
  - repeat constructor.
  - destruct (le x y) eqn:E.
    + constructor; [constructor; assumption|].
      constructor; [exact E|].
      eapply Forall_impl; [exact Hy|]. intros u Hu. exact (Htrans _ _ _ E Hu).
    + assert (Hyx : le y x = true).
      { destruct (Htot x y) as [H|H]; [congruence | exact H]. }
      constructor; [exact IH|].
      rewrite insert_perm. constructor; assumption.
Qed.

Lemma isort_sorted (l : list A) :
  StronglySorted (fun a b => le a b = true) (isort le l).
Proof.
  induction l as [|x l IH]; [constructor|].
  change (isort le (x :: l)) with (insert le x (isort le l)).
  apply insert_sorted_by, IH.
Qed.

End ListSortFacts.

Lemma lex_total_preorder {A B : Type} (leA : A -> A -> bool) (leB : B -> B -> bool) :
  ListSort.total_preorder leA -> ListSort.total_preorder leB ->
  ListSort.total_preorder (ListSort.lex leA leB).
Proof.
  intros [HtA HrA] [HtB HrB]. split.
  - intros [a b] [a' b']. unfold ListSort.lex. cbn [fst snd].
    destruct (leA a a') eqn:E1, (leA a' a) eqn:E2;
      [apply HtB | auto | auto | destruct (HtA a a'); congruence].
  - intros [a b] [a' b'] [a'' b'']. unfold ListSort.lex. cbn [fst snd].
    destruct (leA a a') eqn:E1; [|discriminate].
    destruct (leA a' a'') eqn:E2; [|destruct (leA a' a); discriminate].
    rewrite (HrA _ _ _ E1 E2).
    destruct (leA a'' a) eqn:E3; [|reflexivity].
    rewrite (HrA _ _ _ E2 E3), (HrA _ _ _ E3 E1). apply HrB.
Qed.

Lemma bool_le_total_preorder : ListSort.total_preorder ListSort.bool_le.
Proof. split; [intros [] []; cbn; auto | intros [] [] []; cbn; auto]. Qed.

Lemma Z_leb_total_preorder : ListSort.total_preorder Z.leb.
Proof. split; intros; lia. Qed.

Lemma string_leb_total_preorder : ListSort.total_preorder String.leb.
Proof.
  split; [exact String.leb_total|].
  intros x y z Hxy Hyz. apply Is_true_true. change (String.le x z).
  trans y; apply Is_true_true; assumption.
Qed.

(** ** Expiry dates *)

Section DatesFacts.

Import Dates.

Lemma through_cutoff_Some (cutoff : Z) (l arr : list Z) :
  through_cutoff cutoff l = Some arr ->
  exists pre m post,
    l = pre ++ m :: post /\ arr = pre ++ [m] /\
    Forall (fun d => d < cutoff) pre /\ cutoff <= m.
Proof.
  revert arr. induction l as [|d l IH]; intros arr H; [discriminate H|].
  cbn [through_cutoff] in H. destruct (cutoff <=? d) eqn:E.
  - injection H as <-. exists [], d, l. repeat split; [constructor | lia].
  - destruct (through_cutoff cutoff l) as [arr'|]; [|discriminate H].
    cbn in H. injection H as <-.
    destruct (IH arr' eq_refl) as (pre & m & post & -> & -> & Hpre & Hm).
    exists (d :: pre), m, post. repeat split; [|exact Hm].
    constructor; [lia | exact Hpre].
Qed.

Lemma through_cutoff_None (cutoff : Z) (l : list Z) :
  through_cutoff cutoff l = None -> Forall (fun d => d < cutoff) l.
Proof.
  induction l as [|d l IH]; intros H; [constructor|].
  cbn [through_cutoff] in H. destruct (cutoff <=? d) eqn:E; [discriminate H|].
  destruct (through_cutoff cutoff l); [discriminate H|].
  constructor; [lia | apply IH; reflexivity].
Qed.

Lemma StronglySorted_weaken {A : Type} (R R' : A -> A -> Prop) (l : list A) :
  (forall x y, R x y -> R' x y) -> StronglySorted R l -> StronglySorted R' l.
Proof.
  intros HR. induction 1 as [|x l Hs IH Hx]; constructor; [exact IH|].
  eapply Forall_impl; [exact Hx|]. intros y. apply HR.
Qed.

Lemma StronglySorted_sublist {A : Type} (R : A -> A -> Prop) (l k : list A) :
  sublist l k -> StronglySorted R k -> StronglySorted R l.
Proof.
  induction 1 as [|x l k Hlk IH|x l k Hlk IH]; intros Hk.
  - constructor.
  - apply StronglySorted_inv in Hk as [Hk Hx]. constructor; [exact (IH Hk)|].
    rewrite Forall_forall in Hx |- *. intros y Hy.
    exact (Hx y (elem_of_sublist _ _ _ Hy Hlk)).
  - apply StronglySorted_inv in Hk as [Hk _]. exact (IH Hk).
Qed.

Lemma sorted_dates (dates : list Z) :
  StronglySorted Z.le (ListSort.isort Z.leb dates).
Proof.
  eapply StronglySorted_weaken; [|apply (isort_sorted Z.leb Z_leb_total_preorder)].
  intros x y H. cbn in H. lia.
Qed.

(** The shape of the result: the sorted dates before the cutoff followed
    by the first one on or after it, less a leading [today]; or all of
    them. *)
Lemma filter_dates_shape (today : Z) (dates : list Z) :
  let sdates := ListSort.isort Z.leb dates in
  (Forall (fun d => d < today + 45) sdates /\ filter_dates today dates = sdates) \/
  (exists pre m post,
     sdates = pre ++ m :: post /\
     Forall (fun d => d < today + 45) pre /\ today + 45 <= m /\
     filter_dates today dates =
       match pre with
       | d0 :: pre' => if d0 =? today then pre' ++ [m] else pre ++ [m]
       | [] => [m]
       end).
Proof.
  intros sdates. unfold filter_dates. fold sdates.
  destruct (through_cutoff (today + 45) sdates) as [arr|] eqn:E.
  - right. destruct (through_cutoff_Some _ _ _ E) as (pre & m & post & Hs & -> & Hpre & Hm).
    exists pre, m, post. repeat split; try assumption.
    destruct pre as [|d0 [|d1 pre]]; reflexivity.
  - left. split; [apply through_cutoff_None, E | reflexivity].
Qed.

(** Bounds on the result of [filter_dates]. *)
Lemma filter_dates_bounds (today : Z) (dates : list Z) :
  let r := filter_dates today dates in
  sublist r (ListSort.isort Z.leb dates) /\
  StronglySorted Z.le r /\
  (dates <> [] -> r <> []) /\
  (forall d, d ∈ dates -> d < today -> d ∈ r) /\
  ((forall d, d ∈ dates -> d < today + 45) -> r = ListSort.isort Z.leb dates) /\
  (forall x, x ∈ dates -> today + 45 <= x ->
     exists pre m,
       r = pre ++ [m] /\ Forall (fun d => d < today + 45) pre /\
       m ∈ dates /\ today + 45 <= m /\
       (forall d, d ∈ dates -> today + 45 <= d -> m <= d) /\
       ((forall d, d ∈ dates -> today <= d) -> NoDup dates -> today ∉ r)).
Proof.
  intros r. subst r.
  pose proof (sorted_dates dates) as Hsorted.
  pose proof (isort_perm Z.leb dates) as Hperm.
  destruct (filter_dates_shape today dates) as [[Hall Hr]|(pre & m & post & Hs & Hpre & Hm & Hr)].
  - rewrite Hr. split; [reflexivity|]. split; [exact Hsorted|].
    split; [|split; [|split]].
    + intros Hne Hnil. rewrite Hnil in Hperm.
      apply Permutation_nil in Hperm. contradiction.
    + intros d Hd _. rewrite Hperm. exact Hd.
    + reflexivity.
    + intros x Hx Hcut. exfalso.
      rewrite <- Hperm in Hx. rewrite Forall_forall in Hall.
      specialize (Hall x Hx). lia.
  - assert (Hsub : sublist (filter_dates today dates) (pre ++ [m])).
    { rewrite Hr. destruct pre as [|d0 pre']; [reflexivity|].
      destruct (d0 =? today); [|reflexivity].
      change ((d0 :: pre') ++ [m]) with (d0 :: (pre' ++ [m])).
      apply sublist_cons, reflexivity. }
    assert (Hsub' : sublist (pre ++ [m]) (ListSort.isort Z.leb dates)).
    { rewrite Hs. apply sublist_app; [reflexivity|].
      apply sublist_skip, sublist_nil_l. }
    assert (Hin : forall d, d ∈ dates <-> d ∈ pre ++ m :: post).
    { intros d. rewrite <- Hs, Hperm. reflexivity. }
    rewrite Hs in Hsorted.
    pose proof (StronglySorted_app_1_r _ _ _ Hsorted) as Hmpost.
    apply StronglySorted_inv in Hmpost as [_ Hmpost].
    rewrite Forall_forall in Hmpost, Hpre.
    assert (Hmin : forall d, d ∈ dates -> today + 45 <= d -> m <= d).
    { intros d Hd Hc. apply Hin in Hd.
      apply elem_of_app in Hd as [Hd|Hd]; [specialize (Hpre d Hd); lia|].
      apply elem_of_cons in Hd as [->|Hd]; [lia | exact (Hmpost d Hd)]. }
    split; [etrans; eassumption|]. split.
    { apply (StronglySorted_sublist _ _ _ Hsub).
      refine (StronglySorted_sublist _ _ _ _ Hsorted).
      apply sublist_app; [reflexivity|]. apply sublist_skip, sublist_nil_l. }
    split; [|split; [|split]].
    + intros _. rewrite Hr. destruct pre as [|d0 pre']; [discriminate|].
      destruct (d0 =? today); [destruct pre'|]; discriminate.
    + intros d Hd Hlt. rewrite Hr. apply Hin in Hd.
      apply elem_of_app in Hd as [Hd|Hd].
      * destruct pre as [|d0 pre']; [inversion Hd|].
        destruct (d0 =? today) eqn:E0; [|apply elem_of_app; left; exact Hd].
        apply elem_of_cons in Hd as [->|Hd]; [lia|].
        apply elem_of_app; left; exact Hd.
      * exfalso. apply elem_of_cons in Hd as [->|Hd]; [lia|].
        specialize (Hmpost d Hd). lia.
    + intros Hall. exfalso.
      assert (Hmd : m ∈ dates) by (apply Hin, elem_of_app; right; left).
      specialize (Hall m Hmd). lia.
    + intros x Hx Hcut.
      assert (Hmd : m ∈ dates) by (apply Hin, elem_of_app; right; left).
      destruct pre as [|d0 pre'].
      * exists [], m. rewrite Hr. repeat split; try assumption; [constructor|].
        intros Hge _ Ht. apply list_elem_of_singleton in Ht. lia.
      * destruct (d0 =? today) eqn:E0.
        -- exists pre', m. rewrite Hr. repeat split; try assumption.
           ++ apply Forall_forall. intros d Hd. apply Hpre. right. exact Hd.
           ++ intros _ Hnd Ht.
              assert (Hnd' : NoDup ((d0 :: pre') ++ m :: post))
                by (rewrite <- Hs, Hperm; exact Hnd).
              change ((d0 :: pre') ++ m :: post) with (d0 :: (pre' ++ m :: post)) in Hnd'.
              apply NoDup_cons in Hnd' as [Hd0 _]. apply Hd0.
              assert (d0 = today) as -> by lia.
              apply elem_of_app in Ht as [Ht|Ht];
                [apply elem_of_app; left; exact Ht|].
              apply list_elem_of_singleton in Ht. lia.
        -- exists (d0 :: pre'), m. rewrite Hr. repeat split; try assumption.
           ++ apply Forall_forall. exact Hpre.
           ++ intros Hge _ Ht.
              change ((d0 :: pre') ++ m :: post) with (d0 :: (pre' ++ m :: post)) in Hsorted.
              apply StronglySorted_inv in Hsorted as [_ Hd0].
              rewrite Forall_forall in Hd0.
              assert (Hd0d : d0 ∈ dates) by (apply Hin; left).
              specialize (Hge d0 Hd0d).
              apply elem_of_app in Ht as [Ht|Ht].
              ** apply elem_of_cons in Ht as [->|Ht]; [lia|].
                 assert (d0 <= today) by (apply Hd0, elem_of_app; left; exact Ht).
                 lia.
              ** apply list_elem_of_singleton in Ht. lia.
Qed.

Lemma filter_all_true {A : Type} (P : A -> Prop) `{forall x, Decision (P x)}
    (l : list A) :
  Forall P l -> filter P l = l.
Proof.
  induction 1 as [|x l Hx Hl IH]; [reflexivity|].
  rewrite filter_cons_True by exact Hx. rewrite IH. reflexivity.
Qed.

Lemma filter_all_false {A : Type} (P : A -> Prop) `{forall x, Decision (P x)}
    (l : list A) :
  Forall (fun x => ~ P x) l -> filter P l = [].
Proof.
  induction 1 as [|x l Hx Hl IH]; [reflexivity|].
  rewrite filter_cons_False by exact Hx. exact IH.
Qed.

(** On a sorted list the dates before the cutoff are the ones in front of
    the first date on or after it. *)
Lemma below_cutoff_prefix (cutoff m : Z) (pre post : list Z) :
  Forall (fun d => d < cutoff) pre -> cutoff <= m ->
  StronglySorted Z.le (pre ++ m :: post) ->
  filter (fun d => d < cutoff) (pre ++ m :: post) = pre.
Proof.
  intros Hpre Hm Hs. rewrite filter_app, (filter_all_true _ pre Hpre).
  rewrite filter_all_false; [apply app_nil_r|].
  apply StronglySorted_app_1_r, StronglySorted_inv in Hs as [_ Hpost].
  constructor; [lia|]. eapply Forall_impl; [exact Hpost|].
  intros d Hd. cbn in Hd. lia.
Qed.

(** The result when a date on or after the cutoff is listed. *)
Lemma filter_dates_exact (today : Z) (dates : list Z) (x : Z) :
  x ∈ dates -> today + 45 <= x ->
  exists m,
    filter_dates today dates =
      match filter (fun d => d < today + 45) (ListSort.isort Z.leb dates) with
      | d0 :: rest => if d0 =? today then rest else d0 :: rest
      | [] => []
      end ++ [m].
Proof.
  intros Hx Hcut.
  destruct (filter_dates_shape today dates)
    as [[Hall Hr]|(pre & m & post & Hs & Hpre & Hm & Hr)].
  - exfalso. rewrite Forall_forall in Hall.
    assert (Hin : x ∈ ListSort.isort Z.leb dates)
      by (rewrite (isort_perm Z.leb dates); exact Hx).
    specialize (Hall x Hin). lia.
  - exists m. rewrite Hr.
    pose proof (sorted_dates dates) as Hsorted. rewrite Hs in Hsorted |- *.
    rewrite (below_cutoff_prefix _ _ _ _ Hpre Hm Hsorted).
    destruct pre as [|d0 pre']; [reflexivity|].
    destruct (d0 =? today); reflexivity.
Qed.

(** X21. [filter_dates] returns the listed dates in ascending order up to
    and including the first one 45 days or more ahead.  When such a date
    is listed the result is exactly the sorted dates before that cutoff,
    without the first of them if it is today, followed by the earliest
    date on or after the cutoff: nothing after that date, every date before
    today, and every date from today to the cutoff other than today.
    Without a date 45 days ahead it returns all of them.  At least one date
    is returned when any is listed.  When a date 45 days ahead exists, no
    date is earlier than today and no date is listed twice, today's expiry
    is left out. *)
Theorem filter_dates_spec (today : Z) (dates : list Z) :
  let r := filter_dates today dates in
  let sdates := ListSort.isort Z.leb dates in
  let below := filter (fun d => d < today + 45) sdates in
  sublist r sdates /\
  StronglySorted Z.le r /\
  (dates <> [] -> r <> []) /\
  (forall d, d ∈ dates -> d < today -> d ∈ r) /\
  (forall d, d ∈ dates -> d < today + 45 -> d <> today -> d ∈ r) /\
  ((forall d, d ∈ dates -> d < today + 45) -> r = sdates) /\
  (forall x, x ∈ dates -> today + 45 <= x ->
     exists pre m,
       r = pre ++ [m] /\
       pre = match below with
             | d0 :: rest => if d0 =? today then rest else d0 :: rest
             | [] => []
             end /\
       Forall (fun d => d < today + 45) pre /\
       m ∈ dates /\ today + 45 <= m /\
       (forall d, d ∈ dates -> today + 45 <= d -> m <= d) /\
       ((forall d, d ∈ dates -> today <= d) -> NoDup dates -> today ∉ r)).
Proof.
  intros r sdates below.
  pose proof (filter_dates_bounds today dates) as Hb. cbv zeta in Hb.
  fold r sdates in Hb. destruct Hb as (H1 & H2 & H3 & H4 & H5 & H6).
  split; [exact H1|]. split; [exact H2|]. split; [exact H3|].
  split; [exact H4|]. split; [|split; [exact H5|]].
  - intros d Hd Hlt Hne.
    assert (Hbelow : d ∈ below).
    { apply list_elem_of_filter. split; [exact Hlt|].
      unfold sdates. rewrite (isort_perm Z.leb dates). exact Hd. }
    destruct (filter_dates_shape today dates)
      as [[_ Hr]|(pre & m & post & Hs & Hpre & Hm & _)].
    + fold r sdates in Hr. rewrite Hr.
      unfold sdates. rewrite (isort_perm Z.leb dates). exact Hd.
    + assert (Hmd : m ∈ dates).
      { rewrite <- (isort_perm Z.leb dates), Hs. apply elem_of_app.
        right. left. }
      destruct (filter_dates_exact today dates m Hmd Hm) as [m' Hr].
      fold r sdates below in Hr. rewrite Hr. apply elem_of_app. left.
      destruct below as [|d0 rest]; [inversion Hbelow|].
      destruct (Z.eqb_spec d0 today) as [->|_]; [|exact Hbelow].
      apply elem_of_cons in Hbelow as [->|Hbelow]; [contradiction | exact Hbelow].
  - intros x Hx Hcut.
    destruct (H6 x Hx Hcut) as (pre & m & Hr & Hpre & Hm & Hc & Hmin & Ht).
    destruct (filter_dates_exact today dates x Hx Hcut) as [m' Hr'].
    fold r sdates below in Hr'. rewrite Hr in Hr'.
    apply app_inj_tail in Hr' as [Hpre' _].
    exists pre, m. repeat split; assumption.
Qed.

End DatesFacts.

(** ** Results of a scan *)

Section ScannerFacts.

Import Cache CacheInvariant Scanner.

Lemma number_of_stored (z : Z) (x : pynum) :
  fits_64_bits z = true -> int_or_float z x ->
  number_of (of_pynum x) = Some (Some x).
Proof.
  intros Hz [->|[f ->]]; [|reflexivity]. cbn [of_pynum number_of].
  rewrite Hz. reflexivity.
Qed.

Lemma score_label (avb : bool) (r s : option pynum) :
  Score.score avb r s ∈ ["Recommended"; "Consider"; "Avoid"].
Proof.
  unfold Score.score.
  destruct (avb && Score.ivcheck r && Score.slopecheck s); [set_solver|].
  destruct (Score.slopecheck s && _); set_solver.
Qed.

Lemma analyze_result_fields (ticker : string) (cp tv hv : pyval)
    (mc : option pyval) (et : string) (od res : dict) :
  analyze_result ticker cp tv hv mc et od = Some res ->
  res !! "ticker" = Some (VStr ticker) /\
  res !! "earnings_time" = Some (VStr et) /\
  (exists rec, res !! "recommendation" = Some (VStr rec) /\
               rec ∈ ["Recommended"; "Consider"; "Avoid"]) /\
  res !! "current_iv" =
    Some (match od !! "error" with
          | None => get_or od "current_iv" VNone
          | Some _ => VNone
          end).
Proof.
  unfold analyze_result. intros H.
  destruct (od !! "error") as [e|].
  - injection H as <-. repeat split; try reflexivity.
    exists "Avoid". split; [reflexivity | set_solver].
  - destruct (od !! "avg_volume") as [avb|]; [|discriminate H]. cbn in H.
    destruct (od !! "iv30_rv30") as [r|]; [|discriminate H]. cbn in H.
    destruct (number_of r) as [rn|]; [|discriminate H]. cbn in H.
    destruct (od !! "term_slope") as [s|]; [|discriminate H]. cbn in H.
    destruct (number_of s) as [sn|]; [|discriminate H]. cbn in H.
    destruct mc as [mc|]; [|discriminate H]. cbn in H.
    injection H as <-. repeat split; try reflexivity.
    eexists. split; [reflexivity | apply score_label].
Qed.

Lemma error_dict_error (msg : string) : error_dict msg !! "error" = Some (VStr msg).
Proof. reflexivity. Qed.

Lemma recommendation_dict_no_error (avgv r s : pynum) (iv30 : float)
    (stpct : string) (up hv : float) :
  recommendation_dict avgv r s iv30 stpct up hv !! "error" = None.
Proof. reflexivity. Qed.

Lemma lacks_iv_missing (d : dict) :
  d !! "current_iv" = Some VNone -> "current_iv" ∈ missing_fields_of d.
Proof.
  intros H. unfold missing_fields_of, get_or. rewrite H.
  apply elem_of_app. right. apply elem_of_app. left. left.
Qed.

(** The result built from a dictionary of indicators. *)
Lemma analyze_result_of_indicators (ticker : string) (cp tv hv : pyval)
    (market_cap : option pyval) (et : string) (avgv r s : pynum)
    (iv30 : float) (stpct : string) (up hv0 : float) :
  int_or_float 9999 r -> int_or_float 0 s ->
  match market_cap with
  | None =>
      analyze_result ticker cp tv hv market_cap et
        (recommendation_dict avgv r s iv30 stpct up hv0) = None
  | Some mc =>
      exists res,
        analyze_result ticker cp tv hv market_cap et
          (recommendation_dict avgv r s iv30 stpct up hv0) = Some res /\
        res !! "recommendation" =
          Some (VStr (Score.score (py_ge avgv (of_int 1500000)) (Some r) (Some s))) /\
        res !! "expected_move" = Some (VStr stpct) /\
        res !! "term_structure" = Some (VFloat iv30) /\
        res !! "market_cap" = Some mc
  end.
Proof.
  intros Hr Hs. unfold analyze_result.
  rewrite recommendation_dict_no_error.
  change (recommendation_dict avgv r s iv30 stpct up hv0 !! "avg_volume")
    with (Some (VBool (py_ge avgv (of_int 1500000)))).
  change (recommendation_dict avgv r s iv30 stpct up hv0 !! "iv30_rv30")
    with (Some (of_pynum r)).
  change (recommendation_dict avgv r s iv30 stpct up hv0 !! "term_slope")
    with (Some (of_pynum s)).
  cbn [mbind option_bind].
  rewrite (number_of_stored 9999 r eq_refl Hr), (number_of_stored 0 s eq_refl Hs).
  cbn [mbind option_bind].
  destruct market_cap as [mc|]; cbn [mbind option_bind]; [|reflexivity].
  eexists. split; [reflexivity|]. repeat split; reflexivity.
Qed.

(** The indicators can be read back from their dictionary. *)
Lemma recommendation_dict_inj (avgv r s avgv' r' s' : pynum) (iv30 iv30' : float)
    (stpct stpct' : string) (up hv0 up' hv0' : float) :
  recommendation_dict avgv r s iv30 stpct up hv0
  = recommendation_dict avgv' r' s' iv30' stpct' up' hv0' ->
  avgv = avgv' /\ r = r' /\ s = s' /\ iv30 = iv30' /\ stpct = stpct'.
Proof.
  intros Heq.
  assert (Hf : forall k,
            recommendation_dict avgv r s iv30 stpct up hv0 !! k
            = recommendation_dict avgv' r' s' iv30' stpct' up' hv0' !! k)
    by (intros k; rewrite Heq; reflexivity).
  pose proof (Hf "avg_volume_value") as H1. pose proof (Hf "iv30_rv30") as H2.
  pose proof (Hf "term_slope") as H3. pose proof (Hf "term_structure") as H4.
  pose proof (Hf "expected_move") as H5.
  change (Some (of_pynum avgv) = Some (of_pynum avgv')) in H1.
  change (Some (of_pynum r) = Some (of_pynum r')) in H2.
  change (Some (of_pynum s) = Some (of_pynum s')) in H3.
  change (Some (VFloat iv30) = Some (VFloat iv30')) in H4.
  change (Some (VStr stpct) = Some (VStr stpct')) in H5.
  injection H4 as <-. injection H5 as <-.
  assert (avgv = avgv') by (destruct avgv, avgv'; cbn in H1; congruence).
  assert (r = r') by (destruct r, r'; cbn in H2; congruence).
  assert (s = s') by (destruct s, s'; cbn in H3; congruence).
  auto.
Qed.

(** X22. From an answer of [compute_recommendation], an error or the
    dictionary of indicators, [analyze_stock] builds a result, with one
    exception: it returns [None] exactly when the answer is no error and
    reading the ticker's [info] for the market capitalisation raises.  A
    result carries the ticker, the earnings time and three string fields
    to sort by; its recommendation is the score of the answer's volume
    flag, ratio and slope (['Avoid'] with expected move ['N/A'] for an
    error); and its current volatility is [None], so that the result
    always counts as incomplete. *)
Theorem analyze_result_spec (ticker : string) (cp tv hv : pyval)
    (market_cap : option pyval) (et : string) (od : dict) :
  answer od ->
  (analyze_result ticker cp tv hv market_cap et od = None <->
     od !! "error" = None /\ market_cap = None) /\
  (forall res,
     analyze_result ticker cp tv hv market_cap et od = Some res ->
     res !! "ticker" = Some (VStr ticker) /\
     res !! "earnings_time" = Some (VStr et) /\
     is_Some (key_of res) /\
     lacks_iv res /\
     "current_iv" ∈ missing_fields_of res /\
     (forall msg, od = error_dict msg ->
        res !! "recommendation" = Some (VStr "Avoid") /\
        res !! "expected_move" = Some (VStr "N/A") /\
        res !! "market_cap" = Some (VInt 0)) /\
     (forall avgv r s iv30 stpct up hv0,
        od = recommendation_dict avgv r s iv30 stpct up hv0 ->
        res !! "recommendation" =
          Some (VStr (Score.score (py_ge avgv (of_int 1500000)) (Some r) (Some s))) /\
        res !! "expected_move" = Some (VStr stpct) /\
        res !! "term_structure" = Some (VFloat iv30) /\
        res !! "market_cap" = market_cap)).
Proof.
  intros Hod.
  assert (Hcommon : forall res,
            analyze_result ticker cp tv hv market_cap et od = Some res ->
            res !! "ticker" = Some (VStr ticker) /\
            res !! "earnings_time" = Some (VStr et) /\
            is_Some (key_of res) /\
            lacks_iv res /\
            "current_iv" ∈ missing_fields_of res).
  { intros res Hres.
    destruct (analyze_result_fields _ _ _ _ _ _ _ _ Hres)
      as (Ht & He & (rec & Hrec & _) & Hiv).
    assert (Hiv' : res !! "current_iv" = Some VNone).
    { destruct Hod as [[msg ->]|(avgv & r & s & iv30 & stpct & up & hv0 & _ & _ & _ & ->)];
        exact Hiv. }
    split; [exact Ht|]. split; [exact He|].
    split; [unfold key_of, str_item; rewrite Hrec, He, Ht; eexists; reflexivity|].
    split; [split; [rewrite Ht; eexists; reflexivity | exact Hiv']|].
    apply lacks_iv_missing, Hiv'. }
  destruct Hod as [[msg ->]|(avgv & r & s & iv30 & stpct & up & hv0 & Ha & Hr & Hs & ->)].
  - split.
    + split; [intros H; discriminate H | intros [H _]; discriminate H].
    + intros res Hres. destruct (Hcommon res Hres) as (H1 & H2 & H3 & H4 & H5).
      split; [exact H1|]. split; [exact H2|]. split; [exact H3|].
      split; [exact H4|]. split; [exact H5|].
      unfold analyze_result in Hres. rewrite error_dict_error in Hres.
      injection Hres as <-. split.
      * intros _ _. repeat split; reflexivity.
      * intros avgv r s iv30 stpct up hv0 Heq. exfalso.
        apply (f_equal (fun d : dict => d !! "error")) in Heq.
        rewrite error_dict_error, recommendation_dict_no_error in Heq.
        discriminate Heq.
  - pose proof (analyze_result_of_indicators ticker cp tv hv market_cap et
                  avgv r s iv30 stpct up hv0 Hr Hs) as Hind.
    destruct market_cap as [mc|].
    + destruct Hind as (res0 & Hres0 & Hrec & Hem & Hts & Hmc). split.
      * split; [rewrite Hres0; intros H; discriminate H
               | intros [_ H]; discriminate H].
      * intros res Hres. destruct (Hcommon res Hres) as (H1 & H2 & H3 & H4 & H5).
        split; [exact H1|]. split; [exact H2|]. split; [exact H3|].
        split; [exact H4|]. split; [exact H5|].
        rewrite Hres0 in Hres. injection Hres as <-. split.
        -- intros msg Heq. exfalso.
           apply (f_equal (fun d : dict => d !! "error")) in Heq.
           rewrite error_dict_error, recommendation_dict_no_error in Heq.
           discriminate Heq.
        -- intros avgv' r' s' iv30' stpct' up' hv0' Heq.
           apply recommendation_dict_inj in Heq as (<- & <- & <- & <- & <-).
           repeat split; assumption.
    + split.
      * split; [intros _; split; [apply recommendation_dict_no_error | reflexivity]
               | intros _; exact Hind].
      * intros res Hres. rewrite Hind in Hres. discriminate Hres.
Qed.

Lemma analyze_result_spec_witness :
  exists res,
    analyze_result "AAPL" (VInt 0) (VInt 0) (VFloat nan) (Some (VInt 0)) "Unknown"
      (error_dict "No options for AAPL.") = Some res /\
    res !! "recommendation" = Some (VStr "Avoid").
Proof.
  eexists. split; [reflexivity|].
  refine (let H := proj2 (analyze_result_spec "AAPL" (VInt 0) (VInt 0) (VFloat nan)
                            (Some (VInt 0)) "Unknown"
                            (error_dict "No options for AAPL.")
                            (or_introl (ex_intro _ "No options for AAPL." eq_refl)))
                     _ eq_refl in _).
  destruct H as (_ & _ & _ & _ & _ & Herr & _).
  exact (proj1 (Herr _ eq_refl)).
Defined.

Lemma analyzed_lacks_iv (d : dict) : analyzed d -> lacks_iv d.
Proof.
  intros (ticker & cp & tv & hv & mc & et & od & Hod & Hd).
  destruct Hod as [[msg ->]|(avgv & r & s & iv30 & stpct & up & hv0 & _ & _ & _ & ->)];
    destruct (analyze_result_fields _ _ _ _ _ _ _ _ Hd) as (Ht & _ & _ & Hiv);
    (split; [rewrite Ht; eexists; reflexivity | exact Hiv]).
Qed.

Lemma identify_all (l : list dict) :
  Forall lacks_iv l -> _identify_missing_data l = Some (descriptor <$> l).
Proof.
  induction 1 as [|d l [[t Ht] Hiv] Hl IH]; [reflexivity|].
  cbn [_identify_missing_data]. rewrite IH, fmap_cons.
  pose proof (lacks_iv_missing d Hiv) as Hm.
  destruct (missing_fields_of d) as [|f mf] eqn:E; [inversion Hm|].
  unfold descriptor, get_or. rewrite Ht, E. reflexivity.
Qed.

Lemma plan_of_incomplete (l : list dict) :
  plan_of (Some l) (descriptor <$> l) =
    match l with
    | [] => Rescan
    | _ :: _ => Refill l (ticker_of <$> l)
    end.
Proof.
  destruct l as [|d l]; [reflexivity|].
  cbn [plan_of fmap list_fmap]. f_equal. f_equal.
  induction l as [|e l IH]; [reflexivity|]. cbn [fmap list_fmap] in *.
  f_equal. exact IH.
Qed.

(** X23. A scan that was saved is never served from the cache as it is:
    read back within seven days, a saved list of results sends the scanner
    to fetch every one of its tickers again, and a saved empty list sends
    it to scan from the start. *)
Theorem cached_scan_is_refilled (now now' : Z) (dir : directory) (date : string)
    (tks tks' : list string) (l : list dict) :
  Forall analyzed l ->
  tks ≡ₚ tks' ->
  now' - now < cache_expiry_days * microseconds_per_day ->
  exists dir',
    save_data now dir date tks l = Some dir' /\
    plan_of (get_data now' dir' date tks').1.1 (get_data now' dir' date tks').1.2 =
      match l with
      | [] => Rescan
      | _ :: _ => Refill l (ticker_of <$> l)
      end.
Proof.
  intros Hl Hp Hage.
  assert (Hl' : Forall lacks_iv l)
    by (eapply Forall_impl; [exact Hl | exact analyzed_lacks_iv]).
  unfold save_data. rewrite (identify_all l Hl'). cbn [mbind option_bind].
  eexists. split; [reflexivity|].
  assert (Hk : _get_cache_key date tks' = _get_cache_key date tks).
  { unfold _get_cache_key. rewrite (sorted_permutation tks tks' Hp). reflexivity. }
  rewrite (fresh_entry_returned now' _ date tks'
             {| timestamp := now; date := date; tickers := tks;
                data := l; missing_data := descriptor <$> l |}).
  - apply plan_of_incomplete.
  - rewrite Hk. apply lookup_insert_eq.
  - exact Hage.
Qed.

Lemma cached_scan_is_refilled_witness :
  exists d,
    analyze_result "AAPL" (VInt 0) (VInt 0) (VFloat nan) (Some (VInt 0)) "Unknown"
      (error_dict "No options for AAPL.") = Some d /\
    exists dir',
      save_data 0 (∅ : directory) Samples.scan_date Samples.tickers_ma [d]
      = Some dir' /\
      plan_of
        (get_data microseconds_per_day dir' Samples.scan_date Samples.tickers_am).1.1
        (get_data microseconds_per_day dir' Samples.scan_date Samples.tickers_am).1.2
      = Refill [d] [VStr "AAPL"].
Proof.
  eexists. split; [reflexivity|].
  refine (let H := cached_scan_is_refilled 0 microseconds_per_day ∅
                     Samples.scan_date Samples.tickers_ma Samples.tickers_am
                     [_] _ (Permutation_swap _ _ _) eq_refl in _).
  - destruct H as (dir' & Hs & Hp). exists dir'. split; [exact Hs | exact Hp].
  Unshelve.
  constructor; [|constructor].
  exists "AAPL", (VInt 0), (VInt 0), (VFloat nan), (Some (VInt 0)), "Unknown",
    (error_dict "No options for AAPL.").
  split; [left; eexists; reflexivity | reflexivity].
Defined.

Lemma merge_entry_lacks_iv (entry r : dict) :
  lacks_iv entry -> lacks_iv r -> lacks_iv (merge_entry entry r).
Proof.
  intros [[t Ht] Hiv] [[t' Ht'] Hiv']. split.
  - rewrite merge_entry_lookup, Ht, Ht'. unfold merged_value.
    destruct (py_in t blank_values); eexists; reflexivity.
  - rewrite merge_entry_lookup, Hiv, Hiv'. reflexivity.
Qed.

Lemma merge_data_lacks_iv (l : list dict) (r : dict) :
  Forall lacks_iv l -> lacks_iv r ->
  exists l', merge_data l r = Some l' /\ Forall lacks_iv l' /\ length l' = length l.
Proof.
  intros Hl Hr. induction Hl as [|d l Hd Hl IH].
  - exists []. repeat split. constructor.
  - destruct IH as (l' & Hm & Hl' & Hlen).
    destruct Hd as [[t Ht] Hiv]. destruct Hr as [[t' Ht'] Hiv'].
    cbn [merge_data]. rewrite Ht, Ht', Hm. cbn [mbind option_bind].
    eexists. split; [reflexivity|]. split; [|cbn; rewrite Hlen; reflexivity].
    constructor; [|exact Hl'].
    destruct (py_eq t t').
    + apply merge_entry_lacks_iv; split; eauto.
    + split; eauto.
Qed.

(** X24. Fetching again does not complete a cached scan: when every
    stored result lacks the current volatility and a re-analysed result
    (which lacks it too) is merged in, the entry read back afterwards
    holds as many results as before, every one still lacking it, and the
    scanner is sent to fetch all of them once more. *)
Theorem refill_never_completes (now : Z) (dir : directory) (date : string)
    (tks : list string) (c : cache_entry) (r : dict) :
  dir !! _get_cache_path (_get_cache_key date tks) = Some (Pickled c) ->
  Forall lacks_iv (data c) ->
  data c <> [] ->
  lacks_iv r ->
  now - timestamp c < cache_expiry_days * microseconds_per_day ->
  let dir' := update_missing_data dir date tks r in
  exists l',
    get_data now dir' date tks = ((Some l', descriptor <$> l'), dir') /\
    length l' = length (data c) /\
    Forall lacks_iv l' /\
    plan_of (Some l') (descriptor <$> l') = Refill l' (ticker_of <$> l').
Proof.
  intros Hf Hl Hne Hr Hage dir'. subst dir'.
  destruct (merge_data_lacks_iv (data c) r Hl Hr) as (l' & Hm & Hl' & Hlen).
  exists l'. unfold update_missing_data.
  rewrite Hf, Hm, (identify_all l' Hl').
  split; [|split; [exact Hlen|split; [exact Hl'|]]].
  - rewrite (fresh_entry_returned now _ date tks
               (with_data c l' (descriptor <$> l'))).
    + reflexivity.
    + apply lookup_insert_eq.
    + exact Hage.
  - rewrite plan_of_incomplete. destruct l' as [|d l']; [|reflexivity].
    destruct (data c); [contradiction | discriminate Hlen].
Qed.

Lemma refill_never_completes_witness :
  exists l',
    get_data 0
      (update_missing_data Samples.partial_dir Samples.scan_date
         Samples.tickers_ma Samples.later_result)
      Samples.scan_date Samples.tickers_ma
    = ((Some l', descriptor <$> l'),
       update_missing_data Samples.partial_dir Samples.scan_date
         Samples.tickers_ma Samples.later_result) /\
    length l' = 1%nat.
Proof.
  assert (H1 : Samples.partial_dir
                 !! _get_cache_path (_get_cache_key Samples.scan_date Samples.tickers_ma)
               = Some (Pickled Samples.partial_entry)).
  { unfold Samples.partial_dir, Samples.scan_path. apply lookup_singleton_eq. }
  assert (H2 : Forall lacks_iv (data Samples.partial_entry)).
  { constructor; [|constructor]. split; [eexists|]; reflexivity. }
  assert (H3 : data Samples.partial_entry <> []) by discriminate.
  assert (H4 : lacks_iv Samples.later_result).
  { split; [eexists|]; reflexivity. }
  destruct (refill_never_completes 0 Samples.partial_dir Samples.scan_date
              Samples.tickers_ma Samples.partial_entry Samples.later_result
              H1 H2 H3 H4 eq_refl) as (l' & Hg & Hlen & _).
  exists l'. split; [exact Hg | exact Hlen].
Defined.

End ScannerFacts.

(** ** Batches and the final order *)

Section BatchFacts.

Import Scanner.

Context {A : Type}.

Lemma range_count (n size : nat) :
  (0 < size)%nat -> (0 < n)%nat ->
  ((n + size - 1) / size = S ((n - size + size - 1) / size))%nat.
Proof.
  intros Hs Hn. destruct (Nat.le_gt_cases n size) as [H|H].
  - replace (n - size + size - 1)%nat with (size - 1)%nat by lia.
    rewrite (Nat.div_small (size - 1) size) by lia.
    symmetry. apply (Nat.div_unique _ _ 1%nat (n - 1)%nat); lia.
  - replace (n + size - 1)%nat with ((n - size + size - 1) + 1 * size)%nat by lia.
    rewrite Nat.div_add by lia. lia.
Qed.

Lemma batches_nil (size : nat) : (0 < size)%nat -> batches size ([] : list A) = [].
Proof.
  intros Hs. unfold batches, range_step. cbn [length].
  replace (0 + size - 1)%nat with (size - 1)%nat by lia.
  rewrite Nat.div_small by lia. reflexivity.
Qed.

Lemma batches_cons (size : nat) (l : list A) :
  (0 < size)%nat -> l <> [] ->
  batches size l = take size l :: batches size (drop size l).
Proof.
  intros Hs Hl. unfold batches, range_step.
  assert (Hn : (0 < length l)%nat) by (destruct l; [contradiction | cbn; lia]).
  rewrite (range_count (length l) size Hs Hn), length_drop.
  cbn [seq fmap list_fmap]. f_equal.
  - unfold slice. cbn [Nat.mul Nat.add drop]. f_equal. lia.
  - rewrite <- fmap_S_seq, <- !list_fmap_compose.
    generalize (seq 0 ((length l - size + size - 1) / size)).
    intros ks. induction ks as [|k ks IH]; [reflexivity|].
    cbn [fmap list_fmap] in *. f_equal; [|exact IH].
    cbn [compose]. unfold slice. rewrite drop_drop.
    change (S k * size)%nat with (size + k * size)%nat. f_equal. lia.
Qed.

(** X25. Cutting a list into batches of a positive size loses and
    reorders nothing: the batches joined give the list back; there are
    [ceil(len / size)] of them, none empty and none longer than the size,
    all but the last of exactly the size; and the number of workers
    started for a batch lies between 1 and 5. *)
Theorem batches_spec (size : nat) (l : list A) :
  (0 < size)%nat ->
  concat (batches size l) = l /\
  length (batches size l) = ((length l + size - 1) / size)%nat /\
  Forall (fun b => (1 <= length b <= size)%nat /\ (1 <= max_workers b <= 5)%nat)
    (batches size l) /\
  (forall i b, batches size l !! i = Some b ->
     (S i < length (batches size l))%nat -> length b = size).
Proof.
  intros Hs.
  assert (Hlen : length (batches size l) = ((length l + size - 1) / size)%nat).
  { unfold batches, range_step. rewrite !length_fmap, length_seq. reflexivity. }
  split; [|split; [exact Hlen|split]].
  - remember (length l) as n eqn:Hn. revert l Hn Hlen.
    induction n as [n IH] using lt_wf_ind. intros l Hn _.
    destruct l as [|x l]; [rewrite (batches_nil size Hs); reflexivity|].
    rewrite (batches_cons size (x :: l) Hs) by discriminate.
    rewrite concat_cons.
    rewrite (IH (length (drop size (x :: l)))); [apply take_drop | | reflexivity |].
    + rewrite length_drop, Hn. cbn [length]. lia.
    + unfold batches, range_step. rewrite !length_fmap, length_seq. reflexivity.
  - apply Forall_forall. intros b Hb.
    unfold batches, range_step in Hb. rewrite <- list_fmap_compose in Hb.
    apply list_elem_of_fmap in Hb as (k & -> & Hk).
    apply elem_of_seq in Hk as [_ Hk]. cbn [compose Nat.add] in *.
    unfold slice, max_workers. rewrite length_take, length_drop.
    assert (Hq : (k * size < length l)%nat).
    { assert (S k <= (length l + size - 1) / size)%nat as Hle by lia.
      pose proof (Nat.Div0.mul_div_le (length l + size - 1) size) as Hm.
      nia. }
    lia.
  - intros i b Hb Hi. rewrite Hlen in Hi.
    unfold batches, range_step in Hb. rewrite <- list_fmap_compose in Hb.
    apply list_lookup_fmap_Some in Hb as (k & -> & Hk).
    apply lookup_seq in Hk as [-> _]. cbn [compose Nat.add].
    unfold slice. rewrite length_take, length_drop.
    pose proof (Nat.Div0.mul_div_le (length l + size - 1) size) as Hm.
    nia.
Qed.

End BatchFacts.

Section BatchExamples.

Import Scanner.

Lemma batches_spec_witness :
  concat (batches batch_size (seq 0 23)) = seq 0 23 /\
  length (batches batch_size (seq 0 23)) = 3%nat.
Proof.
  destruct (batches_spec batch_size (seq 0 23) (Nat.lt_0_succ 9)) as (H1 & H2 & _).
  split; [exact H1 | exact H2].
Defined.

End BatchExamples.

Section RankingFacts.

Import Cache Scanner.

Lemma key_le_total_preorder : ListSort.total_preorder key_le.
Proof.
  unfold key_le. repeat apply lex_total_preorder;
    first [exact bool_le_total_preorder | exact string_leb_total_preorder].
Qed.

Lemma pair_le_total_preorder :
  ListSort.total_preorder (fun p q : sort_key * dict => key_le p.1 q.1).
Proof.
  destruct key_le_total_preorder as [Ht Hr]. split.
  - intros x y. apply Ht.
  - intros x y z. apply Hr.
Qed.

Lemma zip_keys (l : list dict) (keys : list sort_key) :
  Forall2 (fun d k => key_of d = Some k) l keys ->
  Forall (fun p : sort_key * dict => key_of p.2 = Some p.1) (zip keys l).
Proof.
  induction 1 as [|d k l keys Hd Hl IH]; [constructor|].
  cbn [zip zip_with]. constructor; [exact Hd | exact IH].
Qed.

Lemma sorted_with {B : Type} (R : B -> B -> Prop) (P : B -> Prop) (l : list B) :
  StronglySorted R l -> Forall P l ->
  StronglySorted (fun x y => R x y /\ P x /\ P y) l.
Proof.
  induction 1 as [|x l Hs IH Hx]; intros HP; [constructor|].
  apply Forall_cons in HP as [Px HP]. constructor; [exact (IH HP)|].
  rewrite Forall_forall in Hx, HP |- *. intros y Hy.
  split; [exact (Hx y Hy) | split; [exact Px | exact (HP y Hy)]].
Qed.

(** What the order of the keys says about two results. *)
Lemma ranks_before_fields (x y : dict) :
  ranks_before x y ->
  (str_item y "recommendation" = Some "Recommended" ->
   str_item x "recommendation" = Some "Recommended") /\
  ((str_item x "recommendation" = Some "Recommended" <->
    str_item y "recommendation" = Some "Recommended") ->
   str_item x "earnings_time" = Some "Unknown" ->
   str_item y "earnings_time" = Some "Unknown").
Proof.
  intros (kx & ky & Hx & Hy & Hle). unfold key_of in Hx, Hy.
  destruct (str_item x "recommendation") as [rx|]; [|discriminate Hx].
  destruct (str_item x "earnings_time") as [tx|]; [|discriminate Hx].
  destruct (str_item x "ticker") as [sx|]; [|discriminate Hx].
  destruct (str_item y "recommendation") as [ry|]; [|discriminate Hy].
  destruct (str_item y "earnings_time") as [ty|]; [|discriminate Hy].
  destruct (str_item y "ticker") as [sy|]; [|discriminate Hy].
  cbn in Hx, Hy. injection Hx as <-. injection Hy as <-.
  unfold key_le, ListSort.lex, ListSort.bool_le in Hle. cbn [fst snd] in Hle.
  destruct (String.eqb_spec rx "Recommended") as [->|Hrx],
           (String.eqb_spec ry "Recommended") as [->|Hry];
    cbn [negb implb] in Hle.
  - split; [reflexivity|]. intros _ Htx. injection Htx as ->.
    rewrite String.eqb_refl in Hle. cbn [implb] in Hle.
    destruct (String.eqb_spec ty "Unknown") as [->|Hty]; [reflexivity|].
    discriminate Hle.
  - split; [reflexivity|]. intros [Hxy _]. specialize (Hxy eq_refl).
    injection Hxy as ->. contradiction.
  - destruct (implb (tx =? "Unknown")%string (ty =? "Unknown")%string);
      discriminate Hle.
  - split; [intros H; injection H as ->; contradiction|].
    intros _ Htx. injection Htx as ->.
    rewrite String.eqb_refl in Hle. cbn [implb] in Hle.
    destruct (String.eqb_spec ty "Unknown") as [->|Hty]; [reflexivity|].
    discriminate Hle.
Qed.

(** X26. The final sort of a scan returns the same results in an order in
    which every result may stand before every later one: a result scored
    ['Recommended'] never comes after one that is not, and among results
    of the same class one whose earnings time is ['Unknown'] never comes
    before one whose time is known.  The sort does not raise on results
    that [analyze_stock] built. *)
Theorem sort_results_spec (l : list dict) :
  Forall (fun d => is_Some (key_of d)) l ->
  exists l',
    sort_results l = Some l' /\
    l' ≡ₚ l /\
    StronglySorted ranks_before l' /\
    (forall i j x y, l' !! i = Some x -> l' !! j = Some y -> (i < j)%nat ->
       (str_item y "recommendation" = Some "Recommended" ->
        str_item x "recommendation" = Some "Recommended") /\
       ((str_item x "recommendation" = Some "Recommended" <->
         str_item y "recommendation" = Some "Recommended") ->
        str_item x "earnings_time" = Some "Unknown" ->
        str_item y "earnings_time" = Some "Unknown")).
Proof.
  intros Hl.
  assert (Hkeys : exists keys, Forall2 (fun d k => key_of d = Some k) l keys).
  { induction Hl as [|d l [k Hk] Hl [keys IH]]; [exists []; constructor|].
    exists (k :: keys). constructor; assumption. }
  destruct Hkeys as [keys Hkeys].
  unfold sort_results. rewrite (mapM_Some_2 _ _ _ Hkeys). cbn [mbind option_bind].
  set (le := fun p q : sort_key * dict => key_le p.1 q.1).
  eexists. split; [reflexivity|].
  assert (Hperm : (ListSort.isort le (zip keys l)).*2 ≡ₚ l).
  { rewrite (isort_perm le). apply reflexive_eq, snd_zip.
    rewrite (Forall2_length _ _ _ Hkeys). reflexivity. }
  assert (Hsorted : StronglySorted ranks_before (ListSort.isort le (zip keys l)).*2).
  { apply (StronglySorted_fmap snd
             (fun p q => (le p q = true) /\
                         key_of p.2 = Some p.1 /\ key_of q.2 = Some q.1)).
    - intros p q (Hle & Hp & Hq). exists p.1, q.1. auto.
    - apply sorted_with; [apply isort_sorted, pair_le_total_preorder|].
      rewrite (isort_perm le). apply zip_keys, Hkeys. }
  split; [exact Hperm|]. split; [exact Hsorted|].
  intros i j x y Hi Hj Hij. apply ranks_before_fields.
  revert Hsorted i j Hi Hj Hij.
  generalize ((ListSort.isort le (zip keys l)).*2). clear.
  intros l' Hs. induction Hs as [|a l' Hs IH Ha]; intros i j Hi Hj Hij.
  - rewrite lookup_nil in Hi. discriminate Hi.
  - destruct j as [|j]; [lia|]. cbn in Hj. destruct i as [|i]; cbn in Hi.
    + injection Hi as ->. rewrite Forall_forall in Ha.
      apply Ha. exact (list_elem_of_lookup_2 _ _ _ Hj).
    + apply (IH i j Hi Hj). lia.
Qed.

Lemma sort_results_spec_witness :
  exists l',
    sort_results [Fixtures.avoided_result; Fixtures.recommended_result] = Some l' /\
    l' ≡ₚ [Fixtures.avoided_result; Fixtures.recommended_result] /\
    StronglySorted ranks_before l'.
Proof.
  assert (H : Forall (fun d => is_Some (key_of d))
                [Fixtures.avoided_result; Fixtures.recommended_result]).
  { repeat constructor; eexists; reflexivity. }
  destruct (sort_results_spec _ H) as (l' & H1 & H2 & H3 & _).
  exists l'. split; [exact H1 | split; [exact H2 | exact H3]].
Defined.

End RankingFacts.

(** ** Option data from Finviz *)

Section FinvizFacts.

Import Cache Finviz.

Variable expiries_json : nat -> string -> expiries_reply.

(** X27. A [FinvizTicker] that holds a list of expiries never asks for
    them again.  A read of [options] on a ticker that holds none makes
    exactly one request and stores what it returns: the list of the reply,
    or the empty list when the request failed.  From then on every read
    returns the stored list and makes no request, whatever the session
    would answer.  A reply that decodes to [null] is the exception: the
    read returns [None], nothing is kept, and the next read asks again. *)
Theorem options_fetched_once (t : FinvizTicker) (requests : nat) :
  let '(r, (t', n)) := options expiries_json t requests in
  _expirations t' = r /\
  symbol t' = symbol t /\
  (forall l0, _expirations t = Some l0 ->
     r = Some l0 /\ t' = t /\ n = requests) /\
  (_expirations t = None ->
     n = S requests /\
     r = match expiries_json requests (symbol t) with
         | Expiries l => Some l
         | Null => None
         | Failed => Some []
         end) /\
  (forall l, r = Some l ->
     forall other m, options other t' m = (Some l, (t', m))) /\
  (r = None ->
     expiries_json requests (symbol t) = Null /\
     forall m, (options expiries_json t' m).2.2 = S m).
Proof.
  unfold options, _fetch_expirations. destruct t as [s [l0|]]; cbn.
  - split; [reflexivity|]. split; [reflexivity|].
    split; [intros l1 H; injection H as <-; auto|].
    split; [discriminate|].
    split; [intros l H other m; injection H as <-; reflexivity|].
    discriminate.
  - split; [reflexivity|]. split; [reflexivity|].
    split; [discriminate|]. split; [auto|].
    destruct (expiries_json requests s) as [| |l]; cbn.
    + split; [intros l H other m; injection H as <-; reflexivity | discriminate].
    + split; [discriminate | auto].
    + split; [intros l1 H other m; injection H as <-; reflexivity | discriminate].
Qed.

Lemma transform_from (acc : OptionChain) (opts : list dict) :
  foldl add_row acc opts =
    {| calls := calls acc ++ (to_row <$> filter (fun o => is_call o = true) opts);
       puts := puts acc ++ (to_row <$> filter (fun o => is_call o <> true) opts) |}.
Proof.
  revert acc. induction opts as [|o opts IH]; intros acc.
  - cbn. rewrite !app_nil_r. destruct acc; reflexivity.
  - cbn [foldl]. rewrite IH. unfold add_row.
    destruct (is_call o) eqn:E.
    + rewrite filter_cons_True by exact E.
      rewrite filter_cons_False by (rewrite E; auto).
      cbn [calls puts]. rewrite fmap_cons, <- app_assoc. reflexivity.
    + rewrite filter_cons_False by (rewrite E; discriminate).
      rewrite filter_cons_True by (rewrite E; discriminate).
      cbn [calls puts]. rewrite fmap_cons, <- app_assoc. reflexivity.
Qed.

(** X28. [option_chain] splits the options of a reply, in their order,
    into the rows of those whose type is ['call'] and the rows of all
    others, an option without type included; no option is lost or
    repeated.  A failed request or a reply without ['options'] gives two
    empty frames, and [compute_recommendation] skips the expiry exactly
    when the reply lacks an option of type ['call'] or an option of
    another type. *)
Theorem option_chain_spec (raw_data : chain_reply) :
  let opts := match raw_data with Some (Some l) => l | _ => [] end in
  let chain := option_chain raw_data in
  calls chain = to_row <$> filter (fun o => is_call o = true) opts /\
  puts chain = to_row <$> filter (fun o => is_call o <> true) opts /\
  calls chain ++ puts chain ≡ₚ to_row <$> opts /\
  (forall o, o ∈ opts -> o !! "type" = None -> to_row o ∈ puts chain) /\
  (skipped chain = false <->
     (exists o, o ∈ opts /\ is_call o = true) /\
     (exists o, o ∈ opts /\ is_call o = false)).
Proof.
  intros opts chain.
  assert (Hc : chain = {| calls := to_row <$> filter (fun o => is_call o = true) opts;
                          puts := to_row <$> filter (fun o => is_call o <> true) opts |}).
  { subst chain opts. destruct raw_data as [[l|]|]; try reflexivity.
    unfold option_chain, _transform_to_dataframes. rewrite transform_from.
    reflexivity. }
  rewrite Hc. cbn [calls puts]. clear Hc chain.
  split; [reflexivity|]. split; [reflexivity|]. split; [|split].
  - generalize opts. clear. intros opts.
    induction opts as [|o opts IH]; [reflexivity|].
    destruct (is_call o) eqn:E.
    + rewrite filter_cons_True by exact E.
      rewrite filter_cons_False by (rewrite E; auto).
      rewrite !fmap_cons. cbn [app]. rewrite IH. reflexivity.
    + rewrite filter_cons_False by (rewrite E; discriminate).
      rewrite filter_cons_True by (rewrite E; discriminate).
      rewrite !fmap_cons, <- Permutation_middle, IH. reflexivity.
  - intros o Ho Hty. apply list_elem_of_fmap_2, list_elem_of_filter.
    split; [|exact Ho]. unfold is_call, get_or. rewrite Hty. discriminate.
  - unfold skipped. cbn [calls puts]. split.
    + intros H.
      destruct (filter (fun o => is_call o = true) opts) as [|c cs] eqn:Ec;
        [discriminate H|].
      destruct (filter (fun o => is_call o <> true) opts) as [|p ps] eqn:Ep;
        [discriminate H|].
      assert (Hcin : c ∈ filter (fun o => is_call o = true) opts)
        by (rewrite Ec; left).
      assert (Hpin : p ∈ filter (fun o => is_call o <> true) opts)
        by (rewrite Ep; left).
      apply list_elem_of_filter in Hcin as [Hc1 Hc2].
      apply list_elem_of_filter in Hpin as [Hp1 Hp2].
      split; [exists c; auto|]. exists p. split; [exact Hp2|].
      destruct (is_call p); [contradiction | reflexivity].
    + intros [[c [Hc1 Hc2]] [p [Hp1 Hp2]]].
      assert (Hcin : c ∈ filter (fun o => is_call o = true) opts)
        by (apply list_elem_of_filter; auto).
      assert (Hpin : p ∈ filter (fun o => is_call o <> true) opts)
        by (apply list_elem_of_filter; split; [congruence | exact Hp1]).
      destruct (filter (fun o => is_call o = true) opts); [inversion Hcin|].
      destruct (filter (fun o => is_call o <> true) opts); [inversion Hpin|].
      reflexivity.
Qed.

End FinvizFacts.

(** ** The filters of the result table *)

Section TableFacts.

Import Cache Table.

Lemma rejected_false (choice : string) (v : pyval) :
  rejected choice v = false <-> choice = "All" \/ py_eq v (VStr choice) = true.
Proof.
  unfold rejected. destruct (String.eqb_spec choice "All") as [->|Hne]; cbn.
  - split; auto.
  - destruct (py_eq v (VStr choice)); cbn; split; auto.
    intros [H|H]; [contradiction | discriminate H].
Qed.

Lemma apply_filters_filter (time_val rec_val : string) (data : list dict) :
  apply_filters time_val rec_val data = filter (shown time_val rec_val) data.
Proof.
  induction data as [|row data IH]; [reflexivity|].
  cbn [apply_filters].
  destruct (rejected time_val _) eqn:Et.
  - rewrite filter_cons_False; [exact IH|].
    intros [H _]. apply rejected_false in H. congruence.
  - destruct (rejected rec_val _) eqn:Er.
    + rewrite filter_cons_False; [exact IH|].
      intros [_ H]. apply rejected_false in H. congruence.
    + rewrite filter_cons_True; [rewrite IH; reflexivity|].
      split; apply rejected_false; assumption.
Qed.

(** X29. The table filters keep, in their order, exactly the rows whose
    earnings time and recommendation equal the chosen values, a choice of
    ['All'] accepting every row and an absent field counting as
    ['Unknown'] or ['Avoid']; with both choices ['All'] nothing is
    dropped; filtering twice is filtering once; and filtering by both
    choices is filtering by one after the other. *)
Theorem apply_filters_spec (time_val rec_val : string) (data : list dict) :
  sublist (apply_filters time_val rec_val data) data /\
  (forall row, row ∈ apply_filters time_val rec_val data <->
     row ∈ data /\ shown time_val rec_val row) /\
  apply_filters "All" "All" data = data /\
  apply_filters time_val rec_val (apply_filters time_val rec_val data)
    = apply_filters time_val rec_val data /\
  apply_filters time_val rec_val data
    = apply_filters time_val "All" (apply_filters "All" rec_val data).
Proof.
  rewrite !apply_filters_filter. split; [apply sublist_filter|].
  split; [intros row; rewrite list_elem_of_filter; tauto|].
  split; [|split].
  - induction data as [|row data IH]; [reflexivity|].
    rewrite filter_cons_True by (split; left; reflexivity).
    rewrite IH. reflexivity.
  - induction data as [|row data IH]; [reflexivity|].
    destruct (decide (shown time_val rec_val row)) as [H|H].
    + rewrite filter_cons_True by exact H.
      rewrite filter_cons_True by exact H. rewrite IH. reflexivity.
    + rewrite filter_cons_False by exact H. exact IH.
  - induction data as [|row data IH]; [reflexivity|].
    destruct (decide (shown "All" rec_val row)) as [H|H].
    + rewrite (filter_cons_True (shown "All" rec_val)) by exact H.
      destruct (decide (shown time_val "All" row)) as [H'|H'].
      * rewrite filter_cons_True by (split; [apply H' | apply H]).
        rewrite (filter_cons_True (shown time_val "All")) by exact H'.
        rewrite IH. reflexivity.
      * rewrite filter_cons_False by (intros [H1 _]; apply H'; split; [exact H1 | left; reflexivity]).
        rewrite (filter_cons_False (shown time_val "All")) by exact H'.
        exact IH.
    + rewrite (filter_cons_False (shown "All" rec_val)) by exact H.
      rewrite filter_cons_False
        by (intros [_ H2]; apply H; split; [left; reflexivity | exact H2]).
      exact IH.
Qed.

End TableFacts.
